(** * Funny JSON Explorer (fje.py): node model, builder and the two renderers

    The definitions come in three layers.
    - [Py]: the fragment of Python the program relies on: text as a sequence
      of code points, [str.rstrip], list indexing with negative indices,
      exceptions.
    - [Fje]: the classes of fje.py as a functional model. A node is a tree
      value, [add] returns the updated parent, and [display] is a function
      of the node, the prefix and the [is_last] flag.
    - [Heap]: the same classes over an explicit object store, where [add]
      assigns into two instances and [display] reads the store.
    - [Limit]: [build], [display] and [main] with the frames the
      interpreter allows to nested calls, and with a [print] that can
      fail.
    The lemmas [build_refines] and [display_refines] relate the last two:
    what [Heap.build] leaves in the store is the tree [Fje.build] returns,
    and [Heap.display] on it returns what [Fje.display] does. *)

From Stdlib Require Import ZArith NArith Lia List Ascii String DecimalString.
From stdpp Require Import base tactics option list.
Import ListNotations.

Set Warnings "-register-all".
Local Open Scope Z_scope.

(** ** Python fragment *)

Module Py.

(** A Python [str] is a sequence of Unicode code points; [len] counts them. *)
Abbreviation char := N (only parsing).
Abbreviation str := (list N) (only parsing).

(** Text made of ASCII characters only, written as a Rocq string. *)
Definition lit (s : string) : str := map N_of_ascii (list_ascii_of_string s).

Definition NL : char := 10%N.            (* '\n' *)
Definition SP : char := 32%N.            (* ' ' *)
Definition HORIZ : char := 0x2500%N.     (* ─ *)
Definition VERT : char := 0x2502%N.      (* │ *)
Definition DOWN_RIGHT : char := 0x250C%N. (* ┌ *)
Definition DOWN_LEFT : char := 0x2510%N.  (* ┐ *)
Definition UP_RIGHT : char := 0x2514%N.   (* └ *)
Definition UP_LEFT : char := 0x2518%N.    (* ┘ *)
Definition VERT_RIGHT : char := 0x251C%N. (* ├ *)
Definition VERT_LEFT : char := 0x2524%N.  (* ┤ *)
Definition UP_HORIZ : char := 0x2534%N.   (* ┴ *)

(** [RecursionError] is what the interpreter raises when a call would nest
    deeper than its limit allows. *)
Inductive exn := IndexError | TypeError | AttributeError | RecursionError.

Inductive res (A : Type) :=
| Ret (a : A)
| Raise (e : exn).
Arguments Ret {A} a.
Arguments Raise {A} e.

Definition bind {A B} (m : res A) (k : A -> res B) : res B :=
  match m with
  | Ret a => k a
  | Raise e => Raise e
  end.

(** [str.isspace] on one code point (CPython's [_PyUnicode_IsWhitespace]). *)
Definition isspace (c : char) : bool :=
  ((9 <=? c) && (c <=? 13) || (28 <=? c) && (c <=? 32)
   || (c =? 0x85) || (c =? 0xA0) || (c =? 0x1680)
   || (0x2000 <=? c) && (c <=? 0x200A)
   || (c =? 0x2028) || (c =? 0x2029) || (c =? 0x202F)
   || (c =? 0x205F) || (c =? 0x3000))%N.

(** [s.rstrip()]: drop the longest suffix of whitespace. *)
Fixpoint rstrip (s : str) : str :=
  match s with
  | [] => []
  | c :: r =>
      match rstrip r with
      | [] => if isspace c then [] else [c]
      | r' => c :: r'
      end
  end.

(** [len(s)] as a Python integer. *)
Definition len {A} (l : list A) : Z := Z.of_nat (length l).

(** [c * n] for a one-character string [c]: empty when [n <= 0]. *)
Definition repeat_char (c : char) (n : Z) : str := replicate (Z.to_nat n) c.

(** The position an index [i] denotes in a list of length [n]; a negative
    index counts from the end; [None] when out of range. *)
Definition py_index (n : Z) (i : Z) : option nat :=
  if 0 <=? i then (if i <? n then Some (Z.to_nat i) else None)
  else (if - n <=? i then Some (Z.to_nat (n + i)) else None).

(** [l[i]] *)
Definition getitem {A} (l : list A) (i : Z) : res A :=
  match py_index (len l) i with
  | Some k => match l !! k with Some x => Ret x | None => Raise IndexError end
  | None => Raise IndexError
  end.

(** [l[i] = x] *)
Definition setitem {A} (l : list A) (i : Z) (x : A) : res (list A) :=
  match py_index (len l) i with
  | Some k => Ret (<[k:=x]> l)
  | None => Raise IndexError
  end.

(** [range(a, b)] *)
Definition range (a b : Z) : list Z := seqZ a (b - a).

(** [s.split('\n')] *)
Fixpoint split_lines (s : str) : list str :=
  match s with
  | [] => [[]]
  | c :: r =>
      if (c =? NL)%N then [] :: split_lines r
      else
        match split_lines r with
        | l :: ls => (c :: l) :: ls
        | [] => [[c]]
        end
  end.

(** [str(z)] for an integer. *)
Definition str_of_int (z : Z) : str := lit (NilZero.string_of_int (Z.to_int z)).

End Py.
Import Py.

Notation "x <- m ;; k" := (bind m (fun x => k))
  (at level 100, m at next level, right associativity).

(** ** Parsed JSON values, as [json.load] returns them *)

(** What is neither a [dict] nor a [list]. A float is carried by the text
    [str] gives for it, the only way the program observes it. *)
Inductive scalar :=
| PNone
| PBool (b : bool)
| PInt (z : Z)
| PFloat (repr : str)
| PStr (s : str).

(** A [dict] keeps its items in insertion order. *)
Inductive json :=
| JDict (items : list (str * json))
| JList (elems : list json)
| JAtom (v : scalar).

(** The nesting depth of a value. *)
Fixpoint depth (j : json) : nat :=
  match j with
  | JDict items => S (list_max (map (fun kv => depth kv.2) items))
  | JList elems => S (list_max (map depth elems))
  | JAtom _ => 1
  end.

(** [f"{v}"] *)
Definition format_scalar (v : scalar) : str :=
  match v with
  | PNone => lit "None"
  | PBool true => lit "True"
  | PBool false => lit "False"
  | PInt z => str_of_int z
  | PFloat r => r
  | PStr s => s
  end.

(** [f"{key}"] where [key] is a string or [None]. *)
Definition format_key (key : option str) : str :=
  match key with
  | Some k => k
  | None => lit "None"
  end.

(** [value is None] *)
Definition is_None (v : scalar) : bool :=
  match v with PNone => true | _ => false end.

(** ** The classes of fje.py, as a functional model *)

Module Fje.

(** [icon_family]: the icon of containers, then the icon of leaves. *)
Definition icons := (str * str)%type.

(** The four concrete classes. A composite has [level] from its constructor;
    a leaf gets the attribute only when [add] stamps it, hence the option. *)
Inductive Node :=
| TreeLeafNode (key : option str) (value : scalar) (icon_family : icons)
    (level : option Z)
| TreeCompositeNode (key : option str) (icon_family : icons)
    (children : list Node) (level : Z)
| RectangleLeafNode (key : option str) (value : scalar) (icon_family : icons)
    (row_length : Z) (level : option Z)
| RectangleCompositeNode (key : option str) (icon_family : icons)
    (children : list Node) (level : Z) (row_length : Z).

(** [node.level], when the attribute exists. *)
Definition get_level (n : Node) : option Z :=
  match n with
  | TreeLeafNode _ _ _ l => l
  | TreeCompositeNode _ _ _ l => Some l
  | RectangleLeafNode _ _ _ _ l => l
  | RectangleCompositeNode _ _ _ l _ => Some l
  end.

(** [node.level = l] *)
Definition set_level (n : Node) (l : Z) : Node :=
  match n with
  | TreeLeafNode k v ic _ => TreeLeafNode k v ic (Some l)
  | TreeCompositeNode k ic cs _ => TreeCompositeNode k ic cs l
  | RectangleLeafNode k v ic w _ => RectangleLeafNode k v ic w (Some l)
  | RectangleCompositeNode k ic cs _ w => RectangleCompositeNode k ic cs l w
  end.

(** [self.add(node)]: stamp the child, append it. Leaves have no [add]. *)
Definition add (self : Node) (child : Node) : res Node :=
  match self with
  | TreeCompositeNode k ic cs l =>
      Ret (TreeCompositeNode k ic (cs ++ [set_level child (l + 1)]) l)
  | RectangleCompositeNode k ic cs l w =>
      Ret (RectangleCompositeNode k ic (cs ++ [set_level child (l + 1)]) l w)
  | _ => Raise AttributeError
  end.

Inductive factory := TreeNodeFactory | RectangleNodeFactory.

Definition create_leaf_node (f : factory) (key : option str) (value : scalar)
    (icon_family : icons) : Node :=
  match f with
  | TreeNodeFactory => TreeLeafNode key value icon_family None
  | RectangleNodeFactory => RectangleLeafNode key value icon_family 60 None
  end.

Definition create_composite_node (f : factory) (key : option str)
    (icon_family : icons) : Node :=
  match f with
  | TreeNodeFactory => TreeCompositeNode key icon_family [] 0
  | RectangleNodeFactory => RectangleCompositeNode key icon_family [] 0 60
  end.

(** [f"{key}[{i}]"] *)
Definition index_key (key : option str) (i : Z) : str :=
  format_key key ++ lit "[" ++ str_of_int i ++ lit "]".

(** The two loops of [build], over the recursive call [self.build]. *)
Section BuildLoops.
Variable build : json -> option str -> res Node.

(** [for k, v in json_data.items(): node.add(self.build(v, k))] *)
Fixpoint items_loop (items : list (str * json)) (node : Node) : res Node :=
  match items with
  | [] => Ret node
  | (k, v) :: rest =>
      child_node <- build v (Some k) ;;
      node <- add node child_node ;;
      items_loop rest node
  end.

(** [for i, v in enumerate(json_data):
       node.add(self.build(v, f"{key}[{i}]"))] *)
Fixpoint enum_loop (key : option str) (elems : list json) (i : Z)
    (node : Node) : res Node :=
  match elems with
  | [] => Ret node
  | v :: rest =>
      child_node <- build v (Some (index_key key i)) ;;
      node <- add node child_node ;;
      enum_loop key rest (i + 1) node
  end.
End BuildLoops.

(** [JSONBuilder.build] *)
Fixpoint build (f : factory) (icon_family : icons) (json_data : json)
    (key : option str) : res Node :=
  match json_data with
  | JDict items =>
      items_loop (build f icon_family) items
        (create_composite_node f key icon_family)
  | JList elems =>
      enum_loop (build f icon_family) key elems 0
        (create_composite_node f key icon_family)
  | JAtom v => Ret (create_leaf_node f key v icon_family)
  end.

(** ['└─' if is_last else '├─'] *)
Definition connector (is_last : bool) : str :=
  if is_last then [UP_RIGHT; HORIZ] else [VERT_RIGHT; HORIZ].

(** [x + s] where [x] is what a [display] returned: [None + s] is a
    [TypeError]. *)
Definition concat_opt (x : option str) (s : str) : res str :=
  match x with
  | Some t => Ret (t ++ s)
  | None => Raise TypeError
  end.

(** [str(x)] where [x] is what a [display] returned. *)
Definition str_opt (x : option str) : str :=
  match x with
  | Some t => t
  | None => lit "None"
  end.

(** The text of a leaf line before any padding (lines 24-27, 100-105). *)
Definition leaf_row (prefix : str) (is_last : bool) (ic : icons)
    (key : option str) (value : scalar) : str :=
  if is_None value
  then prefix ++ connector is_last ++ ic.2 ++ format_key key
  else prefix ++ connector is_last ++ ic.2 ++ format_key key ++ lit ": "
         ++ format_scalar value.

(** [row + '─' * (row_length - len(row) - 1) + '─┤'] *)
Definition pad (row : str) (row_length : Z) : str :=
  row ++ repeat_char HORIZ (row_length - len row - 1) ++ [HORIZ; VERT_LEFT].

(** Line 45: the header of a tree composite, with its line break. *)
Definition tree_header (level : Z) (prefix : str) (is_last : bool)
    (ic : icons) (key : option str) : str :=
  if level =? 0 then []
  else prefix ++ connector is_last ++ ic.1 ++ format_key key ++ [NL].

(** Line 49 *)
Definition tree_child_prefix (level : Z) (is_last : bool) : str :=
  if level =? 0 then [] else if is_last then lit "   " else VERT :: lit "  ".

(** The row of a rectangle composite before padding (line 129). *)
Definition composite_row (prefix : str) (ic : icons) (key : option str) : str :=
  prefix ++ [VERT_RIGHT; HORIZ] ++ ic.1 ++ format_key key.

(** Lines 126-130: the header of a rectangle composite, with its line
    break. *)
Definition rect_header (level : Z) (prefix : str) (ic : icons)
    (key : option str) (row_length : Z) : str :=
  if level =? 0 then []
  else pad (composite_row prefix ic key) row_length ++ [NL].

(** Line 134 *)
Definition rect_child_prefix (level : Z) : str :=
  if level =? 0 then [] else VERT :: lit "  ".

(** The loops over [enumerate(self.children)], over the dynamic call
    [child.display]; [n] is [len(self.children)]. *)
Section DisplayLoops.
Variable display : Node -> str -> bool -> res (option str).
Variable n : Z.
Variable child_prefix : str.

(** lines 46-50 *)
Fixpoint tree_children_loop (cs : list Node) (i : Z) (result : str)
    : res str :=
  match cs with
  | [] => Ret result
  | child :: rest =>
      let child_is_last := i =? n - 1 in
      x <- display child child_prefix child_is_last ;;
      line <- concat_opt x [NL] ;;
      tree_children_loop rest (i + 1) (result ++ line)
  end.

(** lines 131-135 *)
Fixpoint rect_children_loop (cs : list Node) (i : Z) (result : str)
    : res str :=
  match cs with
  | [] => Ret result
  | child :: rest =>
      let child_is_last := i =? n - 1 in
      x <- display child child_prefix child_is_last ;;
      rect_children_loop rest (i + 1) (result ++ str_opt x ++ [NL])
  end.
End DisplayLoops.

(** Line 145: one of the vertical-guide glyphs │ ├ └. *)
Definition is_guide (c : char) : bool :=
  ((c =? VERT) || (c =? VERT_RIGHT) || (c =? UP_RIGHT))%N.

(** Line 149: the one-character string [c] equals one of the two icons. *)
Definition is_icon (ic : icons) (c : char) : bool :=
  bool_decide ([c] = ic.1) || bool_decide ([c] = ic.2).

(** The loop of lines 144-150 over the indices [idxs]; it ends early at a
    character equal to one of the icons. *)
Fixpoint scan (ic : icons) (idxs : list Z) (result_list : list char)
    : res (list char) :=
  match idxs with
  | [] => Ret result_list
  | i :: rest =>
      c <- getitem result_list i ;;
      if is_guide c then
        result_list <- setitem result_list i UP_HORIZ ;;
        scan ic rest result_list
      else if (c =? SP)%N then
        result_list <- setitem result_list i HORIZ ;;
        scan ic rest result_list
      else if is_icon ic c then Ret result_list
      else scan ic rest result_list
  end.

(** Lines 139-151: the frame of the rectangle. *)
Definition stitch (ic : icons) (row_length : Z) (result : str) : res str :=
  result_list <- setitem result 0 DOWN_RIGHT ;;
  result_list <- setitem result_list row_length DOWN_LEFT ;;
  result_list <- setitem result_list (-2) UP_LEFT ;;
  result_list <- setitem result_list (- row_length - 2) UP_RIGHT ;;
  scan ic (range (- row_length - 1) (-1)) result_list.

(** [Node.display]; the result is [None] where the method falls off its end
    without a [return]. *)
Fixpoint display (self : Node) (prefix : str) (is_last : bool)
    : res (option str) :=
  match self with
  | TreeLeafNode key value ic _ =>
      Ret (Some (leaf_row prefix is_last ic key value))
  | TreeCompositeNode key ic children level =>
      result <-
        tree_children_loop display (len children)
          (prefix ++ tree_child_prefix level is_last) children 0
          (tree_header level prefix is_last ic key) ;;
      Ret (Some (rstrip result))
  | RectangleLeafNode key value ic row_length _ =>
      let row := leaf_row prefix is_last ic key value in
      if len row <? row_length then Ret (Some (pad row row_length))
      else Ret None
  | RectangleCompositeNode key ic children level row_length =>
      result <-
        rect_children_loop display (len children)
          (prefix ++ rect_child_prefix level) children 0
          (rect_header level prefix ic key row_length) ;;
      result <-
        (if level =? 0 then stitch ic row_length result else Ret result) ;;
      Ret (Some (rstrip result))
  end.

(** [main] after parsing: [builder.build(json_data)], [root.display()]. *)
Definition render (f : factory) (icon_family : icons) (json_data : json)
    : res (option str) :=
  root <- build f icon_family json_data None ;;
  display root [] true.

End Fje.
Import Fje.

(** ** Observations on trees *)

Definition children (n : Node) : list Node :=
  match n with
  | TreeCompositeNode _ _ cs _ => cs
  | RectangleCompositeNode _ _ cs _ _ => cs
  | _ => []
  end.

Definition is_composite (n : Node) : bool :=
  match n with
  | TreeCompositeNode _ _ _ _ | RectangleCompositeNode _ _ _ _ _ => true
  | _ => false
  end.

(** [isinstance(json_data, (dict, list))] *)
Definition is_container (j : json) : bool :=
  match j with
  | JAtom _ => false
  | _ => true
  end.

(** All nodes strictly below [n], parents before children. *)
Fixpoint descendants (n : Node) : list Node :=
  match n with
  | TreeCompositeNode _ _ cs _ => flat_map (fun c => c :: descendants c) cs
  | RectangleCompositeNode _ _ cs _ _ =>
      flat_map (fun c => c :: descendants c) cs
  | _ => []
  end.

(** The pairs (parent, child) of a tree, the root included as a parent. *)
Fixpoint edges (n : Node) : list (Node * Node) :=
  match n with
  | TreeCompositeNode _ _ cs _ =>
      flat_map (fun c => (n, c) :: edges c) cs
  | RectangleCompositeNode _ _ cs _ _ =>
      flat_map (fun c => (n, c) :: edges c) cs
  | _ => []
  end.

(** [g] applied to every [level] attribute of a tree. *)
Fixpoint map_levels (g : Z -> Z) (n : Node) : Node :=
  match n with
  | TreeLeafNode k v ic l => TreeLeafNode k v ic (g <$> l)
  | TreeCompositeNode k ic cs l =>
      TreeCompositeNode k ic (map (map_levels g) cs) (g l)
  | RectangleLeafNode k v ic w l => RectangleLeafNode k v ic w (g <$> l)
  | RectangleCompositeNode k ic cs l w =>
      RectangleCompositeNode k ic (map (map_levels g) cs) (g l) w
  end.

(** How the header line of a composite starts (lines 45 and 129). *)
Definition header_start (n : Node) (prefix : str) (is_last : bool) : str :=
  match n with
  | RectangleCompositeNode _ _ _ _ _ => prefix ++ [VERT_RIGHT; HORIZ]
  | _ => prefix ++ connector is_last
  end.

(** The prefix a composite adds for its children (lines 49 and 134). *)
Definition child_prefix_of (n : Node) (is_last : bool) : str :=
  match n with
  | TreeCompositeNode _ _ _ level => tree_child_prefix level is_last
  | RectangleCompositeNode _ _ _ level _ => rect_child_prefix level
  | _ => []
  end.

(** The call [display] makes on the child at position [i] of [n], when [n]
    itself is displayed with [prefix] and [is_last] (lines 47-50, 132-135):
    the child, its prefix, its [is_last]. *)
Definition child_call (n : Node) (prefix : str) (is_last : bool) (i : nat)
    : option (Node * str * bool) :=
  match children n !! i with
  | Some c =>
      Some (c, prefix ++ child_prefix_of n is_last,
            Z.of_nat i =? len (children n) - 1)
  | None => None
  end.

(** The call that reaches the node at [path], a list of positions from the
    root down. *)
Fixpoint call_at (n : Node) (prefix : str) (is_last : bool) (path : list nat)
    : option (Node * str * bool) :=
  match path with
  | [] => Some (n, prefix, is_last)
  | i :: path' =>
      match child_call n prefix is_last i with
      | Some (c, p, b) => call_at c p b path'
      | None => None
      end
  end.



(** The row text of the line a node renders for itself, before any padding
    (lines 25, 27, 45, 101, 105, 129). *)
Definition row_of (n : Node) (prefix : str) (is_last : bool) : str :=
  match n with
  | TreeLeafNode k v ic _ => leaf_row prefix is_last ic k v
  | TreeCompositeNode k ic _ _ =>
      prefix ++ connector is_last ++ ic.1 ++ format_key k
  | RectangleLeafNode k v ic _ _ => leaf_row prefix is_last ic k v
  | RectangleCompositeNode k ic _ _ _ => composite_row prefix ic k
  end.

(** A row that fits the width [w] and holds no line break. *)
Definition row_ok (w : Z) (n : Node) (prefix : str) (is_last : bool) : Prop :=
  len (row_of n prefix is_last) < w /\ (NL ∉ row_of n prefix is_last).

(** A line of the rectangle: [w + 1] characters, none a line break, the
    last one [closing]. *)
Definition framed_line (w : Z) (closing : char) (l : str) : Prop :=
  len l = w + 1 /\ (NL ∉ l) /\ last l = Some closing.

(** Lines put one after the other, each followed by a line break. *)
Definition unlines (ls : list str) : str :=
  concat (map (fun l => l ++ [NL]) ls).

(** Two texts of one length with their line breaks at the same places. *)
Definition same_breaks (s t : str) : Prop :=
  Forall2 (fun c d => c = NL <-> d = NL) s t.

(** The icon pairs of [main]'s table that the examples use. *)
Definition default_icons : icons := (lit " ", lit " ").

(** {"a": 1, "k": "xx...x", "b": 2} with sixty x: the row of "k" does not
    fit the sixty columns of the rectangle. *)
Definition unfit_example : json :=
  JDict [(lit "a", JAtom (PInt 1));
         (lit "k", JAtom (PStr (repeat_char 120%N 60)));
         (lit "b", JAtom (PInt 2))].

(** The number of nodes on the longest path from [n] down to a leaf. *)
Fixpoint height (n : Node) : nat :=
  match n with
  | TreeCompositeNode _ _ cs _ => S (list_max (map height cs))
  | RectangleCompositeNode _ _ cs _ _ => S (list_max (map height cs))
  | _ => 1
  end.

(** The class a factory gives a node. *)
Definition of_factory (f : factory) (n : Node) : bool :=
  match f, n with
  | TreeNodeFactory, (TreeLeafNode _ _ _ _ | TreeCompositeNode _ _ _ _) => true
  | RectangleNodeFactory, RectangleLeafNode _ _ _ w _ => bool_decide (w = 60)
  | RectangleNodeFactory, RectangleCompositeNode _ _ _ _ w =>
      bool_decide (w = 60)
  | _, _ => false
  end.

Definition icon_family (n : Node) : icons :=
  match n with
  | TreeLeafNode _ _ ic _ | TreeCompositeNode _ ic _ _
  | RectangleLeafNode _ _ ic _ _ | RectangleCompositeNode _ ic _ _ _ => ic
  end.

(** What [build] leaves below the node it returns: one family of classes,
    one icon pair, and the level 1 on every node that was attached. *)
Inductive built (f : factory) (ic : icons) : Node -> Prop :=
| built_node n :
    of_factory f n = true ->
    icon_family n = ic ->
    Forall (fun c => built f ic c /\ get_level c = Some 1) (children n) ->
    built f ic n.


(** ** The same classes over an object store *)

Module Heap.

Abbreviation loc := nat (only parsing).

(** An instance of one of the four classes with its attributes; a composite
    holds references to its children. *)
Inductive object :=
| OTreeLeafNode (key : option str) (value : scalar) (icon_family : icons)
    (level : option Z)
| OTreeCompositeNode (key : option str) (icon_family : icons)
    (children : list loc) (level : Z)
| ORectangleLeafNode (key : option str) (value : scalar)
    (icon_family : icons) (row_length : Z) (level : option Z)
| ORectangleCompositeNode (key : option str) (icon_family : icons)
    (children : list loc) (level : Z) (row_length : Z).

Abbreviation heap := (list object) (only parsing).

(** A computation on the store: [None] when the model has no behaviour (a
    reference outside the store, or no fuel left); otherwise the value or
    the exception, and the store it leaves. *)
Definition M (A : Type) := heap -> option (res A * heap).

Definition ret {A} (a : A) : M A := fun h => Some (Ret a, h).
Definition stuck {A} : M A := fun _ => None.

(** A computation that does not touch the store. *)
Definition lift {A} (r : res A) : M A := fun h => Some (r, h).

Definition mbind {A B} (m : M A) (k : A -> M B) : M B :=
  fun h =>
    match m h with
    | Some (Ret a, h') => k a h'
    | Some (Raise e, h') => Some (Raise e, h')
    | None => None
    end.

Notation "x <~ m ;; k" := (mbind m (fun x => k))
  (at level 100, m at next level, right associativity).

(** A new instance. *)
Definition alloc (o : object) : M loc :=
  fun h => Some (Ret (length h), h ++ [o]).

Definition load (l : loc) : M object :=
  fun h => match h !! l with Some o => Some (Ret o, h) | None => None end.

Definition store (l : loc) (o : object) : M unit :=
  fun h => if decide (l < length h)%nat then Some (Ret tt, <[l:=o]> h) else None.

(** [o.level = l] *)
Definition set_level (o : object) (l : Z) : object :=
  match o with
  | OTreeLeafNode k v ic _ => OTreeLeafNode k v ic (Some l)
  | OTreeCompositeNode k ic cs _ => OTreeCompositeNode k ic cs l
  | ORectangleLeafNode k v ic w _ => ORectangleLeafNode k v ic w (Some l)
  | ORectangleCompositeNode k ic cs _ w => ORectangleCompositeNode k ic cs l w
  end.

(** [self.level] where [self] has an [add] method. *)
Definition composite_level (o : object) : res Z :=
  match o with
  | OTreeCompositeNode _ _ _ l => Ret l
  | ORectangleCompositeNode _ _ _ l _ => Ret l
  | _ => Raise AttributeError
  end.

(** [o.children.append(c)] *)
Definition append_child (o : object) (c : loc) : res object :=
  match o with
  | OTreeCompositeNode k ic cs l => Ret (OTreeCompositeNode k ic (cs ++ [c]) l)
  | ORectangleCompositeNode k ic cs l w =>
      Ret (ORectangleCompositeNode k ic (cs ++ [c]) l w)
  | _ => Raise AttributeError
  end.

(** [self.add(node)]: two assignments, each on the current store. *)
Definition add (self : loc) (node : loc) : M unit :=
  o <~ load self ;;
  l <~ lift (composite_level o) ;;
  c <~ load node ;;
  _ <~ store node (set_level c (l + 1)) ;;
  o <~ load self ;;
  o <~ lift (append_child o node) ;;
  store self o.

Definition create_leaf_node (f : factory) (key : option str) (value : scalar)
    (icon_family : icons) : M loc :=
  match f with
  | TreeNodeFactory => alloc (OTreeLeafNode key value icon_family None)
  | RectangleNodeFactory =>
      alloc (ORectangleLeafNode key value icon_family 60 None)
  end.

Definition create_composite_node (f : factory) (key : option str)
    (icon_family : icons) : M loc :=
  match f with
  | TreeNodeFactory => alloc (OTreeCompositeNode key icon_family [] 0)
  | RectangleNodeFactory =>
      alloc (ORectangleCompositeNode key icon_family [] 0 60)
  end.

Section BuildLoops.
Variable build : json -> option str -> M loc.

Fixpoint items_loop (items : list (str * json)) (node : loc) : M unit :=
  match items with
  | [] => ret tt
  | (k, v) :: rest =>
      child_node <~ build v (Some k) ;;
      _ <~ add node child_node ;;
      items_loop rest node
  end.

Fixpoint enum_loop (key : option str) (elems : list json) (i : Z)
    (node : loc) : M unit :=
  match elems with
  | [] => ret tt
  | v :: rest =>
      child_node <~ build v (Some (index_key key i)) ;;
      _ <~ add node child_node ;;
      enum_loop key rest (i + 1) node
  end.
End BuildLoops.

(** [JSONBuilder.build]: the node is created first, then each child is built
    and attached in turn. *)
Fixpoint build (f : factory) (icon_family : icons) (json_data : json)
    (key : option str) : M loc :=
  match json_data with
  | JDict items =>
      node <~ create_composite_node f key icon_family ;;
      _ <~ items_loop (build f icon_family) items node ;;
      ret node
  | JList elems =>
      node <~ create_composite_node f key icon_family ;;
      _ <~ enum_loop (build f icon_family) key elems 0 node ;;
      ret node
  | JAtom v => create_leaf_node f key v icon_family
  end.

Section DisplayLoops.
Variable display : loc -> str -> bool -> M (option str).
Variable n : Z.
Variable child_prefix : str.

Fixpoint tree_children_loop (cs : list loc) (i : Z) (result : str)
    : M str :=
  match cs with
  | [] => ret result
  | child :: rest =>
      let child_is_last := i =? n - 1 in
      x <~ display child child_prefix child_is_last ;;
      line <~ lift (concat_opt x [NL]) ;;
      tree_children_loop rest (i + 1) (result ++ line)
  end.

Fixpoint rect_children_loop (cs : list loc) (i : Z) (result : str)
    : M str :=
  match cs with
  | [] => ret result
  | child :: rest =>
      let child_is_last := i =? n - 1 in
      x <~ display child child_prefix child_is_last ;;
      rect_children_loop rest (i + 1) (result ++ str_opt x ++ [NL])
  end.
End DisplayLoops.

(** [self.display(prefix, is_last)], dispatched on the class of the instance
    at [self]; [fuel] bounds the depth of the calls. The method only reads
    the store. *)
Fixpoint display (fuel : nat) (self : loc) (prefix : str) (is_last : bool)
    : M (option str) :=
  match fuel with
  | O => stuck
  | S fuel =>
      o <~ load self ;;
      match o with
      | OTreeLeafNode key value ic _ =>
          ret (Some (leaf_row prefix is_last ic key value))
      | OTreeCompositeNode key ic children level =>
          result <~
            tree_children_loop (display fuel) (len children)
              (prefix ++ tree_child_prefix level is_last) children 0
              (tree_header level prefix is_last ic key) ;;
          ret (Some (rstrip result))
      | ORectangleLeafNode key value ic row_length _ =>
          let row := leaf_row prefix is_last ic key value in
          if len row <? row_length then ret (Some (pad row row_length))
          else ret None
      | ORectangleCompositeNode key ic children level row_length =>
          result <~
            rect_children_loop (display fuel) (len children)
              (prefix ++ rect_child_prefix level) children 0
              (rect_header level prefix ic key row_length) ;;
          result <~
            lift (if level =? 0 then stitch ic row_length result
                  else Ret result) ;;
          ret (Some (rstrip result))
      end
  end.

(** [main] after parsing, from an empty store. *)
Definition render (f : factory) (icon_family : icons) (json_data : json)
    : option (res (option str) * heap) :=
  (root <~ build f icon_family json_data None ;;
   display (depth json_data) root [] true) [].

(** Two calls of [display] in a row, the second on the store the first
    leaves: both results and the final store. *)
Definition display_twice (fuel : nat) (self : loc) (prefix : str)
    (is_last : bool) (h : heap)
    : option (res (option str) * res (option str) * heap) :=
  match display fuel self prefix is_last h with
  | Some (r1, h1) =>
      match display fuel self prefix is_last h1 with
      | Some (r2, h2) => Some (r1, r2, h2)
      | None => None
      end
  | None => None
  end.

(** The instance that stands for the node [n] when its children are at the
    locations [ls]. *)
Definition object_of (n : Node) (ls : list loc) : object :=
  match n with
  | TreeLeafNode k v ic l => OTreeLeafNode k v ic l
  | TreeCompositeNode k ic _ l => OTreeCompositeNode k ic ls l
  | RectangleLeafNode k v ic w l => ORectangleLeafNode k v ic w l
  | RectangleCompositeNode k ic _ l w => ORectangleCompositeNode k ic ls l w
  end.

(** [repr h hi l n]: in the store [h] the instance at [l] and those it
    reaches are the tree [n]; they all lie below [hi], and a child lies
    above its parent, as [build] allocates them. *)
Inductive repr (h : heap) (hi : nat) : loc -> Node -> Prop :=
| repr_node l n ls :
    (l < hi)%nat ->
    h !! l = Some (object_of n ls) ->
    Forall2 (fun l' c => (l < l')%nat /\ repr h hi l' c) ls (children n) ->
    repr h hi l n.

End Heap.

(** ** Invariants of the builder *)

(** What the loops of [build] keep true of the node under construction. *)
Record under_construction (f : factory) (ic : icons) (m : nat) (n : Node)
    : Prop := {
  uc_built : built f ic n;
  uc_composite : is_composite n = true;
  uc_level : get_level n = Some 0;
  uc_height : (height n <= S m)%nat }.

(** What [build] returns for the value [j]. *)
Record build_post (f : factory) (ic : icons) (j : json) (n : Node)
    : Prop := {
  bp_built : built f ic n;
  bp_composite : is_composite n = is_container j;
  bp_level : get_level n = if is_container j then Some 0 else None;
  bp_height : (height n <= depth j)%nat }.


(** ** The two models of [build] side by side *)

(** From the store [h], [Heap.build] returns a location above those of [h];
    the store it leaves holds there the node that [Fje.build] returns, and
    is [h] below. *)
Definition build_refines_at (f : factory) (ic : icons) (j : json)
    (key : option str) (h : list Heap.object) : Prop :=
  exists l h' n,
    Heap.build f ic j key h = Some (Ret l, h')
    /\ build f ic j key = Ret n
    /\ Heap.repr h' (length h') l n
    /\ (length h <= l)%nat
    /\ (forall x, (x < length h)%nat -> h' !! x = h !! x).

(** From the store [h], where the composite [node] under construction is at
    [a], the loop [run] of [Heap.build] ends, as the loop [run'] of
    [Fje.build] does; the store it leaves holds at [a] the node the latter
    returns, and is [h] below [a]. *)
Definition loop_refines_at (run : Heap.M unit) (run' : res Node) (a : nat)
    (h : list Heap.object) : Prop :=
  exists h' node',
    run h = Some (Ret tt, h')
    /\ run' = Ret node'
    /\ Heap.repr h' (length h') a node'
    /\ is_composite node' = true
    /\ (length h <= length h')%nat
    /\ (forall x, (x < a)%nat -> h' !! x = h !! x).


(** ** Further observations *)

(** [node.key] *)
Definition node_key (n : Node) : option str :=
  match n with
  | TreeLeafNode k _ _ _ | TreeCompositeNode k _ _ _
  | RectangleLeafNode k _ _ _ _ | RectangleCompositeNode k _ _ _ _ => k
  end.

(** The rows of the nodes below a composite, in the order [display] visits
    them: each child's own row, then those below it. *)
Section Rows.
Variable rows : Node -> str -> bool -> list str.
Variable n : Z.
Variable child_prefix : str.

Fixpoint rows_loop (cs : list Node) (i : Z) : list str :=
  match cs with
  | [] => []
  | child :: rest =>
      rows child child_prefix (i =? n - 1) ++ rows_loop rest (i + 1)
  end.
End Rows.

(** The row of [n], displayed with [prefix] and [is_last], then the rows of
    the nodes below it. *)
Fixpoint rows (n : Node) (prefix : str) (is_last : bool) : list str :=
  row_of n prefix is_last ::
  match n with
  | TreeCompositeNode _ _ cs level =>
      rows_loop rows (len cs) (prefix ++ tree_child_prefix level is_last) cs 0
  | RectangleCompositeNode _ _ cs level _ =>
      rows_loop rows (len cs) (prefix ++ rect_child_prefix level) cs 0
  | _ => []
  end.

(** The rows of the nodes below [n]. *)
Definition rows_below (n : Node) (prefix : str) (is_last : bool) : list str :=
  tail (rows n prefix is_last).

(** ** [main], after the arguments are parsed and the file is loaded *)

(** The table of icon themes (lines 214-221). *)
Definition icon_themes : list (str * icons) :=
  [ (lit "default", (lit " ", lit " "));
    (lit "tree", ([0x1F333%N], [0x1F342%N]));
    (lit "star", ([0x2B50%N; 0xFE0F%N], [0x2728%N]));
    (lit "animal", ([0x1F43F%N; 0xFE0F%N], [0x1F43E%N]));
    (lit "tech", ([0x1F4BB%N], [0x1F4F1%N]));
    (lit "food", ([0x1F34E%N], [0x1F34F%N])) ].

(** The table of styles (lines 223-226). *)
Definition styles : list (str * factory) :=
  [ (lit "tree", TreeNodeFactory); (lit "rectangle", RectangleNodeFactory) ].

(** [d[k]] for a dict written as a literal with distinct keys: [None]
    stands for [KeyError]. *)
Fixpoint dict_get {V} (d : list (str * V)) (k : str) : option V :=
  match d with
  | [] => None
  | (k', v) :: rest => if bool_decide (k' = k) then Some v else dict_get rest k
  end.

(** How [main] ends: it prints a text, or one of the two table lookups
    raises [KeyError] with the key, or [build] or [display] raises. *)
Inductive outcome :=
| Printed (text : str)
| KeyError (key : str)
| Uncaught (e : exn).

(** Lines 214-230; [style] and [icon] are [args.style] and [args.icon].
    The icon table is indexed first. [print] writes [str] of its argument
    and a line break. Here calls nest without limit and [print] writes
    whatever it is given; [Limit.main] is the same function under the
    recursion limit and with a [print] that can fail. *)
Definition main (style icon : str) (json_data : json) : outcome :=
  match dict_get icon_themes icon with
  | None => KeyError icon
  | Some icon_family =>
      match dict_get styles style with
      | None => KeyError style
      | Some factory =>
          match build factory icon_family json_data None with
          | Raise e => Uncaught e
          | Ret root =>
              match display root [] true with
              | Raise e => Uncaught e
              | Ret x => Printed (str_opt x ++ [NL])
              end
          end
      end
  end.

(** The defaults of [--style] and [--icon] (lines 203-204). *)
Definition default_style : str := lit "tree".
Definition default_icon : str := lit "default".

(** The number of values in a value: itself and those nested in it. *)
Fixpoint size (j : json) : nat :=
  match j with
  | JDict items => S (list_sum (map (fun kv => size kv.2) items))
  | JList elems => S (list_sum (map size elems))
  | JAtom _ => 1
  end.

(** The text a rectangle composite builds from what its children returned
    (line 135): each one through [str], followed by a line break. *)
Definition joined (xs : list (option str)) : str :=
  concat (map (fun x => str_opt x ++ [NL]) xs).

(** A row as it stands in the output: as it is, or trimmed on the right;
    trimmed, it is not empty. *)
Definition row_line (row line : str) : Prop :=
  (line = row \/ line = rstrip row) /\ rstrip row <> [].

(** [build] on the store returns the first fresh location and creates
    [size j] instances. *)
Definition allocates (f : factory) (ic : icons) (j : json) : Prop :=
  forall key h l h',
    Heap.build f ic j key h = Some (Ret l, h') ->
    l = length h /\ length h' = (length h + size j)%nat.

(** ** The same code under the interpreter's recursion limit *)

(** The interpreter allows calls to nest only so deep. Here every call of a
    method or constructor of the program takes one frame of the [frames]
    that are left, and raises [RecursionError] when none is; what runs
    inside the call has one frame less. Built-in functions ([len], [str],
    [list.append], [str.rstrip], ...) take none. The limit itself is the
    interpreter's, not the program's, so [frames] is an argument. *)
Module Limit.

Definition call {A} (frames : nat) (body : nat -> res A) : res A :=
  match frames with
  | O => Raise RecursionError
  | S inner => body inner
  end.

(** [self.factory.create_leaf_node(...)]: the method of the factory (lines
    68, 156), and in it the constructor [__init__] (lines 17, 91). *)
Definition create_leaf_node (frames : nat) (f : factory) (key : option str)
    (value : scalar) (icon_family : icons) : res Node :=
  call frames (fun inner =>
    call inner (fun _ => Ret (Fje.create_leaf_node f key value icon_family))).

(** [self.factory.create_composite_node(...)] (lines 78, 159) and the
    constructor (lines 30, 113). *)
Definition create_composite_node (frames : nat) (f : factory)
    (key : option str) (icon_family : icons) : res Node :=
  call frames (fun inner =>
    call inner (fun _ => Ret (Fje.create_composite_node f key icon_family))).

(** [node.add(child_node)] *)
Definition add (frames : nat) (self child : Node) : res Node :=
  call frames (fun _ => Fje.add self child).

Section BuildLoops.
Variable build : json -> option str -> res Node.
Variable frames : nat.

Fixpoint items_loop (items : list (str * json)) (node : Node) : res Node :=
  match items with
  | [] => Ret node
  | (k, v) :: rest =>
      child_node <- build v (Some k) ;;
      node <- add frames node child_node ;;
      items_loop rest node
  end.

Fixpoint enum_loop (key : option str) (elems : list json) (i : Z)
    (node : Node) : res Node :=
  match elems with
  | [] => Ret node
  | v :: rest =>
      child_node <- build v (Some (index_key key i)) ;;
      node <- add frames node child_node ;;
      enum_loop key rest (i + 1) node
  end.
End BuildLoops.

(** [JSONBuilder.build], called with [frames] frames left. *)
Fixpoint build (frames : nat) (f : factory) (icon_family : icons)
    (json_data : json) (key : option str) {struct json_data} : res Node :=
  call frames (fun inner =>
    match json_data with
    | JDict items =>
        node <- create_composite_node inner f key icon_family ;;
        items_loop (build inner f icon_family) inner items node
    | JList elems =>
        node <- create_composite_node inner f key icon_family ;;
        enum_loop (build inner f icon_family) inner key elems 0 node
    | JAtom v => create_leaf_node inner f key v icon_family
    end).

(** [Node.display], called with [frames] frames left; the loops are those
    of [Fje.display], over the calls [child.display]. *)
Fixpoint display (frames : nat) (self : Node) (prefix : str) (is_last : bool)
    {struct self} : res (option str) :=
  call frames (fun inner =>
    match self with
    | TreeLeafNode key value ic _ =>
        Ret (Some (leaf_row prefix is_last ic key value))
    | TreeCompositeNode key ic children level =>
        result <-
          tree_children_loop (display inner) (len children)
            (prefix ++ tree_child_prefix level is_last) children 0
            (tree_header level prefix is_last ic key) ;;
        Ret (Some (rstrip result))
    | RectangleLeafNode key value ic row_length _ =>
        let row := leaf_row prefix is_last ic key value in
        if len row <? row_length then Ret (Some (pad row row_length))
        else Ret None
    | RectangleCompositeNode key ic children level row_length =>
        result <-
          rect_children_loop (display inner) (len children)
            (prefix ++ rect_child_prefix level) children 0
            (rect_header level prefix ic key row_length) ;;
        result <-
          (if level =? 0 then stitch ic row_length result else Ret result) ;;
        Ret (Some (rstrip result))
    end).

(** [builder.build(json_data)] then [root.display()], both called from
    [main] with [frames] frames left. *)
Definition render (frames : nat) (f : factory) (icon_family : icons)
    (json_data : json) : res (option str) :=
  root <- build frames f icon_family json_data None ;;
  display frames root [] true.

(** How [main] ends when [print] can fail: it returns after printing, or
    one of the two table lookups raises [KeyError], or [build] or [display]
    raises, or [print] raises; [E] is whatever [print] can raise. *)
Inductive ending (E : Type) :=
| Prints (text : str)
| RaisesKeyError (key : str)
| Raises (e : exn)
| PrintRaises (e : E).
Arguments Prints {E} text.
Arguments RaisesKeyError {E} key.
Arguments Raises {E} e.
Arguments PrintRaises {E} e.

(** Lines 214-230, with [frames] frames left for the calls [main] makes.
    [write] stands for [print] on the standard output of the run, given
    [str] of its argument and the line break: it returns nothing when the
    text is written and the exception otherwise (for one, a text the
    encoding of the output cannot encode). *)
Definition main {E} (frames : nat) (write : str -> option E)
    (style icon : str) (json_data : json) : ending E :=
  match dict_get icon_themes icon with
  | None => RaisesKeyError icon
  | Some icon_family =>
      match dict_get styles style with
      | None => RaisesKeyError style
      | Some factory =>
          match build frames factory icon_family json_data None with
          | Raise e => Raises e
          | Ret root =>
              match display frames root [] true with
              | Raise e => Raises e
              | Ret x =>
                  match write (str_opt x ++ [NL]) with
                  | Some e => PrintRaises e
                  | None => Prints (str_opt x ++ [NL])
                  end
              end
          end
      end
  end.

End Limit.

(** A list nested [n] deep around a null: [[...[null]...]]. *)
Definition nest (n : nat) : json :=
  Nat.iter n (fun j => JList [j]) (JAtom PNone).

(** The positions of the nodes below a node, in the order [display] visits
    them: each as the list of child indices that leads to it. *)
Section Paths.
Variable paths : Node -> list (list nat).

Fixpoint paths_loop (cs : list Node) (i : nat) : list (list nat) :=
  match cs with
  | [] => []
  | child :: rest =>
      ([i] :: map (cons i) (paths child)) ++ paths_loop rest (S i)
  end.
End Paths.

Fixpoint paths_below (n : Node) : list (list nat) :=
  match n with
  | TreeCompositeNode _ _ cs _ => paths_loop paths_below cs 0
  | RectangleCompositeNode _ _ cs _ _ => paths_loop paths_below cs 0
  | _ => []
  end.

(** What [build] does with [frames] frames left, on the value [j]: the
    recursion takes one frame for each level of nesting, and the creation
    of the innermost node two more. *)
Definition within_limit (f : factory) (ic : icons) (j : json) : Prop :=
  forall frames key,
    Limit.build frames f ic j key
    = if (depth j + 2 <=? frames)%nat then build f ic j key
      else Raise RecursionError.


(** What [print] raises on a standard output whose encoding is UTF-8 with
    strict errors: the code points U+D800 to U+DFFF, which a parsed string
    can hold, have no encoding. *)
Inductive write_error := UnicodeEncodeError.

Definition surrogate (c : char) : bool := ((0xD800 <=? c) && (c <=? 0xDFFF))%N.

Definition utf8_write (s : str) : option write_error :=
  if existsb surrogate s then Some UnicodeEncodeError else None.
(** * Properties *)

(** ** Induction over nested values *)

Section NodeInduction.
Variable P : Node -> Prop.
Hypothesis leaf_case : forall n, is_composite n = false -> P n.
Hypothesis composite_case :
  forall n, is_composite n = true -> Forall P (children n) -> P n.

Lemma Node_nested_ind : forall n, P n.
Proof.
  fix IH 1. intros n.
  destruct n as [k v ic l|k ic cs l|k v ic w l|k ic cs l w].
  - now apply leaf_case.
  - apply composite_case; [reflexivity|]. simpl.
    induction cs as [|c cs IHcs]; constructor; [apply IH | exact IHcs].
  - now apply leaf_case.
  - apply composite_case; [reflexivity|]. simpl.
    induction cs as [|c cs IHcs]; constructor; [apply IH | exact IHcs].
Qed.
End NodeInduction.

Section JsonInduction.
Variable P : json -> Prop.
Hypothesis dict_case :
  forall items, Forall (fun kv => P kv.2) items -> P (JDict items).
Hypothesis list_case : forall elems, Forall P elems -> P (JList elems).
Hypothesis atom_case : forall v, P (JAtom v).

Lemma json_nested_ind : forall j, P j.
Proof.
  fix IH 1. intros [items|elems|v].
  - apply dict_case.
    induction items as [|[k v] items IHitems]; constructor;
      [apply IH | exact IHitems].
  - apply list_case.
    induction elems as [|v elems IHelems]; constructor;
      [apply IH | exact IHelems].
  - apply atom_case.
Qed.
End JsonInduction.

Lemma Node_children_ind (P : Node -> Prop) :
  (forall n, Forall P (children n) -> P n) -> forall n, P n.
Proof.
  intros H. apply Node_nested_ind; intros n Hn; [|now apply H].
  apply H. destruct n; try discriminate; constructor.
Qed.

(** ** The builder *)

Lemma set_level_children n l : children (set_level n l) = children n.
Proof. now destruct n. Qed.

Lemma get_set_level n l : get_level (set_level n l) = Some l.
Proof. now destruct n. Qed.

Lemma height_set_level n l : height (set_level n l) = height n.
Proof. now destruct n. Qed.

Lemma built_set_level f ic n l : built f ic n -> built f ic (set_level n l).
Proof.
  intros [n' Hf Hic Hcs]. constructor.
  - destruct f, n'; simpl in *; congruence.
  - now destruct n'.
  - now rewrite set_level_children.
Qed.

Lemma add_under_construction f ic m node child j :
  under_construction f ic m node ->
  build_post f ic j child ->
  (depth j <= m)%nat ->
  exists node', add node child = Ret node' /\ under_construction f ic m node'.
Proof.
  intros [Hb Hc Hl Hh] [Cb _ _ Ch] Hm.
  destruct node as [|k ic' cs l|?|k ic' cs l w]; try discriminate;
    injection Hl as ->; simpl; eexists; (split; [reflexivity|]);
    inversion Hb as [n' Hf Hic Hcs]; subst n'; simpl in *.
  all: split; simpl; try reflexivity.
  1,3: constructor; simpl; [assumption..|];
       apply Forall_app; split; [assumption|];
       constructor; [|constructor];
       split; [now apply built_set_level | apply get_set_level].
  all: rewrite map_app, list_max_app; simpl; rewrite height_set_level; lia.
Qed.

Section BuildCorrect.
Variables (f : factory) (ic : icons).

Lemma create_composite_under_construction key m :
  under_construction f ic m (create_composite_node f key ic).
Proof.
  destruct f; split; simpl; try reflexivity; try lia;
    constructor; simpl; auto.
Qed.

Lemma items_loop_ok m items :
  Forall (fun kv : str * json => forall key,
    exists n, build f ic kv.2 key = Ret n /\ build_post f ic kv.2 n) items ->
  Forall (fun kv : str * json => (depth kv.2 <= m)%nat) items ->
  forall node, under_construction f ic m node ->
  exists node', items_loop (build f ic) items node = Ret node'
                /\ under_construction f ic m node'.
Proof.
  induction 1 as [|[k v] items Hv _ IH]; intros Hd node Hnode; simpl.
  - eauto.
  - inversion Hd as [|? ? Hdv Hd']; subst.
    destruct (Hv (Some k)) as (c & Hbc & Hc); simpl in Hbc, Hc, Hdv.
    rewrite Hbc; simpl.
    destruct (add_under_construction _ _ _ _ _ _ Hnode Hc Hdv)
      as (node' & -> & Hnode'); simpl.
    now apply IH.
Qed.

Lemma enum_loop_ok m key elems :
  Forall (fun v => forall key,
    exists n, build f ic v key = Ret n /\ build_post f ic v n) elems ->
  Forall (fun v => (depth v <= m)%nat) elems ->
  forall i node, under_construction f ic m node ->
  exists node', enum_loop (build f ic) key elems i node = Ret node'
                /\ under_construction f ic m node'.
Proof.
  induction 1 as [|v elems Hv _ IH]; intros Hd i node Hnode; simpl.
  - eauto.
  - inversion Hd as [|? ? Hdv Hd']; subst.
    destruct (Hv (Some (index_key key i))) as (c & -> & Hc); simpl.
    destruct (add_under_construction _ _ _ _ _ _ Hnode Hc Hdv)
      as (node' & -> & Hnode'); simpl.
    now apply IH.
Qed.

Lemma list_max_bound (l : list nat) :
  Forall (fun x => (x <= list_max l)%nat) l.
Proof. now apply list_max_le. Qed.

Lemma build_ok j :
  forall key, exists n, build f ic j key = Ret n /\ build_post f ic j n.
Proof.
  induction j as [items IH|elems IH|v] using json_nested_ind; intros key.
  - destruct (items_loop_ok (list_max (map (fun kv => depth kv.2) items))
                items IH) with (node := create_composite_node f key ic)
      as (n & Hn & [Hb Hc Hl Hh]).
    + pose proof (list_max_bound (map (fun kv => depth kv.2) items)) as H.
      now rewrite Forall_map in H.
    + apply create_composite_under_construction.
    + exists n. split; [exact Hn|]. now split.
  - destruct (enum_loop_ok (list_max (map depth elems)) key
                elems IH) with (node := create_composite_node f key ic) (i := 0)
      as (n & Hn & [Hb Hc Hl Hh]).
    + pose proof (list_max_bound (map depth elems)) as H.
      now rewrite Forall_map in H.
    + apply create_composite_under_construction.
    + exists n. split; [exact Hn|]. now split.
  - eexists. split; [reflexivity|].
    destruct f; split; simpl; try reflexivity; try lia;
      constructor; simpl; auto.
Qed.
End BuildCorrect.

(** ** Text *)

Lemma rstrip_nonspace (a : str) (c : char) (b : str) :
  isspace c = false -> rstrip (a ++ c :: b) = a ++ c :: rstrip b.
Proof.
  intros Hc. induction a as [|x a IH]; simpl.
  - rewrite Hc. now destruct (rstrip b).
  - rewrite IH. now destruct a.
Qed.

Lemma len_app {A} (a b : list A) : len (a ++ b) = len a + len b.
Proof. unfold len. rewrite length_app. lia. Qed.

Lemma len_nonneg {A} (a : list A) : 0 <= len a.
Proof. unfold len. lia. Qed.

Lemma len_repeat_char c n : 0 <= n -> len (repeat_char c n) = n.
Proof. intros Hn. unfold len, repeat_char. rewrite length_replicate. lia. Qed.

(** ** The loops of [display] *)

(** When every child returns a text, the loop of the tree composite appends
    these texts to [result], each followed by a line break. *)
Lemma tree_children_loop_texts disp n cp cs :
  forall i result outs,
  Forall2 (fun '(c, k) out => disp c cp (k =? n - 1) = Ret (Some out))
    (zip cs (seqZ i (len cs))) outs ->
  tree_children_loop disp n cp cs i result
  = Ret (result ++ concat (map (fun o => o ++ [NL]) outs)).
Proof.
  induction cs as [|c cs IH]; intros i result outs H.
  - inversion H; subst. simpl. now rewrite app_nil_r.
  - unfold len in H. simpl length in H.
    rewrite Nat2Z.inj_succ, seqZ_cons in H by lia.
    inversion H as [|? out ? outs' Hc Hcs]; subst. simpl.
    rewrite Hc. simpl. rewrite (IH (i + 1) _ outs').
    + now rewrite <- !app_assoc.
    + replace (Z.succ i) with (i + 1) in Hcs by lia.
      now replace (Z.pred (Z.succ (Z.of_nat (length cs)))) with (len cs) in Hcs
        by (unfold len; lia).
Qed.

(** The loop of the rectangle composite never fails on children that return:
    an absent text is written as the word None. *)
Lemma rect_children_loop_texts disp n cp cs :
  forall i result xs,
  Forall2 (fun '(c, k) x => disp c cp (k =? n - 1) = Ret x)
    (zip cs (seqZ i (len cs))) xs ->
  rect_children_loop disp n cp cs i result
  = Ret (result ++ concat (map (fun x => str_opt x ++ [NL]) xs)).
Proof.
  induction cs as [|c cs IH]; intros i result xs H.
  - inversion H; subst. simpl. now rewrite app_nil_r.
  - unfold len in H. simpl length in H.
    rewrite Nat2Z.inj_succ, seqZ_cons in H by lia.
    inversion H as [|? x ? xs' Hc Hcs]; subst. simpl.
    rewrite Hc. simpl. rewrite (IH (i + 1) _ xs').
    + now rewrite <- !app_assoc.
    + replace (Z.succ i) with (i + 1) in Hcs by lia.
      now replace (Z.pred (Z.succ (Z.of_nat (length cs)))) with (len cs) in Hcs
        by (unfold len; lia).
Qed.

(** Children that return whatever their arguments give the lists of results
    the two lemmas above ask for. *)
Lemma results_exist {A B} (inj : B -> A) (disp : Node -> str -> bool -> res A)
    (Q : Node -> bool -> B -> Prop) n cp cs :
  Forall (fun c => forall b, exists x, disp c cp b = Ret (inj x) /\ Q c b x)
    cs ->
  forall i, exists xs,
    Forall2 (fun '(c, k) x => disp c cp (k =? n - 1) = Ret (inj x)
                              /\ Q c (k =? n - 1) x)
      (zip cs (seqZ i (len cs))) xs.
Proof.
  induction 1 as [|c cs Hc _ IH]; intros i.
  - exists []. constructor.
  - unfold len. simpl length. rewrite Nat2Z.inj_succ, seqZ_cons by lia.
    destruct (Hc (i =? n - 1)) as (x & Hx).
    destruct (IH (Z.succ i)) as (xs & Hxs).
    exists (x :: xs). simpl. constructor; [exact Hx|].
    now replace (Z.pred (Z.succ (Z.of_nat (length cs)))) with (len cs)
      by (unfold len; lia).
Qed.

(** ** The tree renderer *)

Lemma connector_nonspace b :
  exists c, connector b = [c; HORIZ] /\ isspace HORIZ = false.
Proof. destruct b; eexists; split; reflexivity. Qed.

Lemma rstrip_keeps_connector p b rest :
  exists rest', rstrip (p ++ connector b ++ rest) = p ++ connector b ++ rest'.
Proof.
  destruct (connector_nonspace b) as (c & -> & Hh).
  exists (rstrip rest).
  change (p ++ [c; HORIZ] ++ rest) with (p ++ [c] ++ HORIZ :: rest).
  rewrite app_assoc, rstrip_nonspace by exact Hh.
  now rewrite <- app_assoc.
Qed.

Lemma built_tree_inv ic n :
  built TreeNodeFactory ic n ->
  (exists k v l, n = TreeLeafNode k v ic l)
  \/ (exists k cs l, n = TreeCompositeNode k ic cs l
        /\ Forall (fun c => built TreeNodeFactory ic c
                            /\ get_level c = Some 1) cs).
Proof.
  intros [n' Hf Hic Hcs]. destruct n'; simpl in *; try discriminate; subst.
  - left. eauto.
  - right. eauto 6.
Qed.

(** In a tree of the tree family every [display] returns a text, and the
    text of a node that is not at level 0 begins with the prefix it was
    given followed by the connector its [is_last] selects. *)
Lemma tree_display_ok ic n :
  built TreeNodeFactory ic n ->
  forall p b, exists out,
    display n p b = Ret (Some out)
    /\ (get_level n <> Some 0 -> exists rest, out = p ++ connector b ++ rest).
Proof.
  induction n as [n Hn|n Hn IH] using Node_nested_ind; intros Hb p b;
    destruct (built_tree_inv _ _ Hb) as [(k & v & l & ->)|(k & cs & l & -> & Hcs)];
    try discriminate.
  - simpl. eexists. split; [reflexivity|]. intros _.
    unfold leaf_row. destruct (is_None v); eauto.
  - simpl in IH.
    assert (Hall : Forall (fun c => forall b', exists x,
              display c (p ++ tree_child_prefix l b) b' = Ret (Some x)
              /\ True) cs).
    { rewrite Forall_forall in IH, Hcs. apply Forall_forall. intros c Hc b'.
      destruct (IH c Hc (proj1 (Hcs c Hc)) (p ++ tree_child_prefix l b) b')
        as (x & Hx & _). eauto. }
    destruct (results_exist Some display (fun _ _ _ => True) (len cs) _ _
                Hall 0) as (outs & Houts).
    simpl. erewrite tree_children_loop_texts.
    2:{ eapply Forall2_impl; [exact Houts|]. now intros [c i] x [H _]. }
    simpl. eexists. split; [reflexivity|]. intros Hl.
    unfold tree_header. destruct (Z.eqb_spec l 0) as [->|_]; [now destruct Hl|].
    rewrite <- !app_assoc. apply rstrip_keeps_connector.
Qed.

(** The text of a tree composite is its header, then the texts of its
    children in order, each followed by a line break, the whole trimmed on
    the right; the child at position [i] is displayed with the prefix
    extended by line 49 and with [is_last] true at the last position only. *)
Lemma tree_composite_text k ic cs l p b outs :
  Forall2 (fun '(c, i) out =>
             display c (p ++ tree_child_prefix l b) (i =? len cs - 1)
             = Ret (Some out))
    (zip cs (seqZ 0 (len cs))) outs ->
  display (TreeCompositeNode k ic cs l) p b
  = Ret (Some (rstrip (tree_header l p b ic k
                       ++ concat (map (fun o => o ++ [NL]) outs)))).
Proof.
  intros H. simpl. now erewrite tree_children_loop_texts by exact H.
Qed.

(** ** Positions in a tree *)

Lemma child_call_Some n p b i c :
  children n !! i = Some c ->
  child_call n p b i
  = Some (c, p ++ child_prefix_of n b, Z.of_nat i =? len (children n) - 1).
Proof. unfold child_call. now intros ->. Qed.

Lemma call_at_snoc path i :
  forall root p b,
  call_at root p b (path ++ [i])
  = match call_at root p b path with
    | Some (n, p', b') => child_call n p' b' i
    | None => None
    end.
Proof.
  induction path as [|j path IH]; intros root p b; simpl.
  - now destruct (child_call root p b i) as [[[c p'] b']|].
  - destruct (child_call root p b j) as [[[c p'] b']|]; [apply IH|reflexivity].
Qed.

Lemma built_child f ic n i c :
  built f ic n -> children n !! i = Some c ->
  built f ic c /\ get_level c = Some 1.
Proof.
  intros [n' _ _ Hcs] Hi. rewrite Forall_forall in Hcs. apply Hcs.
  apply list_elem_of_lookup. eauto.
Qed.

Lemma call_at_built f ic path :
  forall root p b n p' b',
  built f ic root ->
  call_at root p b path = Some (n, p', b') ->
  built f ic n /\ (path <> [] -> get_level n = Some 1).
Proof.
  induction path as [|i path IH]; intros root p b n p' b' Hroot H; simpl in H.
  - injection H as <- <- <-. now split.
  - unfold child_call in H.
    destruct (children root !! i) as [c|] eqn:Hc; [|discriminate].
    destruct (built_child _ _ _ _ _ Hroot Hc) as [Hbc Hlc].
    destruct (IH _ _ _ _ _ _ Hbc H) as [Hn Hl]. split; [exact Hn|].
    intros _. destruct path as [|i' path']; [|now apply Hl].
    simpl in H. now injection H as <- <- <-.
Qed.

(** ** Claims on the builder *)

(** C6, as the code has it: the node [build] returns is a composite exactly
    when the value is an object or an array; for a scalar or null it is a
    leaf. *)
Theorem build_composite_iff_container (f : factory) (ic : icons) (j : json)
    (key : option str) :
  exists n, build f ic j key = Ret n /\ is_composite n = is_container j.
Proof. destruct (build_ok f ic j key) as (n & Hn & []). eauto. Qed.

(** C6 fails on a scalar: the top-level call on the number 1 returns a
    leaf, with either factory. *)
Lemma build_scalar_is_leaf :
  (exists n, build TreeNodeFactory default_icons (JAtom (PInt 1)) None = Ret n
             /\ is_composite n = false)
  /\ (exists n, build RectangleNodeFactory default_icons (JAtom (PInt 1)) None
                = Ret n /\ is_composite n = false).
Proof. split; eexists; split; reflexivity. Qed.

(** C1 on the value {"a": {"b": 1}}: the node of "b" is a child of the node
    of "a", and both carry level 1, so the child's level is not its
    parent's plus one. *)
Theorem level_is_not_depth :
  let j := JDict [(lit "a", JDict [(lit "b", JAtom (PInt 1))])] in
  exists root parent child,
    build TreeNodeFactory default_icons j None = Ret root
    /\ In (parent, child) (edges root)
    /\ get_level parent = Some 1
    /\ get_level child = Some 1
    /\ get_level child <> (fun l => l + 1) <$> get_level parent.
Proof.
  simpl. eexists _, _, _. split; [reflexivity|].
  split; [simpl; right; left; reflexivity|].
  repeat split; vm_compute; congruence.
Qed.

(** ** Scenarios of the specification *)

(** {"x": null} in tree style with the default icons: the single line └─ x,
    with no value after the key. *)
Example scenario_null_value :
  render TreeNodeFactory default_icons (JDict [(lit "x", JAtom PNone)])
  = Ret (Some ([UP_RIGHT; HORIZ] ++ lit " x")).
Proof. reflexivity. Qed.

(** {"a": 1, "b": [2, 3]} in tree style with the default icons: the leaf a,
    the header of b, and the two elements of b under it. *)
Example scenario_round_trip :
  render TreeNodeFactory default_icons
    (JDict [(lit "a", JAtom (PInt 1));
            (lit "b", JList [JAtom (PInt 2); JAtom (PInt 3)])])
  = Ret (Some ([VERT_RIGHT; HORIZ] ++ lit " a: 1" ++ [NL]
               ++ [UP_RIGHT; HORIZ] ++ lit " b" ++ [NL]
               ++ lit "   " ++ [VERT_RIGHT; HORIZ] ++ lit " b[0]: 2" ++ [NL]
               ++ lit "   " ++ [UP_RIGHT; HORIZ] ++ lit " b[1]: 3")).
Proof. reflexivity. Qed.

(** A label shorter than 60 columns in rectangle style: the right border
    stands at column 60, here ┐ on the first line and ┘ on the last. *)
Example scenario_right_border :
  exists out l1 l2,
    render RectangleNodeFactory default_icons
      (JDict [(lit "a", JAtom (PInt 1)); (lit "b", JAtom (PInt 2))])
    = Ret (Some out)
    /\ split_lines out = [l1; l2]
    /\ l1 !! 60%nat = Some DOWN_LEFT /\ l2 !! 60%nat = Some UP_LEFT
    /\ l1 !! 0%nat = Some DOWN_RIGHT /\ l2 !! 0%nat = Some UP_RIGHT.
Proof. eexists _, _, _. repeat split; vm_compute; reflexivity. Qed.

(** ** Claims on the rectangle renderer *)

(** C5 on the code: for the empty array (and the empty object) at the root,
    the tree style returns the empty text, and the rectangle style raises
    [IndexError] at line 140, the first assignment into the empty list of
    characters; so does any rectangle composite at level 0 without
    children, whatever its width. *)
Theorem empty_root_renders (ic : icons) :
  render TreeNodeFactory ic (JList []) = Ret (Some [])
  /\ render TreeNodeFactory ic (JDict []) = Ret (Some [])
  /\ render RectangleNodeFactory ic (JList []) = Raise IndexError
  /\ render RectangleNodeFactory ic (JDict []) = Raise IndexError
  /\ forall k w p b,
       display (RectangleCompositeNode k ic [] 0 w) p b = Raise IndexError.
Proof. repeat split. Qed.

(** A rectangle leaf whose row does not fit returns no text, and raises
    nothing. *)
Lemma rect_leaf_unfit k v ic w l p b :
  w <= len (leaf_row p b ic k v) ->
  display (RectangleLeafNode k v ic w l) p b = Ret None.
Proof.
  intros H. cbn [display].
  now destruct (Z.ltb_spec (len (leaf_row p b ic k v)) w); [lia|].
Qed.

(** C2 on the code: on {"a": 1, "k": sixty x, "b": 2} the leaf of "k",
    whose row has 66 characters, returns no text and raises nothing; the
    rectangle rendering of the whole value returns normally, and its second
    line is the word None. *)
Theorem unfit_row_is_silent :
  display (RectangleLeafNode (Some (lit "k")) (PStr (repeat_char 120%N 60))
             default_icons 60 (Some 1)) [] false
  = Ret None
  /\ len (leaf_row [] false default_icons (Some (lit "k"))
            (PStr (repeat_char 120%N 60))) = 66
  /\ exists out first last,
       render RectangleNodeFactory default_icons unfit_example = Ret (Some out)
       /\ split_lines out = [first; lit "None"; last].
Proof.
  split; [reflexivity|]. split; [reflexivity|].
  eexists _, _, _. split; vm_compute; reflexivity.
Qed.

Lemma len_pad row w : len row < w -> len (pad row w) = w + 1.
Proof.
  intros H. unfold pad. rewrite !len_app, len_repeat_char by lia.
  change (len [HORIZ; VERT_LEFT]) with 2. lia.
Qed.

Lemma pad_last row w :
  len row < w -> pad row w !! Z.to_nat w = Some VERT_LEFT.
Proof.
  intros H. unfold pad.
  pose proof (len_nonneg row) as Hr. unfold len in *.
  rewrite lookup_app_r by lia.
  rewrite lookup_app_r; unfold repeat_char; rewrite length_replicate; [|lia].
  replace (Z.to_nat w - length row - Z.to_nat (w - Z.of_nat (length row) - 1))%nat
    with 1%nat by lia.
  reflexivity.
Qed.

Lemma rect_children_loop_extends disp n cp cs :
  forall i result r,
  rect_children_loop disp n cp cs i result = Ret r ->
  exists body, r = result ++ body.
Proof.
  induction cs as [|c cs IH]; intros i result r H; simpl in H.
  - injection H as <-. exists []. now rewrite app_nil_r.
  - destruct (disp c cp (i =? n - 1)) as [x|e]; [|discriminate]. simpl in H.
    destruct (IH _ _ _ H) as (body & ->).
    eexists. now rewrite <- !app_assoc.
Qed.

Lemma rect_composite_unfold k ic cs l w p b :
  display (RectangleCompositeNode k ic cs l w) p b
  = (result <-
       rect_children_loop display (len cs) (p ++ rect_child_prefix l) cs 0
         (rect_header l p ic k w) ;;
     result <- (if l =? 0 then stitch ic w result else Ret result) ;;
     Ret (Some (rstrip result))).
Proof. reflexivity. Qed.

Lemma rect_header_nonroot l p ic k w :
  l <> 0 -> rect_header l p ic k w = pad (composite_row p ic k) w ++ [NL].
Proof.
  intros Hl. unfold rect_header. now destruct (Z.eqb_spec l 0).
Qed.

Lemma pad_fill row w :
  exists fill,
    pad row w = row ++ fill ++ [VERT_LEFT] /\ Forall (fun c => c = HORIZ) fill.
Proof.
  exists (repeat_char HORIZ (w - len row - 1) ++ [HORIZ]). split.
  - unfold pad. now rewrite <- !app_assoc.
  - apply Forall_app. split; [|now repeat constructor].
    unfold repeat_char. now apply Forall_replicate.
Qed.

Lemma rstrip_pad row w body :
  rstrip (pad row w ++ body) = pad row w ++ rstrip body.
Proof.
  destruct (pad_fill row w) as (fill & -> & _).
  rewrite !app_assoc, <- (app_assoc _ [VERT_LEFT] body). simpl.
  rewrite rstrip_nonspace by reflexivity.
  now rewrite <- !app_assoc.
Qed.

(** ** The scan along the last line *)







(** ** The level attribute *)

Lemma descendants_children n :
  descendants n = flat_map (fun c => c :: descendants c) (children n).
Proof. now destruct n. Qed.

Lemma built_descendants f ic n :
  built f ic n ->
  Forall (fun d => built f ic d /\ get_level d = Some 1) (descendants n).
Proof.
  induction n as [n Hn|n Hn IH] using Node_nested_ind; intros Hb;
    rewrite descendants_children.
  - destruct n; try discriminate; constructor.
  - destruct Hb as [n _ _ Hcs]. apply Forall_forall. intros d Hd.
    apply list_elem_of_In, in_flat_map in Hd as (c & Hc & Hd).
    apply list_elem_of_In in Hc.
    rewrite Forall_forall in IH, Hcs. destruct (Hcs c Hc) as [Hbc Hlc].
    destruct Hd as [<-|Hd]; [now split|].
    specialize (IH c Hc Hbc). rewrite Forall_forall in IH.
    apply IH. now apply list_elem_of_In.
Qed.

Section MapLevels.
Variable g : Z -> Z.
Hypothesis g_zero : forall z, (g z =? 0) = (z =? 0).

Lemma tree_children_loop_map_levels n cp cs :
  Forall (fun c => forall p b,
            display (map_levels g c) p b = display c p b) cs ->
  forall i result,
  tree_children_loop display n cp (map (map_levels g) cs) i result
  = tree_children_loop display n cp cs i result.
Proof.
  induction 1 as [|c cs Hc _ IH]; intros i result; [reflexivity|].
  cbn [map tree_children_loop]. rewrite Hc.
  destruct (display c cp (i =? n - 1)) as [x|e]; [|reflexivity].
  cbn [bind]. destruct (concat_opt x [NL]); [|reflexivity].
  cbn [bind]. apply IH.
Qed.

Lemma rect_children_loop_map_levels n cp cs :
  Forall (fun c => forall p b,
            display (map_levels g c) p b = display c p b) cs ->
  forall i result,
  rect_children_loop display n cp (map (map_levels g) cs) i result
  = rect_children_loop display n cp cs i result.
Proof.
  induction 1 as [|c cs Hc _ IH]; intros i result; [reflexivity|].
  cbn [map rect_children_loop]. rewrite Hc.
  destruct (display c cp (i =? n - 1)) as [x|e]; [|reflexivity].
  cbn [bind]. apply IH.
Qed.

(** [display] reads a level only to compare it with 0. *)
Lemma display_map_levels n :
  forall p b, display (map_levels g n) p b = display n p b.
Proof.
  induction n as [n Hn|n Hn IH] using Node_nested_ind; intros p b.
  - destruct n; try discriminate; reflexivity.
  - destruct n as [|k ic cs l| |k ic cs l w]; try discriminate;
      cbn [children] in IH; cbn [map_levels display];
      unfold len, tree_header, tree_child_prefix, rect_header,
        rect_child_prefix;
      rewrite length_map, g_zero.
    + now rewrite tree_children_loop_map_levels.
    + now rewrite rect_children_loop_map_levels.
Qed.
End MapLevels.

Lemma built_rect_inv ic n :
  built RectangleNodeFactory ic n ->
  (exists k v l, n = RectangleLeafNode k v ic 60 l)
  \/ (exists k cs l, n = RectangleCompositeNode k ic cs l 60
        /\ Forall (fun c => built RectangleNodeFactory ic c
                            /\ get_level c = Some 1) cs).
Proof.
  intros [n' Hf Hic Hcs]. destruct n'; simpl in *; try discriminate; subst;
    apply bool_decide_eq_true in Hf; subst.
  - left. eauto.
  - right. eauto 6.
Qed.

(** In a tree of the rectangle family, [display] raises nothing on a node
    that is not at level 0, and the text of a composite begins with its
    prefix and ├─. *)
Lemma rect_display_ok ic n :
  built RectangleNodeFactory ic n ->
  get_level n <> Some 0 ->
  forall p b, exists x,
    display n p b = Ret x
    /\ (is_composite n = true ->
        exists rest, x = Some (p ++ [VERT_RIGHT; HORIZ] ++ rest)).
Proof.
  induction n as [n Hn|n Hn IH] using Node_nested_ind; intros Hb Hl p b;
    destruct (built_rect_inv _ _ Hb) as [(k & v & l & ->)|(k & cs & l & -> & Hcs)];
    try discriminate.
  - cbn [display]. destruct (_ <? _); eexists; (split; [reflexivity|easy]).
  - cbn [children get_level] in *.
    assert (Hall : Forall (fun c => forall b', exists x,
              display c (p ++ rect_child_prefix l) b' = Ret (id x)
              /\ True) cs).
    { rewrite Forall_forall in IH, Hcs. apply Forall_forall. intros c Hc b'.
      destruct (Hcs c Hc) as [Hbc Hlc].
      destruct (IH c Hc Hbc) with (p := p ++ rect_child_prefix l) (b := b')
        as (x & Hx & _); [congruence|]. eauto. }
    destruct (results_exist id display (fun _ _ _ => True) (len cs) _ _
                Hall 0) as (xs & Hxs).
    rewrite rect_composite_unfold. erewrite rect_children_loop_texts.
    2:{ eapply Forall2_impl; [exact Hxs|]. now intros [c i] x [H _]. }
    assert (Hl0 : l <> 0) by congruence.
    destruct (Z.eqb_spec l 0) as [|_]; [easy|]. cbn [bind].
    eexists. split; [reflexivity|]. intros _.
    rewrite rect_header_nonroot by exact Hl0.
    rewrite <- !app_assoc, rstrip_pad. unfold pad, composite_row.
    rewrite <- !app_assoc. eauto.
Qed.

(** C10, as the code has it. For an object or an array the root that [build]
    returns has level 0 (for a scalar or null the root is a leaf, which has
    no level); every other node has level 1, whatever its distance from the
    root. [display] reads levels only to compare them with 0: changing the
    levels of any tree by a map that keeps 0 apart from the other values
    changes no output. So every composite below the root renders its header
    line: its text begins with its prefix and its connector. *)
Theorem levels_are_zero_then_one (f : factory) (ic : icons) (j : json) :
  exists root,
    build f ic j None = Ret root
    /\ get_level root = (if is_container j then Some 0 else None)
    /\ Forall (fun d => get_level d = Some 1) (descendants root)
    /\ (forall g, (forall z, (g z =? 0) = (z =? 0)) ->
        forall n p b, display (map_levels g n) p b = display n p b)
    /\ Forall (fun d => is_composite d = true ->
                 forall p b, exists rest,
                   display d p b = Ret (Some (header_start d p b ++ rest)))
         (descendants root).
Proof.
  destruct (build_ok f ic j None) as (root & Hroot & [Hb _ Hl _]).
  exists root. split; [exact Hroot|]. split; [exact Hl|].
  pose proof (built_descendants _ _ _ Hb) as Hd.
  split; [eapply Forall_impl; [exact Hd|]; now intros d [_ H]|].
  split; [intros g Hg n p b; now apply display_map_levels|].
  eapply Forall_impl; [exact Hd|]. intros d [Hbd Hld] Hc p b.
  destruct f.
  - destruct (tree_display_ok ic d Hbd p b) as (out & Hout & Hrest).
    destruct Hrest as (rest & ->); [congruence|].
    exists rest. rewrite Hout.
    destruct (built_tree_inv _ _ Hbd)
      as [(k & v & l & ->)|(k & cs & l & -> & _)]; [discriminate|].
    unfold header_start. now rewrite <- app_assoc.
  - destruct (rect_display_ok ic d Hbd) with (p := p) (b := b)
      as (x & Hx & Hrest); [congruence|].
    destruct (Hrest Hc) as (rest & ->). exists rest. rewrite Hx.
    destruct (built_rect_inv _ _ Hbd)
      as [(k & v & l & ->)|(k & cs & l & -> & _)]; [discriminate|].
    unfold header_start. now rewrite <- app_assoc.
Qed.

(** A run of this theorem on {"a": {"b": 1}}: doubling every
    level of the tree leaves the output as it is. *)
Lemma levels_are_zero_then_one_witness :
  let j := JDict [(lit "a", JDict [(lit "b", JAtom (PInt 1))])] in
  exists root,
    build RectangleNodeFactory default_icons j None = Ret root
    /\ map get_level (descendants root) = [Some 1; Some 1]
    /\ map get_level (descendants (map_levels (fun z => 2 * z) root))
       = [Some 2; Some 2]
    /\ display (map_levels (fun z => 2 * z) root) [] true
       = display root [] true.
Proof.
  intros j.
  destruct (levels_are_zero_then_one RectangleNodeFactory default_icons j)
    as (root & Hroot & _ & _ & H & _).
  exists root. split; [exact Hroot|].
  vm_compute in Hroot. injection Hroot as <-.
  split; [reflexivity|]. split; [reflexivity|].
  apply H. intros z. destruct (Z.eqb_spec z 0), (Z.eqb_spec (2 * z) 0); lia.
Defined.

(** C10 as stated fails on a scalar: the root built for the number 5 is a
    leaf, and a leaf has no level until a parent stamps it. *)
Lemma scalar_root_has_no_level :
  exists root,
    build TreeNodeFactory default_icons (JAtom (PInt 5)) None = Ret root
    /\ is_composite root = false
    /\ get_level root = None
    /\ get_level root <> Some 0.
Proof. eexists. repeat split. discriminate. Qed.

(** ** The lines of a rectangle *)

Lemma split_lines_nonempty s : split_lines s <> [].
Proof.
  destruct s as [|c r]; simpl; [discriminate|].
  destruct (c =? NL)%N; [discriminate|]. now destruct (split_lines r).
Qed.

Lemma split_lines_line l r :
  NL ∉ l -> split_lines (l ++ NL :: r) = l :: split_lines r.
Proof.
  induction l as [|c l IH]; intros Hl; simpl.
  - reflexivity.
  - apply not_elem_of_cons in Hl as [Hc Hl].
    destruct (N.eqb_spec c NL) as [->|_]; [easy|]. now rewrite IH.
Qed.

Lemma split_lines_unlines ls :
  Forall (fun l => NL ∉ l) ls -> split_lines (unlines ls) = ls ++ [[]].
Proof.
  induction 1 as [|l ls Hl _ IH]; [reflexivity|].
  unfold unlines in *. simpl. rewrite <- app_assoc. simpl.
  now rewrite split_lines_line, IH.
Qed.

Lemma split_lines_snoc_break t :
  split_lines (t ++ [NL]) = split_lines t ++ [[]].
Proof.
  induction t as [|c t IH]; simpl; [reflexivity|].
  destruct (c =? NL)%N; rewrite IH; [reflexivity|].
  pose proof (split_lines_nonempty t). now destruct (split_lines t).
Qed.

Lemma same_breaks_lines s t :
  same_breaks s t ->
  map length (split_lines s) = map length (split_lines t).
Proof.
  induction 1 as [|c d s t Hcd _ IH]; [reflexivity|]. simpl.
  destruct (N.eqb_spec c NL) as [Hc|Hc], (N.eqb_spec d NL) as [Hd|Hd];
    try (exfalso; tauto); simpl; [now rewrite IH|].
  pose proof (split_lines_nonempty s). pose proof (split_lines_nonempty t).
  destruct (split_lines s), (split_lines t); try easy.
  simpl in *. congruence.
Qed.

Lemma same_breaks_refl s : same_breaks s s.
Proof. unfold same_breaks. induction s; constructor; tauto. Qed.

Lemma same_breaks_trans s t u :
  same_breaks s t -> same_breaks t u -> same_breaks s u.
Proof.
  unfold same_breaks. intros H. revert u.
  induction H as [|c d s t Hcd _ IH]; intros u Hu; inversion Hu; subst;
    constructor; [tauto | auto].
Qed.

(** Writing a character that is no line break over one that is none keeps
    the line breaks where they are. *)
Lemma same_breaks_insert s k c x :
  s !! k = Some c -> c <> NL -> x <> NL -> same_breaks s (<[k:=x]> s).
Proof.
  revert k. induction s as [|d s IH]; intros [|k] Hk Hc Hx; try discriminate;
    simpl in *.
  - injection Hk as ->. constructor; [tauto | apply same_breaks_refl].
  - constructor; [tauto | now apply IH].
Qed.

Lemma same_breaks_lookup s t k :
  same_breaks s t -> s !! k = Some NL <-> t !! k = Some NL.
Proof.
  intros H. revert k. induction H as [|c d s t Hcd _ IH]; intros [|k]; simpl;
    try tauto; [|apply IH].
  split; intros [= ->]; f_equal; tauto.
Qed.

Lemma same_breaks_length s t : same_breaks s t -> length s = length t.
Proof. apply Forall2_length. Qed.

(** In a text made of lines of [m] characters, the line breaks stand at the
    positions [m], [2m + 1], ... *)
Lemma unlines_break ls m k :
  Forall (fun l => length l = m /\ (NL ∉ l)) ls ->
  unlines ls !! k = Some NL ->
  exists q, (k = q * S m + m)%nat.
Proof.
  intros H. revert k. induction H as [|l ls [Hlen Hl] _ IH]; intros k Hk;
    [discriminate|].
  unfold unlines in *. simpl in Hk. rewrite <- app_assoc in Hk.
  destruct (decide (k < m)%nat) as [Hlt|Hge].
  - rewrite lookup_app_l in Hk by lia.
    exfalso. apply Hl. apply list_elem_of_lookup. eauto.
  - rewrite lookup_app_r in Hk by lia. rewrite Hlen in Hk.
    destruct (k - m)%nat as [|k'] eqn:Hkm.
    + exists 0%nat. lia.
    + simpl in Hk. destruct (IH _ Hk) as (q & Hq). exists (S q). lia.
Qed.

Lemma length_unlines ls m :
  Forall (fun l => length l = m) ls ->
  length (unlines ls) = (length ls * S m)%nat.
Proof.
  induction 1 as [|l ls Hl _ IH]; [reflexivity|].
  unfold unlines in *. cbn [map concat].
  rewrite !length_app, IH, Hl. simpl. lia.
Qed.

Lemma unlines_app a b : unlines (a ++ b) = unlines a ++ unlines b.
Proof. unfold unlines. now rewrite map_app, concat_app. Qed.

Lemma unlines_concat lss : concat (map unlines lss) = unlines (concat lss).
Proof.
  induction lss as [|ls lss IH]; [reflexivity|].
  simpl. now rewrite unlines_app, IH.
Qed.

(** A block of lines that ends with a character that is no blank: trimmed
    on the right it only loses its last line break. *)
Lemma rstrip_unlines w c ls :
  isspace c = false ->
  ls <> [] ->
  Forall (framed_line w c) ls ->
  rstrip (unlines ls) ++ [NL] = unlines ls.
Proof.
  intros Hc Hne Hall.
  destruct (exists_last Hne) as (ls' & l & ->).
  apply Forall_app in Hall as [_ Hl].
  apply Forall_inv in Hl as (_ & _ & Hlast).
  apply last_Some in Hlast as (body & ->).
  rewrite unlines_app. unfold unlines at 2 4. simpl.
  rewrite app_nil_r, <- !app_assoc. simpl.
  rewrite !app_assoc, rstrip_nonspace by exact Hc.
  now rewrite <- !app_assoc.
Qed.

Lemma results_exist_indexed {A B} (inj : B -> A)
    (disp : Node -> list N -> bool -> res A) (Q : Node -> B -> Prop) n cp cs :
  forall i,
  (forall k c, cs !! k = Some c ->
     exists x, disp c cp (Z.of_nat (i + k) =? n - 1) = Ret (inj x) /\ Q c x) ->
  exists xs,
    Forall2 (fun '(c, z) x => disp c cp (z =? n - 1) = Ret (inj x) /\ Q c x)
      (zip cs (seqZ (Z.of_nat i) (len cs))) xs.
Proof.
  induction cs as [|c cs IH]; intros i H.
  - exists []. constructor.
  - unfold len. simpl length. rewrite Nat2Z.inj_succ, seqZ_cons by lia.
    destruct (H 0%nat c eq_refl) as (x & Hx). rewrite Nat.add_0_r in Hx.
    destruct (IH (S i)) as (xs & Hxs).
    { intros k c' Hk. specialize (H (S k) c' Hk).
      now replace (i + S k)%nat with (S i + k)%nat in H by lia. }
    exists (x :: xs). simpl. constructor; [exact Hx|].
    replace (Z.succ (Z.of_nat i)) with (Z.of_nat (S i)) by lia.
    now replace (Z.pred (Z.succ (Z.of_nat (length cs)))) with (len cs)
      by (unfold len; lia).
Qed.

Lemma Forall2_right {A B} (R : A -> B -> Prop) (Q : B -> Prop) l k :
  Forall2 R l k -> (forall a b, R a b -> Q b) -> Forall Q k.
Proof. induction 1; intros HQ; constructor; eauto. Qed.

Lemma framed_pad row :
  len row < 60 -> NL ∉ row -> framed_line 60 VERT_LEFT (pad row 60).
Proof.
  intros Hlen Hnl. split; [now apply len_pad|].
  destruct (pad_fill row 60) as (fill & -> & Hfill). split.
  - rewrite !not_elem_of_app. split; [exact Hnl|]. split.
    + intros Hin. rewrite Forall_forall in Hfill.
      now specialize (Hfill _ Hin).
    + now intros [= ]%list_elem_of_singleton.
  - rewrite app_assoc. apply last_snoc.
Qed.

(** The texts of the children of a rectangle composite, when each child
    renders a block of framed lines: the lines of the children, in order. *)
Lemma rect_children_blocks n p b cp :
  cp = p ++ child_prefix_of n b ->
  Forall (fun c => forall p b,
            (forall path m q d, call_at c p b path = Some (m, q, d) ->
                                row_ok 60 m q d) ->
            exists ls, ls <> [] /\ Forall (framed_line 60 VERT_LEFT) ls
                       /\ display c p b = Ret (Some (rstrip (unlines ls))))
    (children n) ->
  (forall path m q d, path <> [] -> call_at n p b path = Some (m, q, d) ->
                      row_ok 60 m q d) ->
  forall result,
  exists lss,
    rect_children_loop display (len (children n)) cp (children n) 0 result
    = Ret (result ++ unlines (concat lss))
    /\ length lss = length (children n)
    /\ Forall (fun ls => ls <> [] /\ Forall (framed_line 60 VERT_LEFT) ls) lss.
Proof.
  intros -> IH Hrows result.
  destruct (results_exist_indexed (fun ls => Some (rstrip (unlines ls)))
              display
              (fun _ ls => ls <> [] /\ Forall (framed_line 60 VERT_LEFT) ls)
              (len (children n)) (p ++ child_prefix_of n b) (children n) 0)
    as (lss & Hlss).
  { intros k c Hk. rewrite Forall_lookup in IH.
    destruct (IH k c Hk (p ++ child_prefix_of n b)
                (Z.of_nat k =? len (children n) - 1))
      as (ls & Hne & Hall & Hdisp).
    - intros path m q d Hpath. apply (Hrows (k :: path)); [discriminate|].
      cbn [call_at]. now rewrite (child_call_Some _ _ _ _ _ Hk).
    - exists ls. now rewrite Nat.add_0_l. }
  exists lss. split; [|split].
  - erewrite rect_children_loop_texts with (xs := (fun ls => Some (rstrip (unlines ls))) <$> lss).
    2:{ apply Forall2_fmap_r. eapply Forall2_impl; [exact Hlss|].
        now intros [c z] ls [H _]. }
    do 2 f_equal. rewrite <- unlines_concat, <- list_fmap_compose.
    f_equal. apply Forall_fmap_ext.
    assert (Hq : Forall (fun ls => ls <> []
                         /\ Forall (framed_line 60 VERT_LEFT) ls) lss).
    { eapply Forall2_right; [exact Hlss|]. now intros [c z] ls [_ Hq]. }
    eapply Forall_impl; [exact Hq|]. intros ls [Hne Hall]. simpl.
    now apply rstrip_unlines with (w := 60) (c := VERT_LEFT).
  - apply Forall2_length in Hlss. rewrite <- Hlss.
    rewrite length_zip_with, length_seqZ. unfold len. lia.
  - eapply Forall2_right; [exact Hlss|]. now intros [c z] ls [_ Hq].
Qed.

(** In a tree of the rectangle family whose rows all fit, a node that is
    not at level 0 renders a block of framed lines, its own first. *)
Lemma rect_block ic n :
  built RectangleNodeFactory ic n ->
  get_level n <> Some 0 ->
  forall p b,
  (forall path m q d, call_at n p b path = Some (m, q, d) -> row_ok 60 m q d) ->
  exists ls,
    ls <> [] /\ Forall (framed_line 60 VERT_LEFT) ls
    /\ display n p b = Ret (Some (rstrip (unlines ls))).
Proof.
  induction n as [n IH] using Node_children_ind; intros Hb Hl p b Hrows.
  destruct (Hrows [] n p b eq_refl) as [Hlen Hnl].
  destruct (built_rect_inv _ _ Hb)
    as [(k & v & l & ->)|(k & cs & l & -> & Hcs)].
  - exists [pad (leaf_row p b ic k v) 60]. split; [discriminate|].
    cbn [row_of] in Hlen, Hnl.
    split; [constructor; [now apply framed_pad|constructor]|].
    cbn [display]. apply Z.ltb_lt in Hlen as ->.
    unfold unlines. cbn [map concat]. rewrite app_nil_r, rstrip_pad.
    cbn. now rewrite app_nil_r.
  - cbn [row_of get_level children] in *.
    assert (Hl0 : l <> 0) by congruence.
    destruct (rect_children_blocks (RectangleCompositeNode k ic cs l 60) p b
                (p ++ rect_child_prefix l) eq_refl) with
      (result := rect_header l p ic k 60) as (lss & Hloop & _ & Hlss).
    { cbn [children]. rewrite Forall_forall in IH, Hcs. apply Forall_forall.
      intros c Hc p' b' Hrows'. destruct (Hcs c Hc) as [Hbc Hlc].
      apply IH; [exact Hc | exact Hbc | congruence | exact Hrows']. }
    { intros path m q d _. apply Hrows. }
    cbn [children] in Hloop.
    exists (pad (composite_row p ic k) 60 :: concat lss).
    split; [discriminate|]. split.
    + constructor; [now apply framed_pad|].
      apply Forall_concat. eapply Forall_impl; [exact Hlss|]. now intros ls [].
    + rewrite rect_composite_unfold, Hloop.
      destruct (Z.eqb_spec l 0) as [|_]; [easy|]. cbn [bind].
      rewrite rect_header_nonroot by exact Hl0. reflexivity.
Qed.

(** ** The frame around the lines *)

Lemma py_index_lt n i k : py_index n i = Some k -> (Z.of_nat k < n).
Proof.
  unfold py_index. destruct (Z.leb_spec 0 i).
  - destruct (Z.ltb_spec i n); intros [= <-]; lia.
  - destruct (Z.leb_spec (- n) i); intros [= <-]; lia.
Qed.

Lemma py_index_from_end (n k : nat) :
  (0 < k <= n)%nat -> py_index (Z.of_nat n) (- Z.of_nat k) = Some (n - k)%nat.
Proof.
  intros H. unfold py_index.
  destruct (Z.leb_spec 0 (- Z.of_nat k)); [lia|].
  destruct (Z.leb_spec (- Z.of_nat n) (- Z.of_nat k)); [f_equal|]; lia.
Qed.

Lemma guide_not_break c : is_guide c = true -> c <> NL.
Proof. intros H ->. discriminate. Qed.

(** Whatever the icons, and wherever it ends, the loop of lines 144-150
    raises nothing on indices within the text, keeps the line breaks where
    they are, and leaves every character that is neither a guide glyph nor a
    blank as it is. *)
Lemma scan_writes ic idxs :
  forall s,
  Forall (fun i => is_Some (py_index (len s) i)) idxs ->
  exists s',
    scan ic idxs s = Ret s'
    /\ same_breaks s s'
    /\ (forall k c, s !! k = Some c -> is_guide c = false -> c <> SP ->
                    s' !! k = Some c).
Proof.
  induction idxs as [|i idxs IH]; intros s Hidx.
  - exists s. split; [reflexivity|]. split; [apply same_breaks_refl|auto].
  - inversion Hidx as [|? ? [k Hk] Hrest]; subst.
    pose proof (py_index_lt _ _ _ Hk) as Hlt. unfold len in Hlt.
    destruct (lookup_lt_is_Some_2 s k) as [c Hc]; [lia|].
    assert (Hget : getitem s i = Ret c) by (unfold getitem; now rewrite Hk, Hc).
    assert (Hset : forall x, setitem s i x = Ret (<[k:=x]> s))
      by (intros x; unfold setitem; now rewrite Hk).
    assert (Hstep : forall x, c <> NL -> x <> NL ->
              (is_guide c = true \/ c = SP) ->
              exists s',
                scan ic idxs (<[k:=x]> s) = Ret s'
                /\ same_breaks s s'
                /\ (forall k' c', s !! k' = Some c' -> is_guide c' = false ->
                                  c' <> SP -> s' !! k' = Some c')).
    { intros x Hcn Hxn Hwhy.
      destruct (IH (<[k:=x]> s)) as (s' & Hs' & Hbr & Hkeep).
      { unfold len in *. now rewrite length_insert. }
      exists s'. split; [exact Hs'|]. split.
      - eapply same_breaks_trans; [|exact Hbr].
        now apply same_breaks_insert with (c := c).
      - intros k' c' Hk' Hg' Hsp'. apply Hkeep; [|exact Hg'|exact Hsp'].
        rewrite list_lookup_insert_ne; [exact Hk'|].
        intros <-. rewrite Hc in Hk'. injection Hk' as <-.
        destruct Hwhy; congruence. }
    cbn [scan]. rewrite Hget. cbn [bind].
    destruct (is_guide c) eqn:Hg.
    + rewrite Hset. cbn [bind].
      apply Hstep; [now apply guide_not_break|discriminate|now left].
    + destruct (N.eqb_spec c SP) as [->|Hsp].
      * rewrite Hset. cbn [bind]. apply Hstep; [discriminate..|now right].
      * destruct (is_icon ic c).
        -- exists s. split; [reflexivity|].
           split; [apply same_breaks_refl|auto].
        -- now apply IH.
Qed.

Lemma setitem_keeps_breaks s0 s i x k :
  same_breaks s0 s ->
  py_index (len s) i = Some k ->
  s0 !! k <> Some NL ->
  x <> NL ->
  setitem s i x = Ret (<[k:=x]> s) /\ same_breaks s0 (<[k:=x]> s).
Proof.
  intros Hbr Hk Hnl Hx. split; [unfold setitem; now rewrite Hk|].
  pose proof (py_index_lt _ _ _ Hk) as Hlt. unfold len in Hlt.
  destruct (lookup_lt_is_Some_2 s k) as [c Hc]; [lia|].
  eapply same_breaks_trans; [exact Hbr|].
  apply same_breaks_insert with (c := c); [exact Hc| |exact Hx].
  intros ->. apply Hnl. now apply (same_breaks_lookup _ _ k Hbr).
Qed.

(** Lines 139-151 on a text of at least one framed line: the pass raises
    nothing, keeps the line breaks where they are, and leaves ┘ before the
    last line break. *)
Lemma stitch_framed ic ls :
  ls <> [] ->
  Forall (framed_line 60 VERT_LEFT) ls ->
  exists s',
    stitch ic 60 (unlines ls) = Ret s'
    /\ same_breaks (unlines ls) s'
    /\ s' !! (length (unlines ls) - 2)%nat = Some UP_LEFT.
Proof.
  intros Hne Hall. set (s := unlines ls).
  assert (Hlines : Forall (fun l => length l = 61%nat /\ (NL ∉ l)) ls).
  { eapply Forall_impl; [exact Hall|]. intros l (Hlen & Hnl & _).
    split; [unfold len in Hlen; lia | exact Hnl]. }
  assert (Hn : length s = (length ls * 62)%nat).
  { apply length_unlines. eapply Forall_impl; [exact Hlines|]. now intros l []. }
  assert (Hpos : (0 < length ls)%nat) by (destruct ls; [easy|simpl; lia]).
  assert (Hbreak : forall k, s !! k = Some NL -> exists q, (k = q * 62 + 61)%nat)
    by (intros k; apply unlines_break; exact Hlines).
  unfold stitch.
  destruct (setitem_keeps_breaks s s 0 DOWN_RIGHT 0) as [-> Hb1];
    [apply same_breaks_refl
    |unfold py_index, len; simpl; destruct (Z.ltb_spec 0 (Z.of_nat (length s)));
       [reflexivity|lia]
    |intros (q & Hq)%Hbreak; lia | discriminate|].
  cbn [bind]. set (s1 := <[0%nat:=DOWN_RIGHT]> s) in *.
  assert (Hn1 : length s1 = length s) by apply length_insert.
  destruct (setitem_keeps_breaks s s1 60 DOWN_LEFT 60) as [-> Hb2];
    [exact Hb1
    |unfold py_index, len; simpl;
       destruct (Z.ltb_spec 60 (Z.of_nat (length s1))); [reflexivity|lia]
    |intros (q & Hq)%Hbreak; lia | discriminate|].
  cbn [bind]. set (s2 := <[60%nat:=DOWN_LEFT]> s1) in *.
  assert (Hn2 : length s2 = length s) by (unfold s2; now rewrite length_insert).
  destruct (setitem_keeps_breaks s s2 (-2) UP_LEFT (length s - 2)%nat)
    as [-> Hb3];
    [exact Hb2
    |rewrite <- Hn2; apply (py_index_from_end (length s2) 2); lia
    |intros (q & Hq)%Hbreak; lia | discriminate|].
  cbn [bind]. set (s3 := <[(length s - 2)%nat:=UP_LEFT]> s2) in *.
  assert (Hn3 : length s3 = length s) by (unfold s3; now rewrite length_insert).
  destruct (setitem_keeps_breaks s s3 (Z.opp 60 - 2) UP_RIGHT (length s - 62)%nat)
    as [-> Hb4];
    [exact Hb3
    |rewrite <- Hn3; apply (py_index_from_end (length s3) 62); lia
    |intros (q & Hq)%Hbreak; lia | discriminate|].
  cbn [bind]. set (s4 := <[(length s - 62)%nat:=UP_RIGHT]> s3) in *.
  assert (Hn4 : length s4 = length s) by (unfold s4; now rewrite length_insert).
  assert (H4 : s4 !! (length s - 2)%nat = Some UP_LEFT).
  { unfold s4. rewrite list_lookup_insert_ne by lia.
    unfold s3. apply list_lookup_insert_eq. lia. }
  destruct (scan_writes ic (range (Z.opp 60 - 1) (-1)) s4)
    as (s5 & -> & Hb5 & Hkeep).
  { unfold range. apply Forall_forall. intros i Hi.
    apply elem_of_seqZ in Hi. unfold py_index, len. rewrite Hn4.
    destruct (Z.leb_spec 0 i); [lia|].
    destruct (Z.leb_spec (- Z.of_nat (length s)) i); [eauto|lia]. }
  exists s5. split; [reflexivity|]. split.
  - eapply same_breaks_trans; [exact Hb4 | exact Hb5].
  - apply Hkeep; [exact H4 | reflexivity | discriminate].
Qed.

Lemma split_last_two {A} (l : list A) a b :
  (2 <= length l)%nat ->
  l !! (length l - 2)%nat = Some a ->
  l !! (length l - 1)%nat = Some b ->
  exists t, l = t ++ [a; b].
Proof.
  intros Hlen Ha Hb. exists (take (length l - 2) l).
  rewrite <- (take_drop (length l - 2) l) at 1. f_equal.
  pose proof (lookup_drop l (length l - 2) 0) as H0.
  pose proof (lookup_drop l (length l - 2) 1) as H1.
  rewrite Nat.add_0_r, Ha in H0.
  replace (length l - 2 + 1)%nat with (length l - 1)%nat in H1 by lia.
  rewrite Hb in H1.
  pose proof (length_drop l (length l - 2)) as Hd.
  destruct (drop (length l - 2) l) as [|x [|y [|z r]]]; simpl in *;
    try lia; congruence.
Qed.

Lemma unlines_ends_with_break ls :
  ls <> [] -> unlines ls !! (length (unlines ls) - 1)%nat = Some NL.
Proof.
  intros Hne. destruct (exists_last Hne) as (ls' & l & ->).
  rewrite unlines_app. unfold unlines at 2 4. cbn [map concat].
  rewrite app_nil_r, !app_assoc.
  set (t := unlines ls' ++ l). rewrite length_app. simpl.
  rewrite lookup_app_r by lia.
  now replace (_ - _)%nat with 0%nat by lia.
Qed.

(** The root of a rectangle tree with at least one child, all rows of which
    fit: the text [display] returns is made of lines of 61 characters. *)
Lemma rect_root_lines ic root p b :
  built RectangleNodeFactory ic root ->
  get_level root = Some 0 ->
  children root <> [] ->
  (forall path m q d, path <> [] -> call_at root p b path = Some (m, q, d) ->
                      row_ok 60 m q d) ->
  exists out,
    display root p b = Ret (Some out)
    /\ Forall (fun l => len l = 61) (split_lines out).
Proof.
  intros Hb Hl Hcs Hrows.
  destruct (rect_children_blocks root p b (p ++ child_prefix_of root b) eq_refl)
    with (result := @nil N) as (lss & Hloop & Hlen & Hlss); [|exact Hrows|].
  { destruct Hb as [root _ _ Hch]. eapply Forall_impl; [exact Hch|].
    intros c [Hbc Hlc] p' b' Hrows'.
    apply (rect_block ic c Hbc); [congruence | exact Hrows']. }
  set (ls := concat lss) in *.
  assert (Hall : Forall (framed_line 60 VERT_LEFT) ls).
  { apply Forall_concat. eapply Forall_impl; [exact Hlss|]. now intros ? []. }
  assert (Hne : ls <> []).
  { destruct lss as [|ls0 lss]; [now destruct (children root)|].
    apply Forall_inv in Hlss as [Hne0 _]. unfold ls. simpl.
    now destruct ls0. }
  destruct (stitch_framed ic ls Hne Hall) as (s' & Hstitch & Hbr & Hcorner).
  assert (Hlines : Forall (fun l => length l = 61%nat) ls).
  { eapply Forall_impl; [exact Hall|]. intros l (H & _). unfold len in H. lia. }
  assert (Hnl : Forall (fun l => NL ∉ l) ls).
  { eapply Forall_impl; [exact Hall|]. now intros l (_ & H & _). }
  pose proof (length_unlines ls 61 Hlines) as Hn.
  assert (Hpos : (0 < length ls)%nat) by (destruct ls; [easy|simpl; lia]).
  pose proof (same_breaks_length _ _ Hbr) as Hn'.
  pose proof (unlines_ends_with_break ls Hne) as Hend.
  apply (same_breaks_lookup _ _ _ Hbr) in Hend.
  rewrite Hn' in Hend, Hcorner.
  destruct (split_last_two s' UP_LEFT NL) as (t & Ht);
    [lia | exact Hcorner | exact Hend|].
  exists (t ++ [UP_LEFT]). split.
  - destruct (built_rect_inv _ _ Hb)
      as [(k & v & l & ->)|(k & cs & l & -> & _)]; [easy|].
    injection Hl as ->. rewrite rect_composite_unfold.
    cbn [children child_prefix_of] in Hloop.
    change (rect_header 0 p ic k 60) with (@nil N). rewrite Hloop.
    cbn [bind app Z.eqb]. rewrite Hstitch. cbn [bind]. rewrite Ht.
    now rewrite rstrip_nonspace.
  - pose proof (same_breaks_lines _ _ Hbr) as Hsame.
    rewrite split_lines_unlines in Hsame by exact Hnl.
    replace s' with ((t ++ [UP_LEFT]) ++ [NL]) in Hsame
      by (now rewrite Ht, <- app_assoc).
    rewrite split_lines_snoc_break, !map_app in Hsame.
    apply app_inj_tail in Hsame as [Hsame _].
    assert (H61 : Forall (fun n => n = 61%nat) (map length ls))
      by now apply Forall_map.
    rewrite Hsame in H61. apply Forall_map in H61.
    eapply Forall_impl; [exact H61|]. intros l H. unfold len. simpl in H. lia.
Qed.

(** C3, as the code has it: a rectangle line whose row is shorter than the
    width [w] is the row, a run of ─ and the terminator ┤, [w + 1]
    characters in all, with ┤ at column [w] counted from 0. This holds of
    the text of a leaf, and of the header line of a composite that is not at
    level 0, which the rest of its text follows after a line break. And it
    holds of the whole output: when the root has a child, and every row
    below the root is shorter than the 60 columns the factory sets and
    holds no line break, every line of the text rendered for the value has
    61 characters. *)
Theorem rect_line_width :
  (forall k v ic w l p b,
     let row := leaf_row p b ic k v in
     len row < w ->
     exists line fill,
       display (RectangleLeafNode k v ic w l) p b = Ret (Some line)
       /\ line = row ++ fill ++ [VERT_LEFT]
       /\ Forall (fun c => c = HORIZ) fill
       /\ len line = w + 1
       /\ line !! Z.to_nat w = Some VERT_LEFT)
  /\ (forall k ic cs l w p b out,
        let row := composite_row p ic k in
        len row < w ->
        l <> 0 ->
        display (RectangleCompositeNode k ic cs l w) p b = Ret (Some out) ->
        exists line fill rest,
          out = line ++ rest
          /\ (rest = [] \/ exists rest', rest = NL :: rest')
          /\ line = row ++ fill ++ [VERT_LEFT]
          /\ Forall (fun c => c = HORIZ) fill
          /\ len line = w + 1
          /\ line !! Z.to_nat w = Some VERT_LEFT)
  /\ (forall ic j root,
        build RectangleNodeFactory ic j None = Ret root ->
        children root <> [] ->
        (forall path n p b,
           path <> [] -> call_at root [] true path = Some (n, p, b) ->
           row_ok 60 n p b) ->
        exists out,
          render RectangleNodeFactory ic j = Ret (Some out)
          /\ Forall (fun line => len line = 60 + 1) (split_lines out)).
Proof.
  split; [|split].
  - intros k v ic w l p b row Hrow. simpl. fold row.
    apply Z.ltb_lt in Hrow as Hrow'. rewrite Hrow'.
    destruct (pad_fill row w) as (fill & Hfill & Hall).
    exists (pad row w), fill. split; [reflexivity|]. split; [exact Hfill|].
    split; [exact Hall|]. split; [now apply len_pad | now apply pad_last].
  - intros k ic cs l w p b out row Hrow Hl H.
    rewrite rect_composite_unfold in H.
    destruct (rect_children_loop _ _ _ _ _ _) as [r|e] eqn:Hloop;
      [|discriminate].
    destruct (rect_children_loop_extends _ _ _ _ _ _ _ Hloop) as (body & ->).
    rewrite rect_header_nonroot in H by exact Hl. fold row in H.
    destruct (Z.eqb_spec l 0) as [|_]; [easy|].
    cbn [bind] in H. injection H as <-.
    destruct (pad_fill row w) as (fill & Hfill & Hall).
    exists (pad row w), fill, (rstrip (NL :: body)).
    split; [now rewrite <- !app_assoc, rstrip_pad|].
    split.
    { simpl. destruct (rstrip body); [left; reflexivity | right; eauto]. }
    split; [exact Hfill|]. split; [exact Hall|].
    split; [now apply len_pad | now apply pad_last].
  - intros ic j root Hroot Hcs Hrows.
    destruct (build_ok RectangleNodeFactory ic j None)
      as (root' & Hroot' & [Hb Hcomp Hl _]).
    rewrite Hroot in Hroot'. injection Hroot' as <-.
    assert (Hj : is_container j = true).
    { rewrite <- Hcomp. destruct root; simpl in *; congruence. }
    rewrite Hj in Hl. unfold render. rewrite Hroot. cbn [bind].
    now apply (rect_root_lines ic root [] true Hb Hl Hcs).
Qed.

(** A run of this theorem: the leaf "a": 1, the composite "b" with that
    leaf as its only child, and the whole output for {"a": 1, "b": 2}. *)
Lemma rect_line_width_witness :
  (exists line, display (RectangleLeafNode (Some (lit "a")) (PInt 1)
                           default_icons 60 (Some 1)) [] true
                = Ret (Some line) /\ len line = 61)
  /\ (exists line rest,
        display (RectangleCompositeNode (Some (lit "b")) default_icons
                   [RectangleLeafNode (Some (lit "a")) (PInt 1)
                      default_icons 60 (Some 1)] 1 60) [] true
        = Ret (Some (line ++ rest)) /\ len line = 61)
  /\ (exists out,
        render RectangleNodeFactory default_icons
          (JDict [(lit "a", JAtom (PInt 1)); (lit "b", JAtom (PInt 2))])
        = Ret (Some out)
        /\ Forall (fun line => len line = 61) (split_lines out)).
Proof.
  destruct rect_line_width as (Hleaf & Hcomp & Hout). split; [|split].
  - destruct (Hleaf (Some (lit "a")) (PInt 1) default_icons 60 (Some 1)
                [] true) as (line & fill & H & _ & _ & Hlen & _);
      [vm_compute; reflexivity|].
    exists line. split; [exact H | exact Hlen].
  - edestruct (Hcomp (Some (lit "b")) default_icons
                [RectangleLeafNode (Some (lit "a")) (PInt 1)
                   default_icons 60 (Some 1)] 1 60 [] true)
      as (line & fill & rest & Hout' & _ & _ & _ & Hlen & _);
      [vm_compute; reflexivity | lia | vm_compute; reflexivity |].
    exists line, rest. split; [|exact Hlen].
    rewrite <- Hout'. vm_compute. reflexivity.
  - eapply Hout; [vm_compute; reflexivity | discriminate |].
    intros [|[|[|i]] [|i' path]] n p b Hpath H; try easy;
      vm_compute in H; try discriminate; injection H as <- <- <-;
      (split; [vm_compute; reflexivity|]);
      apply (bool_decide_unpack _); vm_compute; exact I.
Defined.

(** C3 as stated fails: the leaf of "a": 1, whose row has 7 characters,
    is rendered on 61 characters, not 60. *)
Lemma rect_line_is_not_60 :
  exists line,
    display (RectangleLeafNode (Some (lit "a")) (PInt 1) default_icons 60
               (Some 1)) [] true = Ret (Some line)
    /\ len (leaf_row [] true default_icons (Some (lit "a")) (PInt 1)) < 60
    /\ len line = 61
    /\ len line <> 60.
Proof. eexists. repeat split; vm_compute; congruence. Qed.

(** ** The lines of a tree *)

Lemma rstrip_prefix s : exists w, s = rstrip s ++ w.
Proof.
  induction s as [|c s (w & IH)]; [now exists []|]. simpl.
  destruct (rstrip s) as [|d r] eqn:Hs.
  - destruct (isspace c); [now exists (c :: s)|]. exists s. reflexivity.
  - exists w. simpl. now rewrite IH at 1.
Qed.

Lemma rstrip_no_break s : NL ∉ s -> NL ∉ rstrip s.
Proof.
  intros Hs Hin. destruct (rstrip_prefix s) as (w & Hw).
  apply Hs. rewrite Hw. apply elem_of_app. now left.
Qed.

Lemma rstrip_snoc_break s : rstrip (s ++ [NL]) = rstrip s.
Proof.
  induction s as [|c s IH]; [reflexivity|]. simpl. now rewrite IH.
Qed.

(** ** The object store *)

Lemma Forall2_Forall_r {A B} (R Q : A -> B -> Prop) (P : B -> Prop) l k :
  Forall2 R l k -> Forall P k ->
  (forall a b, R a b -> P b -> Q a b) ->
  Forall2 Q l k.
Proof.
  intros HR HP Himp. induction HR as [|a b l k Hab _ IH];
    inversion HP; subst; constructor; auto.
Qed.

(** *** [display] does not write *)

Section LoopsPreserve.
Variable disp : nat -> list N -> bool -> Heap.M (option (list N)).
Hypothesis disp_preserves :
  forall l p b h r h', disp l p b h = Some (r, h') -> h' = h.

Lemma tree_children_loop_preserves n cp cs :
  forall i result h r h',
  Heap.tree_children_loop disp n cp cs i result h = Some (r, h') -> h' = h.
Proof.
  induction cs as [|c cs IH]; intros i result h r h' H; cbn in H.
  - now injection H as _ <-.
  - unfold Heap.mbind in H at 1.
    destruct (disp c cp (i =? n - 1) h) as [[[x|e] h1]|] eqn:Hc;
      [|injection H as _ <-|discriminate];
      apply disp_preserves in Hc as ->; [|reflexivity].
    unfold Heap.mbind in H at 1. unfold Heap.lift in H.
    destruct (concat_opt x [NL]) as [line|e]; [|now injection H as _ <-].
    now apply IH in H.
Qed.

Lemma rect_children_loop_preserves n cp cs :
  forall i result h r h',
  Heap.rect_children_loop disp n cp cs i result h = Some (r, h') -> h' = h.
Proof.
  induction cs as [|c cs IH]; intros i result h r h' H; cbn in H.
  - now injection H as _ <-.
  - unfold Heap.mbind in H at 1.
    destruct (disp c cp (i =? n - 1) h) as [[[x|e] h1]|] eqn:Hc;
      [|injection H as _ <-|discriminate];
      apply disp_preserves in Hc as ->; [|reflexivity].
    now apply IH in H.
Qed.
End LoopsPreserve.

(** Whatever the store and the fuel, a call of [display] that ends, with a
    text, with no text or with an exception, leaves the store as it found
    it. *)
Lemma display_preserves_store fuel :
  forall l p b h r h',
  Heap.display fuel l p b h = Some (r, h') -> h' = h.
Proof.
  induction fuel as [|fuel IH]; intros l p b h r h' H; [discriminate|].
  cbn [Heap.display] in H. unfold Heap.mbind in H at 1. unfold Heap.load in H.
  destruct (h !! l) as [o|]; [|discriminate].
  destruct o as [k v ic lv|k ic cs lv|k v ic w lv|k ic cs lv w].
  - now injection H as _ <-.
  - unfold Heap.mbind in H.
    destruct (Heap.tree_children_loop _ _ _ _ _ _ _) as [[[x|e] h1]|] eqn:Hl;
      [| |discriminate];
      apply (tree_children_loop_preserves _ IH) in Hl as ->;
      now injection H as _ <-.
  - destruct (_ <? _); now injection H as _ <-.
  - unfold Heap.mbind in H.
    destruct (Heap.rect_children_loop _ _ _ _ _ _ _) as [[[x|e] h1]|] eqn:Hl;
      [| |discriminate];
      apply (rect_children_loop_preserves _ IH) in Hl as ->;
      [|now injection H as _ <-].
    unfold Heap.lift in H.
    destruct (if lv =? 0 then stitch ic w x else Ret x);
      now injection H as _ <-.
Qed.

(** *** [display] on a store that holds a tree *)

Section LoopsRefine.
Variables (fuel : nat) (h : list Heap.object) (n : Z) (cp : list N).

Lemma tree_children_loop_refines ls cs :
  Forall2 (fun l c => forall p b,
             Heap.display fuel l p b h = Some (display c p b, h)) ls cs ->
  forall i result,
  Heap.tree_children_loop (Heap.display fuel) n cp ls i result h
  = Some (tree_children_loop display n cp cs i result, h).
Proof.
  induction 1 as [|l c ls cs Hc _ IH]; intros i result; [reflexivity|].
  cbn [Heap.tree_children_loop tree_children_loop].
  unfold Heap.mbind at 1. rewrite Hc.
  destruct (display c cp (i =? n - 1)) as [x|e]; [|reflexivity].
  cbn [bind]. unfold Heap.mbind at 1. unfold Heap.lift.
  destruct (concat_opt x [NL]) as [line|e]; [|reflexivity].
  cbn [bind]. apply IH.
Qed.

Lemma rect_children_loop_refines ls cs :
  Forall2 (fun l c => forall p b,
             Heap.display fuel l p b h = Some (display c p b, h)) ls cs ->
  forall i result,
  Heap.rect_children_loop (Heap.display fuel) n cp ls i result h
  = Some (rect_children_loop display n cp cs i result, h).
Proof.
  induction 1 as [|l c ls cs Hc _ IH]; intros i result; [reflexivity|].
  cbn [Heap.rect_children_loop rect_children_loop].
  unfold Heap.mbind at 1. rewrite Hc.
  destruct (display c cp (i =? n - 1)) as [x|e]; [|reflexivity].
  cbn [bind]. apply IH.
Qed.
End LoopsRefine.

Lemma children_height n :
  Forall (fun c => (S (height c) <= height n)%nat) (children n).
Proof.
  destruct n as [|k ic cs l| |k ic cs l w]; simpl; try constructor.
  all: pose proof (list_max_bound (map height cs)) as H;
       rewrite Forall_map in H;
       eapply Forall_impl; [exact H|]; simpl; intros; lia.
Qed.

(** On a store that holds the tree [n] at [l], with fuel for the height of
    [n], [display] returns what the function [Fje.display] gives for [n],
    and leaves the store as it is. *)
Lemma display_refines h hi n :
  forall l fuel p b,
  Heap.repr h hi l n ->
  (height n <= fuel)%nat ->
  Heap.display fuel l p b h = Some (display n p b, h).
Proof.
  induction n as [n Hn|n Hn IH] using Node_nested_ind;
    intros l fuel p b Hrepr Hfuel;
    destruct Hrepr as [l n ls Hl Hobj Hcs];
    (destruct fuel as [|fuel]; [destruct n; simpl in Hfuel; lia|]);
    cbn [Heap.display]; unfold Heap.mbind at 1; unfold Heap.load; rewrite Hobj.
  - destruct n; try discriminate; cbn [Heap.object_of display]; try reflexivity.
    now destruct (_ <? _).
  - assert (Hall : Forall2 (fun l' c => forall p b,
              Heap.display fuel l' p b h = Some (display c p b, h))
              ls (children n)).
    { pose proof (children_height n) as Hh.
      assert (Hboth : Forall (fun c =>
                (forall l fuel p b, Heap.repr h hi l c ->
                   (height c <= fuel)%nat ->
                   Heap.display fuel l p b h = Some (display c p b, h))
                /\ (S (height c) <= height n)%nat) (children n)).
      { apply Forall_and. now split. }
      eapply Forall2_Forall_r; [exact Hcs | exact Hboth|].
      intros l' c [_ Hr] [Hc Hhc] p' b'. apply Hc; [exact Hr|lia]. }
    assert (Hlen : len ls = len (children n)).
    { unfold len. now rewrite (Forall2_length _ _ _ Hcs). }
    destruct n as [|k ic cs lv| |k ic cs lv w]; try discriminate;
      cbn [Heap.object_of display children] in *; unfold Heap.mbind at 1.
    + rewrite Hlen, (tree_children_loop_refines _ _ _ _ _ _ Hall).
      now destruct (tree_children_loop _ _ _ _ _ _).
    + rewrite Hlen, (rect_children_loop_refines _ _ _ _ _ _ Hall).
      destruct (rect_children_loop _ _ _ _ _ _) as [x|e]; [|reflexivity].
      cbn [bind]. unfold Heap.mbind, Heap.lift.
      now destruct (if lv =? 0 then stitch ic w x else Ret x).
Qed.

(** *** [build] on the store *)

(** A tree in the store stays one when the store changes elsewhere. *)
Lemma repr_weaken h h' hi hi' n :
  forall l,
  Heap.repr h hi l n ->
  (hi <= hi')%nat ->
  (forall x, (l <= x < hi)%nat -> h' !! x = h !! x) ->
  Heap.repr h' hi' l n.
Proof.
  induction n as [n IH] using Node_children_ind; intros l Hrepr Hhi Hsame.
  destruct Hrepr as [l n ls Hl Hobj Hcs].
  apply Heap.repr_node with (ls := ls); [lia | |].
  - rewrite Hsame by lia. exact Hobj.
  - eapply Forall2_Forall_r; [exact Hcs | exact IH|].
    intros l' c [Hlt Hr] Hc. split; [exact Hlt|].
    apply Hc; [exact Hr | exact Hhi|]. intros x Hx. apply Hsame. lia.
Qed.

Lemma object_of_set_level n ls l :
  Heap.object_of (set_level n l) ls = Heap.set_level (Heap.object_of n ls) l.
Proof. now destruct n. Qed.

(** [add] on the store does what [add] on trees does. *)
Lemma add_refines h hi hi' a c node nc :
  Heap.repr h hi a node ->
  is_composite node = true ->
  (hi <= c)%nat ->
  Heap.repr h hi' c nc ->
  (hi' <= length h)%nat ->
  exists h' node',
    Heap.add a c h = Some (Ret tt, h')
    /\ add node nc = Ret node'
    /\ Heap.repr h' hi' a node'
    /\ is_composite node' = true
    /\ length h' = length h
    /\ (forall x, (x < a)%nat -> h' !! x = h !! x).
Proof.
  intros Ha Hcomp Hhi Hc Hlen.
  destruct Ha as [a node ls Hlt Hobj Hcs].
  destruct Hc as [c nc lsc Hltc Hobjc Hcsc].
  assert (Hne : a <> c) by lia.
  assert (exists lv node',
            Heap.composite_level (Heap.object_of node ls) = Ret lv
            /\ add node nc = Ret node'
            /\ children node' = children node ++ [set_level nc (lv + 1)]
            /\ Heap.append_child (Heap.object_of node ls) c
               = Ret (Heap.object_of node' (ls ++ [c]))
            /\ is_composite node' = true)
    as (lv & node' & Hlv & Hadd & Hch & Happ & Hcomp').
  { destruct node; try discriminate; simpl; eauto 10. }
  set (o := Heap.set_level (Heap.object_of nc lsc) (lv + 1)).
  set (h1 := <[c:=o]> h).
  set (h2 := <[a:=Heap.object_of node' (ls ++ [c])]> h1).
  exists h2, node'.
  assert (Hrun : Heap.add a c h = Some (Ret tt, h2)).
  { unfold Heap.add, Heap.mbind, Heap.load, Heap.lift, Heap.store.
    rewrite Hobj, Hlv, Hobjc.
    destruct (decide (c < length h)%nat) as [_|]; [|lia].
    fold o h1. unfold h1 at 1.
    rewrite list_lookup_insert_ne by lia. rewrite Hobj, Happ.
    destruct (decide (a < length h1)%nat) as [_|Hn]; [reflexivity|].
    unfold h1 in Hn. rewrite length_insert in Hn. lia. }
  assert (Hsame : forall x, x <> a -> x <> c -> h2 !! x = h !! x).
  { intros x Hxa Hxc. unfold h2, h1.
    now rewrite !list_lookup_insert_ne by auto. }
  split; [exact Hrun|]. split; [exact Hadd|].
  split; [|split; [exact Hcomp'|split]].
  - apply Heap.repr_node with (ls := ls ++ [c]); [lia | |].
    + unfold h2. apply list_lookup_insert_eq.
      unfold h1. rewrite length_insert. lia.
    + rewrite Hch. apply Forall2_app.
      * eapply Forall2_impl; [exact Hcs|]. intros l' c' [Hl' Hr].
        split; [exact Hl'|].
        eapply repr_weaken; [exact Hr | lia|].
        intros x Hx. apply Hsame; lia.
      * constructor; [|constructor]. split; [lia|].
        apply Heap.repr_node with (ls := lsc); [exact Hltc | |].
        -- unfold h2. rewrite list_lookup_insert_ne by lia.
           unfold h1. rewrite list_lookup_insert_eq by lia.
           now rewrite object_of_set_level.
        -- rewrite set_level_children.
           eapply Forall2_impl; [exact Hcsc|]. intros l' c' [Hl' Hr].
           split; [exact Hl'|].
           eapply repr_weaken; [exact Hr | lia|].
           intros x Hx. apply Hsame; lia.
  - unfold h2, h1. now rewrite !length_insert.
  - intros x Hx. apply Hsame; lia.
Qed.

Section BuildRefines.
Variables (f : factory) (ic : icons).

(** One turn of either loop of [build]: the child is built, then attached. *)
Lemma build_then_add v key a node h :
  build_refines_at f ic v key h ->
  Heap.repr h (length h) a node ->
  is_composite node = true ->
  exists c h' nc node',
    Heap.build f ic v key h = Some (Ret c, h')
    /\ build f ic v key = Ret nc
    /\ exists h'',
         Heap.add a c h' = Some (Ret tt, h'')
         /\ add node nc = Ret node'
         /\ Heap.repr h'' (length h'') a node'
         /\ is_composite node' = true
         /\ (length h <= length h'')%nat
         /\ (forall x, (x < a)%nat -> h'' !! x = h !! x).
Proof.
  intros (c & h1 & nc & Hrun & Hfun & Hrc & Hc & Hpre) Ha Hcomp.
  assert (Hlt : (a < length h)%nat) by now destruct Ha.
  assert (Hlen1 : (c < length h1)%nat) by now destruct Hrc.
  assert (Ha1 : Heap.repr h1 (length h) a node).
  { eapply repr_weaken; [exact Ha | lia|]. intros x Hx. apply Hpre. lia. }
  destruct (add_refines h1 (length h) (length h1) a c node nc Ha1 Hcomp Hc Hrc)
    as (h2 & node' & Hadd & Hadd' & Hr2 & Hcomp' & Hlen2 & Hpre2); [lia|].
  exists c, h1, nc, node'. split; [exact Hrun|]. split; [exact Hfun|].
  exists h2. split; [exact Hadd|]. split; [exact Hadd'|].
  split; [now rewrite Hlen2|]. split; [exact Hcomp'|]. split; [lia|].
  intros x Hx. rewrite Hpre2 by exact Hx. apply Hpre. lia.
Qed.

Lemma items_loop_refines items :
  Forall (fun kv : list N * json =>
            forall key h, build_refines_at f ic kv.2 key h) items ->
  forall a node h,
  Heap.repr h (length h) a node ->
  is_composite node = true ->
  loop_refines_at (Heap.items_loop (Heap.build f ic) items a)
    (items_loop (build f ic) items node) a h.
Proof.
  induction 1 as [|[k v] items Hv _ IH]; intros a node h Ha Hcomp.
  - exists h, node. repeat split; auto.
  - destruct (build_then_add v (Some k) a node h (Hv (Some k) h) Ha Hcomp)
      as (c & h1 & nc & node1 & Hrun & Hfun & h2 & Hadd & Hadd' & Hr2
          & Hcomp2 & Hlen2 & Hpre2).
    destruct (IH a node1 h2 Hr2 Hcomp2)
      as (h3 & node3 & Hrun3 & Hfun3 & Hr3 & Hcomp3 & Hlen3 & Hpre3).
    exists h3, node3.
    split.
    { cbn [Heap.items_loop]. unfold Heap.mbind at 1. rewrite Hrun.
      unfold Heap.mbind at 1. rewrite Hadd. exact Hrun3. }
    split.
    { cbn [items_loop]. rewrite Hfun. cbn [bind]. rewrite Hadd'. exact Hfun3. }
    split; [exact Hr3|]. split; [exact Hcomp3|]. split; [lia|].
    intros x Hx. rewrite Hpre3 by exact Hx. now apply Hpre2.
Qed.

Lemma enum_loop_refines key elems :
  Forall (fun v => forall key h, build_refines_at f ic v key h) elems ->
  forall i a node h,
  Heap.repr h (length h) a node ->
  is_composite node = true ->
  loop_refines_at (Heap.enum_loop (Heap.build f ic) key elems i a)
    (enum_loop (build f ic) key elems i node) a h.
Proof.
  induction 1 as [|v elems Hv _ IH]; intros i a node h Ha Hcomp.
  - exists h, node. repeat split; auto.
  - destruct (build_then_add v (Some (index_key key i)) a node h
                (Hv _ h) Ha Hcomp)
      as (c & h1 & nc & node1 & Hrun & Hfun & h2 & Hadd & Hadd' & Hr2
          & Hcomp2 & Hlen2 & Hpre2).
    destruct (IH (i + 1) a node1 h2 Hr2 Hcomp2)
      as (h3 & node3 & Hrun3 & Hfun3 & Hr3 & Hcomp3 & Hlen3 & Hpre3).
    exists h3, node3.
    split.
    { cbn [Heap.enum_loop]. unfold Heap.mbind at 1. rewrite Hrun.
      unfold Heap.mbind at 1. rewrite Hadd. exact Hrun3. }
    split.
    { cbn [enum_loop]. rewrite Hfun. cbn [bind]. rewrite Hadd'. exact Hfun3. }
    split; [exact Hr3|]. split; [exact Hcomp3|]. split; [lia|].
    intros x Hx. rewrite Hpre3 by exact Hx. now apply Hpre2.
Qed.

(** A composite node just created is alone at the end of the store. *)
Lemma create_composite_refines key h :
  exists o,
    Heap.create_composite_node f key ic h = Some (Ret (length h), h ++ [o])
    /\ Heap.repr (h ++ [o]) (length (h ++ [o])) (length h)
         (create_composite_node f key ic)
    /\ is_composite (create_composite_node f key ic) = true.
Proof.
  destruct f; eexists; (split; [reflexivity|]); (split; [|reflexivity]);
    (eapply Heap.repr_node with (ls := []);
     [rewrite length_app; simpl; lia
     |rewrite lookup_app_r, Nat.sub_diag by lia; reflexivity
     |constructor]).
Qed.

Lemma create_leaf_refines key v h :
  exists o,
    Heap.create_leaf_node f key v ic h = Some (Ret (length h), h ++ [o])
    /\ Heap.repr (h ++ [o]) (length (h ++ [o])) (length h)
         (create_leaf_node f key v ic).
Proof.
  destruct f; eexists; (split; [reflexivity|]);
    (eapply Heap.repr_node with (ls := []);
     [rewrite length_app; simpl; lia
     |rewrite lookup_app_r, Nat.sub_diag by lia; reflexivity
     |constructor]).
Qed.

(** [build] on the store and [build] on trees agree, from any store. *)
Lemma build_refines j : forall key h, build_refines_at f ic j key h.
Proof.
  induction j as [items IH|elems IH|v] using json_nested_ind; intros key h.
  - destruct (create_composite_refines key h) as (o & Hnew & Hr & Hcomp).
    destruct (items_loop_refines items IH _ _ _ Hr Hcomp)
      as (h' & node' & Hrun & Hfun & Hr' & _ & Hlen & Hpre).
    exists (length h), h', node'.
    split.
    { cbn [Heap.build]. unfold Heap.mbind at 1. rewrite Hnew.
      unfold Heap.mbind at 1. now rewrite Hrun. }
    split; [exact Hfun|]. split; [exact Hr'|]. split; [lia|].
    intros x Hx. rewrite Hpre by exact Hx. now apply lookup_app_l.
  - destruct (create_composite_refines key h) as (o & Hnew & Hr & Hcomp).
    destruct (enum_loop_refines key elems IH 0 _ _ _ Hr Hcomp)
      as (h' & node' & Hrun & Hfun & Hr' & _ & Hlen & Hpre).
    exists (length h), h', node'.
    split.
    { cbn [Heap.build]. unfold Heap.mbind at 1. rewrite Hnew.
      unfold Heap.mbind at 1. now rewrite Hrun. }
    split; [exact Hfun|]. split; [exact Hr'|]. split; [lia|].
    intros x Hx. rewrite Hpre by exact Hx. now apply lookup_app_l.
  - destruct (create_leaf_refines key v h) as (o & Hnew & Hr).
    exists (length h), (h ++ [o]), (create_leaf_node f key v ic).
    split; [exact Hnew|]. split; [reflexivity|]. split; [exact Hr|].
    split; [lia|]. intros x Hx. now apply lookup_app_l.
Qed.
End BuildRefines.

(** The whole run on the store is the whole run on trees. *)
Lemma render_refines f ic j :
  exists h, Heap.render f ic j = Some (render f ic j, h).
Proof.
  destruct (build_refines f ic j None [])
    as (l & h & n & Hrun & Hfun & Hr & _ & _).
  destruct (build_ok f ic j None) as (n' & Hfun' & [_ _ _ Hheight]).
  rewrite Hfun in Hfun'. injection Hfun' as <-.
  exists h. unfold Heap.render, render, Heap.mbind. rewrite Hrun, Hfun.
  cbn [bind]. eapply display_refines; [exact Hr | exact Hheight].
Qed.

(** ** Claims on the store *)

(** C8: take the tree that [build] leaves in the store for any value, with
    either factory, from any store. With enough fuel for the depth of the
    value, two calls of [display] in a row on its root, with the same
    prefix and the same [is_last], give the same result both times (the
    result the function [Fje.display] gives for the tree), and the store
    after them is the store before them. More generally no call of
    [display], on any store, changes the store: the method reads the
    attributes of the nodes and assigns none. *)
Theorem render_twice_same (f : factory) (ic : icons) (j : json)
    (key : option str) (h0 : list Heap.object) :
  exists root h n,
    Heap.build f ic j key h0 = Some (Ret root, h)
    /\ build f ic j key = Ret n
    /\ (forall p b fuel,
          (depth j <= fuel)%nat ->
          Heap.display_twice fuel root p b h
          = Some (display n p b, display n p b, h))
    /\ (forall fuel l p b s r s',
          Heap.display fuel l p b s = Some (r, s') -> s' = s).
Proof.
  destruct (build_refines f ic j key h0)
    as (l & h & n & Hrun & Hfun & Hr & _ & _).
  destruct (build_ok f ic j key) as (n' & Hfun' & [_ _ _ Hheight]).
  rewrite Hfun in Hfun'. injection Hfun' as <-.
  exists l, h, n. split; [exact Hrun|]. split; [exact Hfun|]. split.
  - intros p b fuel Hfuel. unfold Heap.display_twice.
    now rewrite !(display_refines h (length h) n l fuel p b Hr) by lia.
  - intros fuel. apply display_preserves_store.
Qed.

(** A run of this theorem on {"a": 1, "b": [2, 3]} in rectangle
    style, from the empty store, with fuel 3: both calls return the same
    text, and the five instances of the store are as they were. *)
Lemma render_twice_same_witness :
  let j := JDict [(lit "a", JAtom (PInt 1));
                  (lit "b", JList [JAtom (PInt 2); JAtom (PInt 3)])] in
  exists root h out,
    Heap.build RectangleNodeFactory default_icons j None [] = Some (Ret root, h)
    /\ length h = 5%nat
    /\ Heap.display_twice 3 root [] true h
       = Some (Ret (Some out), Ret (Some out), h).
Proof.
  intros j.
  destruct (render_twice_same RectangleNodeFactory default_icons j None [])
    as (root & h & n & Hrun & Hfun & Htwice & _).
  vm_compute in Hfun. injection Hfun as <-.
  specialize (Htwice [] true 3%nat (le_n 3)).
  exists root, h. eexists. split; [exact Hrun|].
  split; [vm_compute in Hrun; now injection Hrun as <- <-|].
  rewrite Htwice. vm_compute. reflexivity.
Defined.

(** * Further properties *)

(** ** What [build] attaches *)

Lemma add_children node child :
  is_composite node = true ->
  exists lv node',
    get_level node = Some lv
    /\ add node child = Ret node'
    /\ children node' = children node ++ [set_level child (lv + 1)]
    /\ get_level node' = Some lv
    /\ is_composite node' = true
    /\ node_key node' = node_key node.
Proof. destruct node; try discriminate; intros _; simpl; eauto 10. Qed.

Section BuildChildren.
Variables (f : factory) (ic : icons).

Lemma items_loop_children items :
  forall node, is_composite node = true ->
  exists lv node' cs,
    get_level node = Some lv
    /\ items_loop (build f ic) items node = Ret node'
    /\ children node' = children node ++ cs
    /\ is_composite node' = true
    /\ node_key node' = node_key node
    /\ Forall2 (fun (kv : list N * json) c =>
                  exists m, build f ic kv.2 (Some kv.1) = Ret m
                            /\ c = set_level m (lv + 1)) items cs.
Proof.
  induction items as [|[k v] items IH]; intros node Hc.
  - destruct (add_children node node Hc) as (lv & _ & Hlv & _).
    exists lv, node, []. rewrite app_nil_r. repeat split; auto.
  - destruct (build_ok f ic v (Some k)) as (m & Hm & _).
    destruct (add_children node m Hc)
      as (lv & node1 & Hlv & Hadd & Hch & Hlv1 & Hc1 & Hk1).
    destruct (IH node1 Hc1) as (lv' & node' & cs & Hlv' & Hrun & Hch' & Hc' & Hk' & Hcs).
    rewrite Hlv1 in Hlv'. injection Hlv' as <-.
    exists lv, node', (set_level m (lv + 1) :: cs).
    split; [exact Hlv|]. split.
    { cbn [items_loop]. rewrite Hm. cbn [bind]. rewrite Hadd. exact Hrun. }
    split; [now rewrite Hch', Hch, <- app_assoc|].
    split; [exact Hc'|]. split; [congruence|].
    constructor; [eauto | exact Hcs].
Qed.

Lemma enum_loop_children key elems :
  forall i node, is_composite node = true ->
  exists lv node' cs,
    get_level node = Some lv
    /\ enum_loop (build f ic) key elems i node = Ret node'
    /\ children node' = children node ++ cs
    /\ is_composite node' = true
    /\ node_key node' = node_key node
    /\ Forall2 (fun '(v, i) c =>
                  exists m, build f ic v (Some (index_key key i)) = Ret m
                            /\ c = set_level m (lv + 1))
         (zip elems (seqZ i (len elems))) cs.
Proof.
  induction elems as [|v elems IH]; intros i node Hc.
  - destruct (add_children node node Hc) as (lv & _ & Hlv & _).
    exists lv, node, []. rewrite app_nil_r. repeat split; auto.
  - destruct (build_ok f ic v (Some (index_key key i))) as (m & Hm & _).
    destruct (add_children node m Hc)
      as (lv & node1 & Hlv & Hadd & Hch & Hlv1 & Hc1 & Hk1).
    destruct (IH (i + 1) node1 Hc1)
      as (lv' & node' & cs & Hlv' & Hrun & Hch' & Hc' & Hk' & Hcs).
    rewrite Hlv1 in Hlv'. injection Hlv' as <-.
    exists lv, node', (set_level m (lv + 1) :: cs).
    split; [exact Hlv|]. split.
    { cbn [enum_loop]. rewrite Hm. cbn [bind]. rewrite Hadd. exact Hrun. }
    split; [now rewrite Hch', Hch, <- app_assoc|].
    split; [exact Hc'|]. split; [congruence|].
    unfold len. simpl length. rewrite Nat2Z.inj_succ, seqZ_cons by lia.
    simpl. constructor; [eauto|].
    replace (Z.succ i) with (i + 1) by lia.
    now replace (Z.pred (Z.succ (Z.of_nat (length elems)))) with (len elems)
      by (unfold len; lia).
Qed.

Lemma create_composite_facts key :
  is_composite (create_composite_node f key ic) = true
  /\ get_level (create_composite_node f key ic) = Some 0
  /\ children (create_composite_node f key ic) = []
  /\ node_key (create_composite_node f key ic) = key.
Proof. now destruct f. Qed.

(** The node [build] returns carries the key it was given. *)
Lemma build_key j key n : build f ic j key = Ret n -> node_key n = key.
Proof.
  destruct (create_composite_facts key) as (Hc & _ & _ & Hk).
  destruct j as [items|elems|v]; cbn [build]; intros H.
  - destruct (items_loop_children items _ Hc)
      as (lv & node' & cs & _ & Hrun & _ & _ & Hk' & _). congruence.
  - destruct (enum_loop_children key elems 0 _ Hc)
      as (lv & node' & cs & _ & Hrun & _ & _ & Hk' & _). congruence.
  - injection H as <-. now destruct f.
Qed.

(** X1: the children of the node built for an object are, in the order of
    its items and one for one, the nodes [build] returns for the values of
    the items under their keys, each stamped with level 1; for an array
    they are the nodes built for its elements under the labels
    [key[0]], [key[1]], ... in index order ([None[0]], ... at the top
    level, where the key is [None]). Nothing is reordered, dropped or
    merged. *)
Theorem build_children_in_order :
  (forall items key, exists root,
     build f ic (JDict items) key = Ret root
     /\ Forall2 (fun (kv : list N * json) c =>
                   node_key c = Some kv.1
                   /\ exists m, build f ic kv.2 (Some kv.1) = Ret m
                                /\ c = set_level m 1)
          items (children root))
  /\ (forall elems key, exists root,
        build f ic (JList elems) key = Ret root
        /\ Forall2 (fun '(v, i) c =>
                      node_key c = Some (format_key key ++ lit "["
                                         ++ str_of_int i ++ lit "]")
                      /\ exists m,
                           build f ic v (Some (index_key key i)) = Ret m
                           /\ c = set_level m 1)
             (zip elems (seqZ 0 (len elems))) (children root)).
Proof.
  split; intros xs key;
    destruct (create_composite_facts key) as (Hc & Hl & Hch & _).
  - destruct (items_loop_children xs _ Hc)
      as (lv & root & cs & Hlv & Hrun & Hch' & _ & _ & Hcs).
    rewrite Hl in Hlv. injection Hlv as <-. rewrite Hch in Hch'.
    exists root. split; [exact Hrun|]. rewrite Hch'. simpl.
    eapply Forall2_impl; [exact Hcs|]. intros [k v] c (m & Hm & ->).
    split; [|eauto]. apply build_key in Hm. now destruct m.
  - destruct (enum_loop_children key xs 0 _ Hc)
      as (lv & root & cs & Hlv & Hrun & Hch' & _ & _ & Hcs).
    rewrite Hl in Hlv. injection Hlv as <-. rewrite Hch in Hch'.
    exists root. split; [exact Hrun|]. rewrite Hch'. simpl.
    eapply Forall2_impl; [exact Hcs|]. intros [v i] c (m & Hm & ->).
    split; [|eauto]. apply build_key in Hm. now destruct m.
Qed.
End BuildChildren.

(** X2: all the nodes of a built tree, the root included, are of the
    classes of the factory that was chosen, carry the icon pair of the
    builder and, in the rectangle family, the width 60: families, icons and
    widths are never mixed in one tree. *)
Theorem build_one_family (f : factory) (ic : icons) (j : json)
    (key : option str) :
  exists root,
    build f ic j key = Ret root
    /\ Forall (fun n => of_factory f n = true /\ icon_family n = ic)
         (root :: descendants root).
Proof.
  destruct (build_ok f ic j key) as (root & Hroot & [Hb _ _ _]).
  exists root. split; [exact Hroot|]. constructor.
  - now destruct Hb.
  - eapply Forall_impl; [exact (built_descendants _ _ _ Hb)|].
    intros d [[] _]. now split.
Qed.

(** ** What the renderers raise *)

Lemma setitem_raises {A} (l : list A) i x :
  (exists l', setitem l i x = Ret l') \/ setitem l i x = Raise IndexError.
Proof. unfold setitem. destruct (py_index _ _); eauto. Qed.

Lemma scan_raises ic idxs :
  forall s, (exists s', scan ic idxs s = Ret s')
            \/ scan ic idxs s = Raise IndexError.
Proof.
  induction idxs as [|i idxs IH]; intros s; cbn [scan]; [eauto|].
  unfold getitem. destruct (py_index (len s) i) as [k|] eqn:Hk; [|now right].
  destruct (s !! k) as [c|]; [|now right]. cbn [bind].
  unfold setitem. rewrite Hk. cbn [bind].
  destruct (is_guide c); [apply IH|].
  destruct (c =? SP)%N; [apply IH|].
  destruct (is_icon ic c); [eauto | apply IH].
Qed.

Lemma stitch_raises ic w s :
  (exists s', stitch ic w s = Ret s') \/ stitch ic w s = Raise IndexError.
Proof.
  unfold stitch.
  destruct (setitem_raises s 0 DOWN_RIGHT) as [(s1 & ->)| ->]; [|now right].
  cbn [bind].
  destruct (setitem_raises s1 w DOWN_LEFT) as [(s2 & ->)| ->]; [|now right].
  cbn [bind].
  destruct (setitem_raises s2 (-2) UP_LEFT) as [(s3 & ->)| ->]; [|now right].
  cbn [bind].
  destruct (setitem_raises s3 (- w - 2) UP_RIGHT) as [(s4 & ->)| ->];
    [|now right].
  cbn [bind]. apply scan_raises.
Qed.

Lemma pad_overflow row w : w - 1 <= len row -> pad row w = row ++ [HORIZ; VERT_LEFT].
Proof.
  intros H. unfold pad, repeat_char.
  now replace (Z.to_nat (w - len row - 1)) with 0%nat by lia.
Qed.

(** X5: the header of a rectangle composite has no guard on its length,
    unlike the line of a leaf. When its row has [w] characters or more, a
    composite below the root never returns an absent text: its text is the
    whole row followed by ─┤ with no fill, a line longer than the [w + 1]
    characters of the lines that fit, and the texts of its children follow
    after a line break. *)
Theorem rect_header_overflows (k : option str) (ic : icons) (cs : list Node)
    (l w : Z) (p : str) (b : bool) (x : option str) :
  l <> 0 ->
  w <= len (composite_row p ic k) ->
  display (RectangleCompositeNode k ic cs l w) p b = Ret x ->
  exists rest,
    x = Some (composite_row p ic k ++ [HORIZ; VERT_LEFT] ++ rest)
    /\ (rest = [] \/ exists rest', rest = NL :: rest')
    /\ w + 1 < len (composite_row p ic k ++ [HORIZ; VERT_LEFT]).
Proof.
  intros Hl Hw H. rewrite rect_composite_unfold in H.
  destruct (rect_children_loop _ _ _ _ _ _) as [r|e] eqn:Hloop;
    [|discriminate].
  destruct (rect_children_loop_extends _ _ _ _ _ _ _ Hloop) as (body & ->).
  rewrite rect_header_nonroot in H by exact Hl.
  destruct (Z.eqb_spec l 0) as [|_]; [easy|].
  cbn [bind] in H. injection H as <-.
  exists (rstrip (NL :: body)). split; [|split].
  - rewrite <- !app_assoc, rstrip_pad, pad_overflow by lia.
    now rewrite <- app_assoc.
  - simpl. destruct (rstrip body); [left; reflexivity | right; eauto].
  - rewrite len_app. change (len [HORIZ; VERT_LEFT]) with 2. lia.
Qed.

(** A run of this theorem: a composite below the root whose key has sixty
    characters, in the width 60. *)
Lemma rect_header_overflows_witness :
  exists rest,
    display (RectangleCompositeNode (Some (repeat_char 120%N 60))
               default_icons [] 1 60) [] true
    = Ret (Some (composite_row [] default_icons (Some (repeat_char 120%N 60))
                 ++ [HORIZ; VERT_LEFT] ++ rest))
    /\ 61 < len (composite_row [] default_icons (Some (repeat_char 120%N 60))
                 ++ [HORIZ; VERT_LEFT]).
Proof.
  destruct (rect_header_overflows (Some (repeat_char 120%N 60)) default_icons
              [] 1 60 [] true _ ltac:(lia) ltac:(vm_compute; discriminate)
              eq_refl) as (rest & Hx & _ & Hlen).
  exists rest. split; [|exact Hlen].
  rewrite <- Hx. reflexivity.
Defined.

(** ** Trailing whitespace *)

Lemma rstrip_last s c : last (rstrip s) = Some c -> isspace c = false.
Proof.
  induction s as [|d s IH]; [discriminate|]. simpl.
  destruct (rstrip s) as [|e r] eqn:Hs.
  - destruct (isspace d) eqn:Hd; [discriminate|]. now intros [= <-].
  - intros H. apply IH. exact H.
Qed.

Lemma rstrip_idem s : rstrip (rstrip s) = rstrip s.
Proof.
  induction s as [|d s IH]; [reflexivity|]. simpl.
  destruct (rstrip s) as [|e r] eqn:Hs.
  - destruct (isspace d) eqn:Hd; [reflexivity|]. simpl. now rewrite Hd.
  - change (rstrip (d :: e :: r)) with
      (match rstrip (e :: r) with
       | [] => if isspace d then [] else [d]
       | r' => d :: r'
       end).
    now rewrite IH.
Qed.

(** X6: the text a composite renders never ends with whitespace, whatever
    the family, the level, the keys and the values: a trailing blank or
    line break of the last line is trimmed (line 51, line 152). So the text
    rendered for an object or an array does not end with a blank or a line
    break, and trimming it again changes nothing. *)
Theorem composite_text_is_trimmed :
  (forall n p b out,
     is_composite n = true ->
     display n p b = Ret (Some out) ->
     rstrip out = out /\ forall c, last out = Some c -> isspace c = false)
  /\ (forall f ic j out,
        is_container j = true ->
        render f ic j = Ret (Some out) ->
        rstrip out = out /\ forall c, last out = Some c -> isspace c = false).
Proof.
  assert (Hnode : forall n p b out,
            is_composite n = true -> display n p b = Ret (Some out) ->
            exists s, out = rstrip s).
  { intros n p b out Hn H.
    destruct n as [|k ic cs l| |k ic cs l w]; try discriminate.
    - cbn [display] in H.
      destruct (tree_children_loop _ _ _ _ _ _) as [r|e]; [|discriminate].
      cbn [bind] in H. injection H as <-. eauto.
    - rewrite rect_composite_unfold in H.
      destruct (rect_children_loop _ _ _ _ _ _) as [r|e]; [|discriminate].
      cbn [bind] in H.
      destruct (if l =? 0 then stitch ic w r else Ret r) as [r'|e];
        [|discriminate].
      cbn [bind] in H. injection H as <-. eauto. }
  split.
  - intros n p b out Hn H. destruct (Hnode n p b out Hn H) as (s & ->).
    split; [apply rstrip_idem | apply rstrip_last].
  - intros f ic j out Hj H. unfold render in H.
    destruct (build_ok f ic j None) as (root & Hroot & [_ Hc _ _]).
    rewrite Hroot in H. cbn [bind] in H. rewrite Hj in Hc.
    destruct (Hnode root [] true out Hc H) as (s & ->).
    split; [apply rstrip_idem | apply rstrip_last].
Qed.

(** A run of this theorem: the object {"k": "v  "}, whose only line ends
    with two blanks before trimming. *)
Lemma composite_text_is_trimmed_witness :
  exists out,
    render TreeNodeFactory default_icons
      (JDict [(lit "k", JAtom (PStr (lit "v  ")))]) = Ret (Some out)
    /\ out = [UP_RIGHT; HORIZ] ++ lit " k: v"
    /\ rstrip out = out.
Proof.
  destruct composite_text_is_trimmed as [_ H].
  eexists. split; [vm_compute; reflexivity|]. split; [reflexivity|].
  apply (H TreeNodeFactory default_icons
           (JDict [(lit "k", JAtom (PStr (lit "v  ")))]) _ eq_refl).
  vm_compute. reflexivity.
Defined.

(** ** [main] *)

Lemma dict_get_None {V} (d : list (list N * V)) k :
  k ∉ map fst d -> dict_get d k = None.
Proof.
  induction d as [|[k' v] d IH]; [reflexivity|]. simpl.
  intros H. apply not_elem_of_cons in H as [Hne H].
  rewrite bool_decide_eq_false_2 by congruence. now apply IH.
Qed.

Lemma dict_get_Some {V} (d : list (list N * V)) k :
  k ∈ map fst d -> exists v, dict_get d k = Some v /\ (k, v) ∈ d.
Proof.
  induction d as [|[k' v] d IH]; simpl; [now intros ?%elem_of_nil|].
  intros H. destruct (decide (k' = k)) as [->|Hne].
  - exists v. rewrite bool_decide_eq_true_2 by reflexivity.
    split; [reflexivity | apply elem_of_cons; now left].
  - rewrite bool_decide_eq_false_2 by exact Hne.
    apply elem_of_cons in H as [H|H]; [congruence|].
    destruct (IH H) as (v' & Hv' & Hin). exists v'.
    split; [exact Hv' | apply elem_of_cons; now right].
Qed.

(** X7: [main] indexes the icon table before the style table. An icon name
    that is none of default, tree, star, animal, tech, food ends the run
    with [KeyError] on that name, whatever the style, known or not, and
    before anything is built; with a known icon name, a style that is
    neither tree nor rectangle ends it with [KeyError] on the style. *)
Theorem main_key_errors (style icon : str) (json_data : json) :
  (icon ∉ map fst icon_themes -> main style icon json_data = KeyError icon)
  /\ (icon ∈ map fst icon_themes -> style ∉ map fst styles ->
      main style icon json_data = KeyError style).
Proof.
  split.
  - intros H. unfold main. now rewrite (dict_get_None _ _ H).
  - intros Hi Hs. unfold main.
    destruct (dict_get_Some _ _ Hi) as (ic & -> & _).
    now rewrite (dict_get_None _ _ Hs).
Qed.

(** A run of this theorem: the icon name "emoji" with the unknown style
    "box", and the icon name "star" with that style. *)
Lemma main_key_errors_witness :
  main (lit "box") (lit "emoji") (JList []) = KeyError (lit "emoji")
  /\ main (lit "box") (lit "star") (JList []) = KeyError (lit "box").
Proof.
  split.
  - apply (main_key_errors (lit "box") (lit "emoji") (JList [])).
    apply (bool_decide_unpack _). vm_compute. exact I.
  - apply (main_key_errors (lit "box") (lit "star") (JList [])).
    + apply (bool_decide_unpack _). vm_compute. exact I.
    + apply (bool_decide_unpack _). vm_compute. exact I.
Defined.


(** ** The lines of the tree, node by node *)

Lemma rstrip_app_nonblank a l : rstrip l <> [] -> rstrip (a ++ l) = a ++ rstrip l.
Proof.
  intros Hl. induction a as [|x a IH]; [reflexivity|].
  change (rstrip ((x :: a) ++ l)) with
    (match rstrip (a ++ l) with
     | [] => if isspace x then [] else [x]
     | r' => x :: r'
     end).
  rewrite IH. change ((x :: a) ++ rstrip l) with (x :: (a ++ rstrip l)).
  destruct (a ++ rstrip l) eqn:E; [|reflexivity].
  apply app_eq_nil in E as [_ E]. contradiction.
Qed.

Lemma row_line_rstrip row line :
  row_line row line -> row_line row (rstrip line) /\ rstrip line <> [].
Proof.
  intros [Hr Hne].
  assert (E : rstrip line = rstrip row)
    by (destruct Hr as [->| ->]; [reflexivity | apply rstrip_idem]).
  rewrite E. split; [split; [now right | exact Hne] | exact Hne].
Qed.

(** Trimming a block of lines trims its last line and removes the last
    line break. *)
Lemma trim_block rws ls :
  ls <> [] -> Forall2 row_line rws ls ->
  exists ls',
    Forall2 row_line rws ls' /\ rstrip (unlines ls) ++ [NL] = unlines ls'.
Proof.
  intros Hne H. destruct (exists_last Hne) as (ls0 & l & ->).
  apply Forall2_app_inv_r in H as (rws0 & rws1 & H0 & H1 & ->).
  inversion H1 as [|r ? ? ? Hr Hnil]; subst. inversion Hnil; subst.
  destruct (row_line_rstrip _ _ Hr) as [Hr' Hl].
  exists (ls0 ++ [rstrip l]). split.
  - apply Forall2_app; [exact H0|]. now constructor.
  - rewrite !unlines_app. unfold unlines at 2 4. cbn [map concat].
    rewrite !app_nil_r, app_assoc, rstrip_snoc_break.
    now rewrite rstrip_app_nonblank, <- app_assoc by exact Hl.
Qed.

Lemma row_lines_no_break rws ls :
  Forall2 row_line rws ls ->
  Forall (fun r => NL ∉ r) rws -> Forall (fun l => NL ∉ l) ls.
Proof.
  induction 1 as [|r l rs ls1 [Hr _] _ IH]; intros Hnl; constructor.
  - apply Forall_inv in Hnl.
    destruct Hr as [->| ->]; [exact Hnl | now apply rstrip_no_break].
  - apply IH. now apply Forall_inv_tail in Hnl.
Qed.

Lemma tree_row_nonblank n p b :
  of_factory TreeNodeFactory n = true -> rstrip (row_of n p b) <> [].
Proof.
  intros Hn.
  assert (H : exists rest, row_of n p b = p ++ connector b ++ rest).
  { destruct n; try discriminate; cbn [row_of]; unfold leaf_row;
      [destruct (is_None _)|]; eauto. }
  destruct H as (rest & ->).
  destruct (rstrip_keeps_connector p b rest) as (rest' & ->).
  destruct b, p; discriminate.
Qed.

(** The rows the loop of a composite collects, when each child gives a
    block of lines for its rows. *)
Lemma rows_loop_blocks n cp cs :
  forall i outs,
  Forall2 (fun '(c, k) out =>
             exists ls, Forall2 row_line (rows c cp (k =? n - 1)) ls
                        /\ out ++ [NL] = unlines ls)
    (zip cs (seqZ i (len cs))) outs ->
  exists ls,
    Forall2 row_line (rows_loop rows n cp cs i) ls
    /\ concat (map (fun o => o ++ [NL]) outs) = unlines ls.
Proof.
  induction cs as [|c cs IH]; intros i outs H.
  - inversion H; subst. exists []. split; [constructor|reflexivity].
  - unfold len in H. simpl length in H.
    rewrite Nat2Z.inj_succ, seqZ_cons in H by lia.
    inversion H as [|? out ? outs' Hc Hcs]; subst.
    cbn beta iota in Hc. destruct Hc as (ls & Hls & Hout).
    replace (Z.succ i) with (i + 1) in Hcs by lia.
    replace (Z.pred (Z.succ (Z.of_nat (length cs)))) with (len cs) in Hcs
      by (unfold len; lia).
    destruct (IH _ _ Hcs) as (ls' & Hls' & Houts).
    exists (ls ++ ls'). split.
    + cbn [rows_loop]. now apply Forall2_app.
    + cbn [map concat]. now rewrite Hout, Houts, unlines_app.
Qed.

(** The children of a tree composite, each rendering the lines of its rows,
    give the loop the lines of all rows below the composite. *)
Lemma tree_children_rows cs cp n :
  Forall (fun c => forall b, exists t,
            display c cp b = Ret (Some t)
            /\ exists ls, Forall2 row_line (rows c cp b) ls
                          /\ t ++ [NL] = unlines ls) cs ->
  forall result, exists ls,
    tree_children_loop display n cp cs 0 result = Ret (result ++ unlines ls)
    /\ Forall2 row_line (rows_loop rows n cp cs 0) ls.
Proof.
  intros Hall result.
  destruct (results_exist Some display
              (fun c b t => exists ls, Forall2 row_line (rows c cp b) ls
                                       /\ t ++ [NL] = unlines ls)
              n cp cs Hall 0) as (outs & Houts).
  destruct (rows_loop_blocks n cp cs 0 outs) as (ls & Hls & Hcat).
  { eapply Forall2_impl; [exact Houts|]. now intros [c k] x [_ H]. }
  exists ls. split; [|exact Hls].
  rewrite <- Hcat. apply tree_children_loop_texts.
  eapply Forall2_impl; [exact Houts|]. now intros [c k] x [H _].
Qed.

(** A node of the tree family that is not at level 0 renders the lines of
    its rows, its own first, then those of the nodes below it in the order
    of the children. *)
Lemma tree_rows_block ic n :
  built TreeNodeFactory ic n ->
  get_level n <> Some 0 ->
  forall p b, exists t,
    display n p b = Ret (Some t)
    /\ exists ls, Forall2 row_line (rows n p b) ls /\ t ++ [NL] = unlines ls.
Proof.
  induction n as [n IH] using Node_children_ind; intros Hb Hl p b.
  assert (Hrow : row_line (row_of n p b) (row_of n p b)).
  { split; [now left|]. apply tree_row_nonblank. now destruct Hb. }
  destruct (built_tree_inv _ _ Hb)
    as [(k & v & l & ->)|(k & cs & l & -> & Hcs)].
  - eexists. split; [reflexivity|]. eexists [_]. split.
    + constructor; [exact Hrow|constructor].
    + unfold unlines. cbn [map concat]. now rewrite app_nil_r.
  - cbn [row_of get_level children] in *.
    assert (Hl0 : l <> 0) by congruence.
    destruct (tree_children_rows cs (p ++ tree_child_prefix l b) (len cs))
      with (result := tree_header l p b ic k) as (ls & Hloop & Hls).
    { rewrite Forall_forall in IH, Hcs. apply Forall_forall.
      intros c Hc b'. destruct (Hcs c Hc) as [Hbc Hlc].
      apply IH; [exact Hc | exact Hbc | congruence]. }
    destruct (trim_block
                ((p ++ connector b ++ ic.1 ++ format_key k)
                 :: rows_loop rows (len cs) (p ++ tree_child_prefix l b) cs 0)
                ((p ++ connector b ++ ic.1 ++ format_key k) :: ls))
      as (ls' & Hls' & Htrim); [discriminate | now constructor |].
    eexists. split.
    + cbn [display]. rewrite Hloop. cbn [bind]. reflexivity.
    + exists ls'. split; [exact Hls'|]. rewrite <- Htrim. do 2 f_equal.
      unfold tree_header. destruct (Z.eqb_spec l 0) as [|_]; [easy|].
      unfold unlines at 2. cbn [map concat]. fold (unlines ls).
      now rewrite <- !app_assoc.
Qed.

Lemma rows_loop_length n cp cs :
  (forall c p b, c ∈ cs -> length (rows c p b) = S (length (descendants c))) ->
  forall i,
  length (rows_loop rows n cp cs i)
  = length (flat_map (fun c => c :: descendants c) cs).
Proof.
  induction cs as [|c cs IH]; intros H i; [reflexivity|].
  cbn [rows_loop flat_map]. rewrite !length_app, H by (apply elem_of_cons; now left).
  rewrite IH; [reflexivity|]. intros c' p b Hc'. apply H.
  apply elem_of_cons. now right.
Qed.

Lemma rows_length n :
  forall p b, length (rows n p b) = S (length (descendants n)).
Proof.
  induction n as [n IH] using Node_children_ind; intros p b.
  rewrite Forall_forall in IH.
  destruct n as [| k ic cs l | | k ic cs l w]; cbn [rows descendants length];
    try reflexivity; f_equal; apply rows_loop_length; intros c q d Hc;
    apply IH; exact Hc.
Qed.

(** X9: the text rendered in tree style for an object or an array holds the
    rows of the nodes below the root, one after the other in the order
    [display] visits them (a node, then the nodes below it, child by child),
    separated by line breaks and with no line for the root. Each row stands
    as it is or trimmed on the right, and none is blank. When the root has
    no child the text is empty. When no row holds a line break, the lines
    of the text are these rows, so the text has as many lines as there are
    nodes below the root. *)
Theorem tree_output_is_preorder (ic : icons) (j : json) :
  is_container j = true ->
  exists root out lines,
    build TreeNodeFactory ic j None = Ret root
    /\ render TreeNodeFactory ic j = Ret (Some out)
    /\ Forall2 (fun row line => (line = row \/ line = rstrip row)
                                /\ rstrip line <> [])
         (rows_below root [] true) lines
    /\ length lines = length (descendants root)
    /\ (children root = [] -> out = [])
    /\ (children root <> [] -> out ++ [NL] = unlines lines)
    /\ (children root <> [] ->
        Forall (fun row => NL ∉ row) (rows_below root [] true) ->
        split_lines out = lines).
Proof.
  intros Hj.
  destruct (build_ok TreeNodeFactory ic j None)
    as (root & Hroot & [Hb Hcomp Hl _]).
  rewrite Hj in Hcomp, Hl.
  destruct (built_tree_inv _ _ Hb)
    as [(k & v & l & ->)|(k & cs & l & -> & Hcs)]; [discriminate|].
  cbn [get_level] in Hl. injection Hl as ->.
  destruct (tree_children_rows cs [] (len cs)) with (result := @nil N)
    as (ls & Hloop & Hls).
  { rewrite Forall_forall in Hcs. apply Forall_forall. intros c Hc b.
    destruct (Hcs c Hc) as [Hbc Hlc].
    apply (tree_rows_block ic c Hbc). congruence. }
  cbn [app] in Hloop.
  assert (Hout : render TreeNodeFactory ic j = Ret (Some (rstrip (unlines ls)))).
  { unfold render. rewrite Hroot. cbn [bind display tree_child_prefix].
    change (tree_header 0 [] true ic k) with (@nil N).
    change ([] ++ tree_child_prefix 0 true) with (@nil N).
    rewrite Hloop. reflexivity. }
  assert (Hrows : rows_below (TreeCompositeNode k ic cs 0) [] true
                  = rows_loop rows (len cs) [] cs 0) by reflexivity.
  assert (Hlen : length (rows_below (TreeCompositeNode k ic cs 0) [] true)
                 = length (descendants (TreeCompositeNode k ic cs 0))).
  { unfold rows_below.
    pose proof (rows_length (TreeCompositeNode k ic cs 0) [] true) as H.
    destruct (rows _ _ _); [discriminate|]. simpl in *. lia. }
  rewrite Hrows in *. cbn [children].
  assert (Hweak : forall ls0,
            Forall2 row_line (rows_loop rows (len cs) [] cs 0) ls0 ->
            Forall2 (fun row line => (line = row \/ line = rstrip row)
                                     /\ rstrip line <> [])
              (rows_loop rows (len cs) [] cs 0) ls0).
  { intros ls0 H. eapply Forall2_impl; [exact H|]. intros r l Hr.
    split; [apply Hr | apply (row_line_rstrip _ _ Hr)]. }
  destruct ls as [|l0 ls].
  - exists (TreeCompositeNode k ic cs 0), [], [].
    split; [exact Hroot|]. split; [exact Hout|].
    split; [apply Hweak; exact Hls|].
    split; [now rewrite <- Hlen, (Forall2_length _ _ _ Hls)|].
    split; [reflexivity|].
    destruct cs as [|c cs]; [split; intros; easy|].
    exfalso. apply Forall2_length in Hls. cbn [rows_loop] in Hls.
    rewrite length_app, rows_length in Hls. discriminate.
  - destruct (trim_block _ (l0 :: ls) ltac:(discriminate) Hls)
      as (ls' & Hls' & Htrim).
    exists (TreeCompositeNode k ic cs 0), (rstrip (unlines (l0 :: ls))), ls'.
    split; [exact Hroot|]. split; [exact Hout|].
    split; [apply Hweak; exact Hls'|].
    split; [now rewrite <- Hlen, (Forall2_length _ _ _ Hls')|].
    split; [|split].
    + intros Hc. cbn [children] in Hc. subst cs.
      apply Forall2_length in Hls. discriminate.
    + intros _. exact Htrim.
    + intros _ Hnl.
      assert (Hnl' : Forall (fun l => NL ∉ l) ls')
        by (apply (row_lines_no_break _ _ Hls'); rewrite <- Hrows; exact Hnl).
      pose proof (split_lines_unlines ls' Hnl') as H.
      rewrite <- Htrim, split_lines_snoc_break in H.
      now apply app_inv_tail in H.
Qed.

(** A run of this theorem on {"a": {"b": "x  "}, "c": null}: three lines
    for the three nodes below the root, the second one the row of "b"
    without its two trailing blanks. *)
Lemma tree_output_is_preorder_witness :
  exists out lines,
    render TreeNodeFactory default_icons
      (JDict [(lit "a", JDict [(lit "b", JAtom (PStr (lit "x  ")))]);
              (lit "c", JAtom PNone)]) = Ret (Some out)
    /\ split_lines out = lines
    /\ length lines = 3%nat
    /\ lines !! 1%nat = Some ([VERT; SP; SP; UP_RIGHT; HORIZ] ++ lit " b: x").
Proof.
  destruct (tree_output_is_preorder default_icons
              (JDict [(lit "a", JDict [(lit "b", JAtom (PStr (lit "x  ")))]);
                      (lit "c", JAtom PNone)]) eq_refl)
    as (root & out & lines & Hroot & Hout & _ & Hlen & _ & _ & Hsplit).
  exists out, lines. split; [exact Hout|].
  vm_compute in Hroot. injection Hroot as <-.
  assert (Hlines : split_lines out = lines).
  { apply Hsplit; [discriminate|].
    apply (bool_decide_unpack _). vm_compute. exact I. }
  split; [exact Hlines|]. split; [exact Hlen|].
  rewrite <- Hlines. vm_compute in Hout. injection Hout as <-.
  reflexivity.
Defined.

(** ** The pieces of the tree and the positions of the nodes *)

Lemma Forall2_compose {A B C} (P : A -> B -> Prop) (Q : B -> C -> Prop)
    (R : A -> C -> Prop) l k m :
  (forall a b c, P a b -> Q b c -> R a c) ->
  Forall2 P l k -> Forall2 Q k m -> Forall2 R l m.
Proof.
  intros H HP. revert m. induction HP as [|a b l k Hab _ IH]; intros m HQ;
    inversion HQ; subst; constructor; eauto.
Qed.

Lemma Forall2_map_left {A A' B} (f : A -> A') (P : A' -> B -> Prop) l k :
  Forall2 (fun a b => P (f a) b) l k -> Forall2 P (map f l) k.
Proof. induction 1; constructor; auto. Qed.

Lemma Forall2_and_left {A B} (P : A -> Prop) (R : A -> B -> Prop) l k :
  Forall P l -> Forall2 R l k -> Forall2 (fun a b => P a /\ R a b) l k.
Proof.
  intros HP HR. induction HR as [|a b l k Hab _ IH]; constructor.
  - split; [now apply Forall_inv in HP | exact Hab].
  - apply IH. now apply Forall_inv_tail in HP.
Qed.

Lemma paths_below_children n :
  paths_below n = paths_loop paths_below (children n) 0.
Proof. now destruct n. Qed.

Lemma rows_children n p b :
  rows n p b
  = row_of n p b
    :: rows_loop rows (len (children n)) (p ++ child_prefix_of n b)
         (children n) 0.
Proof. now destruct n. Qed.

Lemma call_at_child n p b i c path :
  children n !! i = Some c ->
  call_at n p b (i :: path)
  = call_at c (p ++ child_prefix_of n b)
      (Z.of_nat i =? len (children n) - 1) path.
Proof. intros H. cbn [call_at]. now rewrite (child_call_Some _ _ _ _ _ H). Qed.

(** The rows of the loop of [n] over the children from position
    [length pre] on are the rows of the calls at the positions the loop of
    paths lists. *)
Lemma rows_loop_paths n p b cs :
  Forall (fun c => forall q d,
            Forall2 (fun path row =>
                       exists m q' d',
                         call_at c q d path = Some (m, q', d')
                         /\ row = row_of m q' d')
              ([] :: paths_below c) (rows c q d)) cs ->
  forall pre, children n = pre ++ cs ->
  Forall2 (fun path row =>
             exists m q d,
               call_at n p b path = Some (m, q, d) /\ row = row_of m q d)
    (paths_loop paths_below cs (length pre))
    (rows_loop rows (len (children n)) (p ++ child_prefix_of n b) cs
       (Z.of_nat (length pre))).
Proof.
  induction 1 as [|c cs Hc _ IH]; intros pre Hpre; [constructor|].
  cbn [paths_loop rows_loop].
  assert (Hi : children n !! length pre = Some c)
    by (rewrite Hpre; apply list_lookup_middle; reflexivity).
  apply Forall2_app.
  - change ([length pre] :: map (cons (length pre)) (paths_below c))
      with (map (cons (length pre)) ([] :: paths_below c)).
    apply Forall2_map_left.
    eapply Forall2_impl; [apply Hc|]. intros path row (m & q & d & Hm & ->).
    exists m, q, d. split; [|reflexivity].
    rewrite (call_at_child _ _ _ _ _ _ Hi). exact Hm.
  - specialize (IH (pre ++ [c])).
    rewrite length_app in IH. cbn [length] in IH.
    replace (length pre + 1)%nat with (S (length pre)) in IH by lia.
    replace (Z.of_nat (S (length pre))) with (Z.of_nat (length pre) + 1) in IH
      by lia.
    apply IH. now rewrite <- app_assoc.
Qed.

(** The rows of a node are the rows of the calls at its own position and at
    the positions below it, in the same order. *)
Lemma rows_paths n :
  forall p b,
  Forall2 (fun path row =>
             exists m q d,
               call_at n p b path = Some (m, q, d) /\ row = row_of m q d)
    ([] :: paths_below n) (rows n p b).
Proof.
  induction n as [n IH] using Node_children_ind; intros p b.
  rewrite rows_children, paths_below_children. constructor.
  - now exists n, p, b.
  - now apply (rows_loop_paths n p b (children n) IH []).
Qed.

Lemma paths_loop_elem cs :
  forall i path,
  path ∈ paths_loop paths_below cs i
  <-> exists k c rest,
        path = (i + k)%nat :: rest
        /\ cs !! k = Some c
        /\ (rest = [] \/ rest ∈ paths_below c).
Proof.
  induction cs as [|c cs IH]; intros i path; cbn [paths_loop].
  - split; [now intros ?%elem_of_nil|]. now intros (k & c & rest & _ & ? & _).
  - rewrite elem_of_app, elem_of_cons, IH. split.
    + intros [[->|Hin]|(k & c' & rest & -> & Hk & Hrest)].
      * exists 0%nat, c, []. rewrite Nat.add_0_r. auto.
      * apply list_elem_of_In, in_map_iff in Hin as (rest & <- & Hin).
        apply list_elem_of_In in Hin.
        exists 0%nat, c, rest. rewrite Nat.add_0_r. auto.
      * exists (S k), c', rest. split; [f_equal; lia|]. auto.
    + intros (k & c' & rest & -> & Hk & Hrest). destruct k as [|k].
      * injection Hk as <-. left. rewrite Nat.add_0_r.
        destruct Hrest as [->|Hin]; [now left|]. right.
        apply list_elem_of_In, in_map_iff. exists rest.
        split; [reflexivity|]. now apply list_elem_of_In.
      * right. exists k, c', rest. split; [f_equal; lia|]. auto.
Qed.

(** The paths listed below a node are those of all the calls [display]
    makes below it. *)
Lemma paths_below_spec n :
  forall p b path,
  path ∈ paths_below n
  <-> path <> [] /\ is_Some (call_at n p b path).
Proof.
  induction n as [n IH] using Node_children_ind; intros p b path.
  rewrite paths_below_children, paths_loop_elem.
  rewrite Forall_forall in IH. split.
  - intros (k & c & rest & -> & Hk & Hrest). split; [discriminate|].
    cbn [Nat.add]. rewrite (call_at_child _ _ _ _ _ _ Hk).
    destruct Hrest as [->|Hin]; [cbn; eauto|].
    assert (Hc : c ∈ children n) by (apply list_elem_of_lookup; eauto).
    now apply (IH c Hc (p ++ child_prefix_of n b)
                 (Z.of_nat k =? len (children n) - 1) rest) in Hin.
  - intros [Hne Hcall]. destruct path as [|k rest]; [easy|].
    destruct (children n !! k) as [c|] eqn:Hk.
    + exists k, c, rest. split; [reflexivity|]. split; [exact Hk|].
      rewrite (call_at_child _ _ _ _ _ _ Hk) in Hcall.
      destruct rest as [|k' rest']; [now left|]. right.
      assert (Hc : c ∈ children n) by (apply list_elem_of_lookup; eauto).
      apply (IH c Hc (p ++ child_prefix_of n b)
               (Z.of_nat k =? len (children n) - 1)).
      split; [discriminate | exact Hcall].
    + cbn [call_at] in Hcall. unfold child_call in Hcall.
      rewrite Hk in Hcall. now destruct Hcall.
Qed.

(** Where a call comes from: the call at a position [path ++ [i]] is made
    by the node at [path] on its child at index [i], with its own prefix
    extended by line 49 and with the flag of line 47, true at the last
    index only. *)
Lemma call_at_parent root path i c p' last :
  call_at root [] true (path ++ [i]) = Some (c, p', last) ->
  exists n p b,
    call_at root [] true path = Some (n, p, b)
    /\ children n !! i = Some c
    /\ p' = p ++ child_prefix_of n b
    /\ (last = true <-> S i = length (children n)).
Proof.
  rewrite call_at_snoc.
  destruct (call_at root [] true path) as [[[n p] b]|]; [|discriminate].
  unfold child_call. destruct (children n !! i) as [c'|] eqn:Hi;
    [|discriminate].
  intros [= <- <- <-]. exists n, p, b. split; [reflexivity|].
  split; [exact Hi|]. split; [reflexivity|].
  unfold len. rewrite Z.eqb_eq. lia.
Qed.

(** A row of a node of the tree family, as it is or trimmed on the right,
    begins with the prefix and the connector of the call. *)
Lemma tree_piece_start ic m q d row line :
  built TreeNodeFactory ic m ->
  row = row_of m q d ->
  row_line row line ->
  exists rest,
    line = q ++ (if d then [UP_RIGHT; HORIZ] else [VERT_RIGHT; HORIZ]) ++ rest.
Proof.
  intros Hb -> [Hline _].
  assert (H : exists rest, row_of m q d = q ++ connector d ++ rest).
  { destruct (built_tree_inv _ _ Hb) as [(k & v & l & ->)|(k & cs & l & -> & _)];
      cbn [row_of]; unfold leaf_row; [destruct (is_None _)|]; eauto. }
  destruct H as (rest & Hrow).
  assert (Hconn : connector d
                  = if d then [UP_RIGHT; HORIZ] else [VERT_RIGHT; HORIZ])
    by now destruct d.
  rewrite <- Hconn. destruct Hline as [->| ->]; [eauto|].
  rewrite Hrow. destruct (rstrip_keeps_connector q d rest) as (rest' & ->).
  eauto.
Qed.

(** ** Claims on the tree renderer *)

(** C7, as the code has it. For an object or an array, the text rendered in
    tree style is made of one piece for each node below the root, in the
    order [display] visits them, each followed by a line break save the
    last; with no child the text is empty. The piece of a node begins with
    the prefix it inherited, followed by └─ when the node is the last child
    of its parent and by ├─ when it is an earlier child; the prefix is that
    of the parent extended by line 49: by nothing under the root, by three
    blanks under a last child, by │ and two blanks under an earlier one. When no row below the root holds a line
    break the pieces are the lines of the text; a row that holds one makes
    a piece of several lines, of which only the first begins so. *)
Theorem tree_lines_connectors (ic : icons) (j : json) :
  is_container j = true ->
  exists root out pieces,
    build TreeNodeFactory ic j None = Ret root
    /\ render TreeNodeFactory ic j = Ret (Some out)
    /\ (forall path,
          path ∈ paths_below root
          <-> path <> [] /\ is_Some (call_at root [] true path))
    /\ (forall path i c p' last,
          call_at root [] true (path ++ [i]) = Some (c, p', last) ->
          exists n p b,
            call_at root [] true path = Some (n, p, b)
            /\ children n !! i = Some c
            /\ p' = p ++ (if bool_decide (path = []) then []
                          else if b then lit "   " else VERT :: lit "  ")
            /\ (last = true <-> S i = length (children n)))
    /\ Forall2 (fun path piece =>
                  exists n p b rest,
                    call_at root [] true path = Some (n, p, b)
                    /\ piece = p ++ (if b then [UP_RIGHT; HORIZ]
                                     else [VERT_RIGHT; HORIZ]) ++ rest)
         (paths_below root) pieces
    /\ (children root = [] -> out = [])
    /\ (children root <> [] -> out ++ [NL] = unlines pieces)
    /\ (children root <> [] ->
        (forall path n p b,
           path <> [] -> call_at root [] true path = Some (n, p, b) ->
           NL ∉ row_of n p b) ->
        split_lines out = pieces).
Proof.
  intros Hj.
  destruct (build_ok TreeNodeFactory ic j None)
    as (root & Hroot & [Hb Hcomp Hl _]).
  rewrite Hj in Hcomp, Hl.
  destruct (built_tree_inv _ _ Hb)
    as [(k & v & l & ->)|(k & cs & l & -> & Hcs)]; [discriminate|].
  cbn [get_level] in Hl. injection Hl as ->.
  set (root := TreeCompositeNode k ic cs 0) in *.
  destruct (tree_children_rows cs [] (len cs)) with (result := @nil N)
    as (ls & Hloop & Hls).
  { rewrite Forall_forall in Hcs. apply Forall_forall. intros c Hc b.
    destruct (Hcs c Hc) as [Hbc Hlc].
    apply (tree_rows_block ic c Hbc). congruence. }
  cbn [app] in Hloop.
  assert (Hout : render TreeNodeFactory ic j = Ret (Some (rstrip (unlines ls)))).
  { unfold render. rewrite Hroot. unfold root.
    cbn [bind display tree_child_prefix].
    change (tree_header 0 [] true ic k) with (@nil N).
    change ([] ++ tree_child_prefix 0 true) with (@nil N).
    rewrite Hloop. reflexivity. }
  assert (Hrows : Forall2 (fun path row =>
                    exists m q d,
                      call_at root [] true path = Some (m, q, d)
                      /\ row = row_of m q d)
                    (paths_below root) (rows_loop rows (len cs) [] cs 0)).
  { pose proof (rows_paths root [] true) as H.
    apply Forall2_cons_1 in H as [_ H]. exact H. }
  assert (Hpieces : forall ls0,
            Forall2 row_line (rows_loop rows (len cs) [] cs 0) ls0 ->
            Forall2 (fun path piece =>
                       exists n p b rest,
                         call_at root [] true path = Some (n, p, b)
                         /\ piece = p ++ (if b then [UP_RIGHT; HORIZ]
                                          else [VERT_RIGHT; HORIZ]) ++ rest)
              (paths_below root) ls0).
  { intros ls0 H0. eapply Forall2_compose; [|exact Hrows|exact H0].
    intros path row line (m & q & d & Hm & Hrow) Hline.
    destruct (call_at_built _ _ _ _ _ _ _ _ _ Hb Hm) as [Hbm _].
    destruct (tree_piece_start ic m q d row line Hbm Hrow Hline) as (rest & ->).
    now exists m, q, d, rest. }
  assert (Hnobreak : (forall path n p b,
                        path <> [] ->
                        call_at root [] true path = Some (n, p, b) ->
                        NL ∉ row_of n p b) ->
                     Forall (fun row => NL ∉ row)
                       (rows_loop rows (len cs) [] cs 0)).
  { intros Hnl.
    assert (Hne : Forall (fun path => path <> []) (paths_below root)).
    { apply Forall_forall. intros path Hin.
      now apply (paths_below_spec root [] true) in Hin. }
    eapply Forall2_right; [exact (Forall2_and_left _ _ _ _ Hne Hrows)|].
    intros path row [Hpath (m & q & d & Hm & ->)]. cbn beta.
    now apply (Hnl path m q d). }
  assert (Hparent : forall path i c p' last,
            call_at root [] true (path ++ [i]) = Some (c, p', last) ->
            exists n p b,
              call_at root [] true path = Some (n, p, b)
              /\ children n !! i = Some c
              /\ p' = p ++ (if bool_decide (path = []) then []
                            else if b then lit "   " else VERT :: lit "  ")
              /\ (last = true <-> S i = length (children n))).
  { intros path i c p' last Hcall.
    destruct (call_at_parent _ _ _ _ _ _ Hcall)
      as (n & p & b & Hn & Hi & -> & Hlast).
    exists n, p, b. split; [exact Hn|]. split; [exact Hi|].
    split; [|exact Hlast]. f_equal.
    destruct (call_at_built _ _ _ _ _ _ _ _ _ Hb Hn) as [Hbn Hln].
    destruct (built_tree_inv _ _ Hbn)
      as [(k' & v & l & ->)|(k' & cs' & l & -> & _)]; [discriminate|].
    cbn [child_prefix_of]. unfold tree_child_prefix.
    destruct path as [|i0 path'].
    - cbn in Hn. injection Hn as <- <- <- <-. reflexivity.
    - rewrite bool_decide_eq_false_2 by discriminate.
      specialize (Hln ltac:(discriminate)). injection Hln as ->.
      reflexivity. }
  destruct ls as [|l0 ls].
  - exists root, [], []. split; [exact Hroot|]. split; [exact Hout|].
    split; [intros path; apply paths_below_spec|].
    split; [exact Hparent|].
    split; [now apply Hpieces|]. split; [reflexivity|].
    assert (Hnil : cs = []).
    { destruct cs as [|c cs']; [reflexivity|]. exfalso.
      apply Forall2_length in Hls. cbn [rows_loop] in Hls.
      rewrite length_app, rows_length in Hls. discriminate. }
    unfold root. cbn [children]. split; intros; congruence.
  - destruct (trim_block _ (l0 :: ls) ltac:(discriminate) Hls)
      as (ls' & Hls' & Htrim).
    exists root, (rstrip (unlines (l0 :: ls))), ls'.
    split; [exact Hroot|]. split; [exact Hout|].
    split; [intros path; apply paths_below_spec|].
    split; [exact Hparent|].
    split; [now apply Hpieces|]. split; [|split].
    + unfold root. cbn [children]. intros ->.
      apply Forall2_length in Hls. discriminate.
    + intros _. exact Htrim.
    + intros _ Hnl.
      assert (Hnl' : Forall (fun l => NL ∉ l) ls')
        by (apply (row_lines_no_break _ _ Hls'); now apply Hnobreak).
      pose proof (split_lines_unlines ls' Hnl') as H.
      rewrite <- Htrim, split_lines_snoc_break in H.
      now apply app_inv_tail in H.
Qed.

(** A run of this theorem on {"a": 1, "b": [2, 3]}: four lines, one for
    each node below the root; the elements of the array "b", the last child
    of the root, inherit three blanks, and the second of them, the last,
    has └─. *)
Lemma tree_lines_connectors_witness :
  exists out pieces,
    render TreeNodeFactory default_icons
      (JDict [(lit "a", JAtom (PInt 1));
              (lit "b", JList [JAtom (PInt 2); JAtom (PInt 3)])])
    = Ret (Some out)
    /\ split_lines out = pieces
    /\ pieces = [[VERT_RIGHT; HORIZ] ++ lit " a: 1";
                 [UP_RIGHT; HORIZ] ++ lit " b";
                 lit "   " ++ [VERT_RIGHT; HORIZ] ++ lit " b[0]: 2";
                 lit "   " ++ [UP_RIGHT; HORIZ] ++ lit " b[1]: 3"].
Proof.
  destruct (tree_lines_connectors default_icons
              (JDict [(lit "a", JAtom (PInt 1));
                      (lit "b", JList [JAtom (PInt 2); JAtom (PInt 3)])])
              eq_refl)
    as (root & out & pieces & Hroot & Hout & _ & _ & _ & _ & _ & Hsplit).
  exists out, pieces. split; [exact Hout|].
  vm_compute in Hroot. injection Hroot as <-.
  assert (Hlines : split_lines out = pieces).
  { apply Hsplit; [discriminate|].
    intros path n p b Hne Hpath.
    repeat match type of Hpath with
           | call_at _ _ _ ?path = _ =>
               is_var path; destruct path as [|[|[|?]] ?];
               cbn in Hpath; try discriminate Hpath
           end;
      try easy; injection Hpath as <- <- <-;
      apply (bool_decide_unpack _); vm_compute; exact I. }
  split; [exact Hlines|]. rewrite <- Hlines.
  vm_compute in Hout. injection Hout as <-. reflexivity.
Defined.

(** C7 as stated fails: the value of "a" in {"a": "x\ny"} holds a line
    break, and the second line of the text rendered for it is y, which has
    no prefix and neither └─ nor ├─. *)
Lemma tree_line_without_connector :
  exists out,
    render TreeNodeFactory default_icons
      (JDict [(lit "a", JAtom (PStr (lit "x" ++ [NL] ++ lit "y")))])
    = Ret (Some out)
    /\ split_lines out = [[UP_RIGHT; HORIZ] ++ lit " a: x"; lit "y"]
    /\ (UP_RIGHT ∉ lit "y") /\ (VERT_RIGHT ∉ lit "y").
Proof.
  eexists. split; [vm_compute; reflexivity|]. split; [reflexivity|].
  split; apply (bool_decide_unpack _); vm_compute; exact I.
Qed.

(** ** The frame of the rectangle, whatever the rows *)

Lemma py_index_nonneg n i : 0 <= i < n -> py_index n i = Some (Z.to_nat i).
Proof.
  intros H. unfold py_index.
  destruct (Z.leb_spec 0 i); [|lia]. now destruct (Z.ltb_spec i n); [|lia].
Qed.

Lemma py_index_neg n i : - n <= i < 0 -> py_index n i = Some (Z.to_nat (n + i)).
Proof.
  intros H. unfold py_index.
  destruct (Z.leb_spec 0 i); [lia|]. now destruct (Z.leb_spec (- n) i); [|lia].
Qed.

Lemma py_index_None n i : i < - n \/ n <= i -> 0 <= n -> py_index n i = None.
Proof.
  intros H Hn. unfold py_index. destruct (Z.leb_spec 0 i).
  - now destruct (Z.ltb_spec i n); [lia|].
  - now destruct (Z.leb_spec (- n) i); [lia|].
Qed.

Lemma len_insert {A} (l : list A) k x : len (<[k:=x]> l) = len l.
Proof. unfold len. now rewrite length_insert. Qed.

(** A text shorter than 62 characters: one of the four assignments of lines
    140-143 is out of range. *)
Lemma stitch_short ic s : len s < 62 -> stitch ic 60 s = Raise IndexError.
Proof.
  intros H. pose proof (len_nonneg s) as H0. unfold stitch.
  destruct (Z.eq_dec (len s) 0) as [E|E].
  { unfold setitem at 1. now rewrite py_index_None by lia. }
  unfold setitem at 1. rewrite py_index_nonneg by lia. cbn [bind].
  destruct (Z.le_gt_cases (len s) 60) as [E1|E1].
  { unfold setitem at 1. now rewrite py_index_None by (rewrite len_insert; lia). }
  unfold setitem at 1.
  rewrite py_index_nonneg by (rewrite len_insert; lia). cbn [bind].
  unfold setitem at 1.
  rewrite py_index_neg by (rewrite !len_insert; lia). cbn [bind].
  unfold setitem at 1.
  now rewrite py_index_None by (rewrite !len_insert; lia).
Qed.

(** The loop of lines 144-150 writes only at the indices it is given, and
    keeps the length. *)
Lemma scan_keeps ic idxs :
  forall s s',
  scan ic idxs s = Ret s' ->
  length s' = length s
  /\ forall k, (forall i, i ∈ idxs -> py_index (len s) i <> Some k) ->
               s' !! k = s !! k.
Proof.
  induction idxs as [|i idxs IH]; intros s s' H.
  - injection H as <-. now split.
  - cbn [scan] in H. unfold getitem in H.
    destruct (py_index (len s) i) as [k0|] eqn:Hk0; [|discriminate].
    destruct (s !! k0) as [c|]; [|discriminate]. cbn [bind] in H.
    unfold setitem in H. rewrite Hk0 in H. cbn [bind] in H.
    assert (Hstep : forall x, scan ic idxs (<[k0:=x]> s) = Ret s' ->
              length s' = length s
              /\ forall k, (forall i', i' ∈ i :: idxs ->
                              py_index (len s) i' <> Some k) ->
                           s' !! k = s !! k).
    { intros x Hx. destruct (IH _ _ Hx) as [Hlen Hout].
      rewrite length_insert in Hlen. split; [exact Hlen|].
      intros k Hk. rewrite Hout.
      - apply list_lookup_insert_ne. intros <-.
        apply (Hk i); [apply elem_of_cons; now left | exact Hk0].
      - intros i' Hi'. rewrite len_insert. apply Hk.
        apply elem_of_cons. now right. }
    assert (Hskip : scan ic idxs s = Ret s' ->
              length s' = length s
              /\ forall k, (forall i', i' ∈ i :: idxs ->
                              py_index (len s) i' <> Some k) ->
                           s' !! k = s !! k).
    { intros Hx. destruct (IH _ _ Hx) as [Hlen Hout].
      split; [exact Hlen|]. intros k Hk. apply Hout. intros i' Hi'.
      apply Hk. apply elem_of_cons. now right. }
    destruct (is_guide c); [now apply Hstep in H|].
    destruct (c =? SP)%N; [now apply Hstep in H|].
    destruct (is_icon ic c); [|now apply Hskip].
    injection H as <-. now split.
Qed.

(** Lines 139-152 on a text of 62 characters or more that ends with a line
    break: nothing is raised, the text loses its last line break and
    nothing else, ┘ is its last character and └ stands 61 characters before
    its end; ┌ and ┐ stand at the positions 0 and 60 unless one of the two
    later assignments falls on them. *)
Lemma stitch_text ic body :
  62 <= len body ->
  body !! (length body - 1)%nat = Some NL ->
  exists out,
    (s <- stitch ic 60 body ;; Ret (Some (rstrip s))) = Ret (Some out)
    /\ length body = S (length out)
    /\ last out = Some UP_LEFT
    /\ out !! (length out - 61)%nat = Some UP_RIGHT
    /\ (length out <> 61%nat -> out !! 0%nat = Some DOWN_RIGHT)
    /\ (length out <> 61%nat -> length out <> 121%nat ->
        out !! 60%nat = Some DOWN_LEFT).
Proof.
  intros HL Hend. unfold len in HL. set (L := length body) in *.
  unfold stitch.
  unfold setitem at 1. rewrite py_index_nonneg by (unfold len; lia).
  cbn [bind]. set (s1 := <[Z.to_nat 0:=DOWN_RIGHT]> body).
  assert (H1 : length s1 = L) by apply length_insert.
  unfold setitem at 1. rewrite py_index_nonneg by (unfold len; lia).
  cbn [bind]. set (s2 := <[Z.to_nat 60:=DOWN_LEFT]> s1).
  assert (H2 : length s2 = L) by (unfold s2; now rewrite length_insert).
  unfold setitem at 1. rewrite py_index_neg by (unfold len; lia).
  cbn [bind]. unfold len at 1. rewrite H2.
  replace (Z.to_nat (Z.of_nat L + -2)) with (L - 2)%nat by lia.
  set (s3 := <[(L - 2)%nat:=UP_LEFT]> s2).
  assert (H3 : length s3 = L) by (unfold s3; now rewrite length_insert).
  unfold setitem at 1. rewrite py_index_neg by (unfold len; lia).
  cbn [bind]. unfold len at 1. rewrite H3.
  replace (Z.to_nat (Z.of_nat L + (Z.opp 60 - 2))) with (L - 62)%nat by lia.
  set (s4 := <[(L - 62)%nat:=UP_RIGHT]> s3).
  assert (H4 : length s4 = L) by (unfold s4; now rewrite length_insert).
  assert (Hidx : forall i, i ∈ range (Z.opp 60 - 1) (-1) ->
            py_index (len s4) i = Some (Z.to_nat (Z.of_nat L + i))
            /\ (- 61 <= i <= -2)).
  { intros i Hi. unfold range in Hi. apply elem_of_seqZ in Hi.
    split; [|lia]. unfold len. rewrite H4. apply py_index_neg. lia. }
  destruct (scan_writes ic (range (Z.opp 60 - 1) (-1)) s4)
    as (s5 & Hscan & _ & Hkeep).
  { apply Forall_forall. intros i Hi. destruct (Hidx i Hi) as [-> _]. eauto. }
  destruct (scan_keeps _ _ _ _ Hscan) as [H5 Hout]. rewrite H4 in H5.
  rewrite Hscan. cbn [bind].
  assert (Ha : s5 !! (L - 2)%nat = Some UP_LEFT).
  { apply Hkeep; [|reflexivity|discriminate].
    unfold s4. rewrite list_lookup_insert_ne by lia.
    unfold s3. apply list_lookup_insert_eq. lia. }
  assert (Hb : s5 !! (L - 62)%nat = Some UP_RIGHT).
  { rewrite Hout.
    - unfold s4. apply list_lookup_insert_eq. lia.
    - intros i Hi. destruct (Hidx i Hi) as [-> Hr]. intros [= E]. lia. }
  assert (Hc : s5 !! (L - 1)%nat = Some NL).
  { rewrite Hout.
    - unfold s4, s3, s2, s1. rewrite !list_lookup_insert_ne by lia.
      exact Hend.
    - intros i Hi. destruct (Hidx i Hi) as [-> Hr]. intros [= E]. lia. }
  assert (Hd : L <> 62%nat -> s5 !! 0%nat = Some DOWN_RIGHT).
  { intros Hne. apply Hkeep; [|reflexivity|discriminate].
    unfold s4, s3, s2. rewrite !list_lookup_insert_ne by lia.
    unfold s1. apply list_lookup_insert_eq. lia. }
  assert (He : L <> 62%nat -> L <> 122%nat -> s5 !! 60%nat = Some DOWN_LEFT).
  { intros Hne Hne'. apply Hkeep; [|reflexivity|discriminate].
    unfold s4, s3. rewrite !list_lookup_insert_ne by lia.
    unfold s2. apply list_lookup_insert_eq. lia. }
  destruct (split_last_two s5 UP_LEFT NL) as (t & Ht);
    [lia | now rewrite H5 | now rewrite H5 |].
  assert (Hlen : L = S (length (t ++ [UP_LEFT]))).
  { rewrite <- H5, Ht, !length_app. simpl. lia. }
  assert (Htake : forall k, (k < L - 1)%nat ->
            (t ++ [UP_LEFT]) !! k = s5 !! k).
  { intros k Hk. rewrite Ht.
    change (t ++ [UP_LEFT; NL]) with (t ++ [UP_LEFT] ++ [NL]).
    rewrite app_assoc, (lookup_app_l _ [NL]); [reflexivity|]. lia. }
  exists (t ++ [UP_LEFT]). split; [|split; [exact Hlen|]].
  { rewrite Ht. now rewrite rstrip_nonspace. }
  split; [apply last_snoc|].
  replace (length (t ++ [UP_LEFT])) with (L - 1)%nat by lia.
  split; [|split].
  - rewrite Htake by lia. now replace (L - 1 - 61)%nat with (L - 62)%nat by lia.
  - intros Hne. rewrite Htake by lia. apply Hd. lia.
  - intros Hne Hne'. rewrite Htake by lia. apply He; lia.
Qed.

Lemma joined_ends_with_break xs :
  xs <> [] -> joined xs !! (length (joined xs) - 1)%nat = Some NL.
Proof.
  intros Hne. destruct (exists_last Hne) as (xs' & x & ->).
  unfold joined. rewrite map_app, concat_app. cbn [map concat].
  rewrite app_nil_r, !app_assoc, length_app. simpl.
  rewrite lookup_app_r by lia.
  now replace (_ - _)%nat with 0%nat by lia.
Qed.

(** The root of a tree of the rectangle family: its children return, and
    its text is the frame pass over what they returned. *)
Lemma rect_root_display ic k cs :
  Forall (fun c => built RectangleNodeFactory ic c /\ get_level c = Some 1) cs ->
  exists xs,
    Forall2 (fun '(c, i) x => display c [] (i =? len cs - 1) = Ret x)
      (zip cs (seqZ 0 (len cs))) xs
    /\ display (RectangleCompositeNode k ic cs 0 60) [] true
       = (s <- stitch ic 60 (joined xs) ;; Ret (Some (rstrip s))).
Proof.
  intros Hcs.
  assert (Hall : Forall (fun c => forall b', exists x,
            display c [] b' = Ret (id x) /\ True) cs).
  { eapply Forall_impl; [exact Hcs|]. intros c [Hbc Hlc] b'.
    destruct (rect_display_ok ic c Hbc) with (p := @nil N) (b := b')
      as (x & Hx & _); [congruence|eauto]. }
  destruct (results_exist id display (fun _ _ _ => True) (len cs) _ _ Hall 0)
    as (xs & Hxs).
  assert (Hxs' : Forall2 (fun '(c, i) x => display c [] (i =? len cs - 1) = Ret x)
                   (zip cs (seqZ 0 (len cs))) xs).
  { eapply Forall2_impl; [exact Hxs|]. now intros [c i] x [H _]. }
  exists xs. split; [exact Hxs'|].
  rewrite rect_composite_unfold.
  change ([] ++ rect_child_prefix 0) with (@nil N).
  change (rect_header 0 [] ic k 60) with (@nil N).
  rewrite (rect_children_loop_texts display (len cs) [] cs 0 [] xs Hxs').
  reflexivity.
Qed.

(** X10: when the rectangle style raises. For an object or an array, the
    children of the root all return, and the rendering raises [IndexError]
    exactly when the text joined from what they returned, each followed by
    a line break, has fewer than 62 characters: one of the assignments of
    lines 140-143 is then out of range. With 62 characters or more the
    rendering returns a text, which has one character less than the joined
    text. *)
Theorem rect_render_raises_iff (ic : icons) (j : json) :
  is_container j = true ->
  exists root xs,
    build RectangleNodeFactory ic j None = Ret root
    /\ Forall2 (fun '(c, i) x =>
                  display c [] (i =? len (children root) - 1) = Ret x)
         (zip (children root) (seqZ 0 (len (children root)))) xs
    /\ (len (joined xs) < 62 ->
        render RectangleNodeFactory ic j = Raise IndexError)
    /\ (62 <= len (joined xs) ->
        exists out,
          render RectangleNodeFactory ic j = Ret (Some out)
          /\ len out = len (joined xs) - 1).
Proof.
  intros Hj.
  destruct (build_ok RectangleNodeFactory ic j None)
    as (root & Hroot & [Hb Hcomp Hl _]).
  rewrite Hj in Hcomp, Hl.
  destruct (built_rect_inv _ _ Hb)
    as [(k & v & l & ->)|(k & cs & l & -> & Hcs)]; [discriminate|].
  cbn [get_level] in Hl. injection Hl as ->.
  destruct (rect_root_display ic k cs Hcs) as (xs & Hxs & Hdisp).
  exists (RectangleCompositeNode k ic cs 0 60), xs.
  split; [exact Hroot|]. split; [exact Hxs|].
  unfold render. rewrite Hroot. cbn [bind]. rewrite Hdisp. split.
  - intros H. now rewrite stitch_short.
  - intros H.
    destruct (stitch_text ic (joined xs) H) as (out & Hout & Hlen & _).
    { apply joined_ends_with_break. intros ->. vm_compute in H. now apply H. }
    exists out. split; [exact Hout|]. unfold len. lia.
Qed.

(** A run of this theorem on {"k": sixty x}: the only child returns no
    text, the joined text is the word None and a line break, and the
    rendering raises. *)
Lemma rect_render_raises_iff_witness :
  render RectangleNodeFactory default_icons
    (JDict [(lit "k", JAtom (PStr (repeat_char 120%N 60)))])
  = Raise IndexError.
Proof.
  destruct (rect_render_raises_iff default_icons
              (JDict [(lit "k", JAtom (PStr (repeat_char 120%N 60)))]) eq_refl)
    as (root & xs & Hroot & Hxs & Hraise & _).
  apply Hraise. vm_compute in Hroot. injection Hroot as <-.
  apply Forall2_cons_inv_l in Hxs as (x & xs' & Hx & Hxs' & ->).
  apply Forall2_nil_inv_l in Hxs' as ->.
  vm_compute in Hx. injection Hx as <-. vm_compute. reflexivity.
Defined.

(** X11: the corners of the rectangle, whatever the rows. Whenever the
    rectangle style returns a text for an object or an array, the text has
    at least 61 characters, its last character is ┘, and └ stands 61
    characters before its end, wherever the lines of the text break. ┌ is
    its first character unless the text has 61 characters, in which case
    the first character is └; ┐ stands at position 60 unless the text has
    61 characters, where ┘ stands there, or 121, where └ does. *)
Theorem rect_frame_corners (ic : icons) (j : json) (out : str) :
  is_container j = true ->
  render RectangleNodeFactory ic j = Ret (Some out) ->
  (61 <= length out)%nat
  /\ last out = Some UP_LEFT
  /\ out !! (length out - 61)%nat = Some UP_RIGHT
  /\ (length out <> 61%nat -> out !! 0%nat = Some DOWN_RIGHT)
  /\ (length out <> 61%nat -> length out <> 121%nat ->
      out !! 60%nat = Some DOWN_LEFT).
Proof.
  intros Hj Hout.
  destruct (build_ok RectangleNodeFactory ic j None)
    as (root & Hroot & [Hb Hcomp Hl _]).
  rewrite Hj in Hcomp, Hl.
  destruct (built_rect_inv _ _ Hb)
    as [(k & v & l & ->)|(k & cs & l & -> & Hcs)]; [discriminate|].
  cbn [get_level] in Hl. injection Hl as ->.
  destruct (rect_root_display ic k cs Hcs) as (xs & Hxs & Hdisp).
  unfold render in Hout. rewrite Hroot in Hout. cbn [bind] in Hout.
  rewrite Hdisp in Hout.
  destruct (Z.lt_ge_cases (len (joined xs)) 62) as [H|H].
  { rewrite stitch_short in Hout by exact H. discriminate. }
  destruct (stitch_text ic (joined xs) H)
    as (out' & Hout' & Hlen & Hlast & Hur & Hdr & Hdl).
  { apply joined_ends_with_break. intros ->. vm_compute in H. now apply H. }
  rewrite Hout' in Hout. injection Hout as <-.
  split; [unfold len in H; lia|]. auto.
Qed.

(** A run of this theorem on {"a": 1}: one line of 61 characters, from └
    to ┘. *)
Lemma rect_frame_corners_witness :
  exists out,
    render RectangleNodeFactory default_icons
      (JDict [(lit "a", JAtom (PInt 1))]) = Ret (Some out)
    /\ length out = 61%nat
    /\ last out = Some UP_LEFT
    /\ out !! 0%nat = Some UP_RIGHT.
Proof.
  eexists. split; [vm_compute; reflexivity|]. split; [reflexivity|].
  destruct (rect_frame_corners default_icons
              (JDict [(lit "a", JAtom (PInt 1))]) _ eq_refl eq_refl)
    as (_ & Hlast & Hur & _).
  split; [exact Hlast | exact Hur].
Defined.

(** ** The scan of the border pass *)




(** ** One node for each value *)

Lemma descendants_set_level n l : descendants (set_level n l) = descendants n.
Proof. now destruct n. Qed.

Lemma flat_map_count {A} (g : A -> nat) (xs : list A) (cs : list Node) :
  Forall2 (fun a c => S (length (descendants c)) = g a) xs cs ->
  length (flat_map (fun c => c :: descendants c) cs) = list_sum (map g xs).
Proof.
  induction 1 as [|a c xs cs Hac _ IH]; [reflexivity|].
  cbn [flat_map map list_sum]. rewrite length_app, IH. simpl. lia.
Qed.

(** X12: [build] makes one node for each value: the tree it returns for a
    value has as many nodes, the root and all nodes below it, as there are
    values in the value, itself and those nested in it at any depth. *)
Theorem build_node_count (f : factory) (ic : icons) (j : json)
    (key : option str) :
  exists root,
    build f ic j key = Ret root
    /\ length (root :: descendants root) = size j.
Proof.
  revert key.
  induction j as [items IH|elems IH|v] using json_nested_ind; intros key.
  - destruct (create_composite_facts f ic key) as (Hc & _ & Hch & _).
    destruct (items_loop_children f ic items _ Hc)
      as (lv & root & cs & _ & Hrun & Hch' & _ & _ & Hcs).
    rewrite Hch in Hch'. cbn [app] in Hch'.
    exists root. split; [exact Hrun|].
    cbn [length size]. f_equal.
    rewrite descendants_children, Hch'. apply flat_map_count.
    clear -IH Hcs. induction Hcs as [|[k v] c items cs (m & Hm & ->) _ IHcs];
      constructor.
    + apply Forall_inv in IH. destruct (IH (Some k)) as (m' & Hm' & Hlen).
      cbn [snd fst] in *. rewrite Hm in Hm'. injection Hm' as <-.
      rewrite descendants_set_level. exact Hlen.
    + apply IHcs. now apply Forall_inv_tail in IH.
  - destruct (create_composite_facts f ic key) as (Hc & _ & Hch & _).
    destruct (enum_loop_children f ic key elems 0 _ Hc)
      as (lv & root & cs & _ & Hrun & Hch' & _ & _ & Hcs).
    rewrite Hch in Hch'. cbn [app] in Hch'.
    exists root. split; [exact Hrun|].
    cbn [length size]. f_equal.
    rewrite descendants_children, Hch'. apply flat_map_count.
    clear -IH Hcs. revert Hcs. generalize 0 as i. revert cs.
    induction IH as [|v elems Hv _ IHel]; intros cs i Hcs.
    + inversion Hcs; subst. constructor.
    + unfold len in Hcs. simpl length in Hcs.
      rewrite Nat2Z.inj_succ, seqZ_cons in Hcs by lia.
      inversion Hcs as [|? c ? cs' Hc Hcs']; subst.
      cbn beta iota in Hc. destruct Hc as (m & Hm & ->).
      constructor.
      * destruct (Hv (Some (index_key key i))) as (m' & Hm' & Hlen).
        rewrite Hm in Hm'. injection Hm' as <-.
        rewrite descendants_set_level. exact Hlen.
      * apply (IHel cs' (Z.succ i)).
        now replace (Z.pred (Z.succ (Z.of_nat (length elems))))
          with (len elems) in Hcs' by (unfold len; lia).
  - exists (create_leaf_node f key v ic). split; [reflexivity|].
    now destruct f.
Qed.

(** ** What [build] allocates *)

Lemma add_length a c h r h' :
  Heap.add a c h = Some (r, h') -> length h' = length h.
Proof.
  unfold Heap.add, Heap.mbind, Heap.load, Heap.store, Heap.lift. intros H.
  repeat case_match; simplify_eq; rewrite ?length_insert; reflexivity.
Qed.

Section BuildAllocates.
Variables (f : factory) (ic : icons).

Lemma items_loop_length items :
  Forall (fun kv : list N * json => allocates f ic kv.2) items ->
  forall node h h',
  Heap.items_loop (Heap.build f ic) items node h = Some (Ret tt, h') ->
  length h' = (length h + list_sum (map (fun kv => size kv.2) items))%nat.
Proof.
  induction 1 as [|[k v] items Hv _ IH]; intros node h h' H.
  - injection H as <-. simpl. lia.
  - cbn [Heap.items_loop] in H. unfold Heap.mbind at 1 in H.
    destruct (Heap.build f ic v (Some k) h) as [[[c|e] h1]|] eqn:Hb;
      [|discriminate..].
    destruct (Hv _ _ _ _ Hb) as [_ H1].
    unfold Heap.mbind at 1 in H.
    destruct (Heap.add node c h1) as [[[[]|e] h2]|] eqn:Ha; [|discriminate..].
    apply add_length in Ha. apply IH in H.
    cbn [map snd] in *. unfold list_sum in *. cbn [fold_right]. lia.
Qed.

Lemma enum_loop_length key elems :
  Forall (allocates f ic) elems ->
  forall i node h h',
  Heap.enum_loop (Heap.build f ic) key elems i node h = Some (Ret tt, h') ->
  length h' = (length h + list_sum (map size elems))%nat.
Proof.
  induction 1 as [|v elems Hv _ IH]; intros i node h h' H.
  - injection H as <-. simpl. lia.
  - cbn [Heap.enum_loop] in H. unfold Heap.mbind at 1 in H.
    destruct (Heap.build f ic v (Some (index_key key i)) h)
      as [[[c|e] h1]|] eqn:Hb; [|discriminate..].
    destruct (Hv _ _ _ _ Hb) as [_ H1].
    unfold Heap.mbind at 1 in H.
    destruct (Heap.add node c h1) as [[[[]|e] h2]|] eqn:Ha; [|discriminate..].
    apply add_length in Ha. apply IH in H.
    cbn [map] in *. unfold list_sum in *. cbn [fold_right]. lia.
Qed.

Lemma create_composite_alloc key h :
  Heap.create_composite_node f key ic h
  = Some (Ret (length h),
          h ++ [Heap.object_of (create_composite_node f key ic) []]).
Proof. now destruct f. Qed.

Lemma allocates_size j : allocates f ic j.
Proof.
  induction j as [items IH|elems IH|v] using json_nested_ind;
    intros key h l h' H; cbn [Heap.build] in H.
  - unfold Heap.mbind at 1 in H. rewrite create_composite_alloc in H.
    unfold Heap.mbind at 1 in H.
    destruct (Heap.items_loop _ _ _ _) as [[[[]|e] h1]|] eqn:Hl;
      [|discriminate..].
    injection H as <- <-. split; [reflexivity|].
    apply (items_loop_length items IH) in Hl.
    rewrite length_app in Hl. cbn [size]. simpl in Hl. lia.
  - unfold Heap.mbind at 1 in H. rewrite create_composite_alloc in H.
    unfold Heap.mbind at 1 in H.
    destruct (Heap.enum_loop _ _ _ _ _ _) as [[[[]|e] h1]|] eqn:Hl;
      [|discriminate..].
    injection H as <- <-. split; [reflexivity|].
    apply (enum_loop_length key elems IH) in Hl.
    rewrite length_app in Hl. cbn [size]. simpl in Hl. lia.
  - destruct f; injection H as <- <-; rewrite length_app; simpl; split; lia.
Qed.
End BuildAllocates.

(** X13: what [build] does to the object store. From any store, [build]
    returns the first fresh location, where the root is; it creates one
    instance for each value in the value, neither more nor fewer; and every
    instance that was in the store before is the same after, although [add]
    assigns the level and the list of children of instances: it assigns
    only those of instances this call created. *)
Theorem build_allocates (f : factory) (ic : icons) (j : json)
    (key : option str) (h : list Heap.object) :
  exists l h',
    Heap.build f ic j key h = Some (Ret l, h')
    /\ l = length h
    /\ length h' = (length h + size j)%nat
    /\ (forall x, (x < length h)%nat -> h' !! x = h !! x).
Proof.
  destruct (build_refines f ic j key h)
    as (l & h' & n & Hrun & _ & _ & _ & Hpre).
  destruct (allocates_size f ic j key h l h' Hrun) as [Hl Hlen].
  exists l, h'. auto.
Qed.

(** ** How [main] can end *)

Lemma styles_lookup style f :
  dict_get styles style = Some f ->
  (style = lit "tree" /\ f = TreeNodeFactory)
  \/ (style = lit "rectangle" /\ f = RectangleNodeFactory).
Proof.
  unfold styles. cbn [dict_get].
  destruct (decide (lit "tree" = style)) as [<-|H1].
  - rewrite bool_decide_eq_true_2 by reflexivity. intros [= <-]. now left.
  - rewrite bool_decide_eq_false_2 by exact H1.
    destruct (decide (lit "rectangle" = style)) as [<-|H2].
    + rewrite bool_decide_eq_true_2 by reflexivity. intros [= <-]. now right.
    + now rewrite bool_decide_eq_false_2 by exact H2.
Qed.


(** ** Under the recursion limit *)

Lemma call_enough {A} frames (body : nat -> res A) :
  (0 < frames)%nat -> Limit.call frames body = body (pred frames).
Proof. destruct frames; [lia|reflexivity]. Qed.

Lemma create_composite_limit k f key ic :
  Limit.create_composite_node k f key ic
  = if (2 <=? k)%nat then Ret (create_composite_node f key ic)
    else Raise RecursionError.
Proof. now destruct k as [|[|k]]. Qed.

Lemma create_leaf_limit k f key v ic :
  Limit.create_leaf_node k f key v ic
  = if (2 <=? k)%nat then Ret (create_leaf_node f key v ic)
    else Raise RecursionError.
Proof. now destruct k as [|[|k]]. Qed.

Section BuildLimit.
Variables (f : factory) (ic : icons).

Lemma items_loop_limit k items :
  (2 <= k)%nat ->
  Forall (fun kv : list N * json => within_limit f ic kv.2) items ->
  forall node, is_composite node = true ->
  Limit.items_loop (Limit.build k f ic) k items node
  = if (list_max (map (fun kv => depth kv.2) items) + 2 <=? k)%nat
    then items_loop (build f ic) items node
    else Raise RecursionError.
Proof.
  intros Hk. induction 1 as [|[key v] items Hv _ IH]; intros node Hc.
  - cbn [Limit.items_loop items_loop map]. change (list_max []) with 0%nat.
    destruct (Nat.leb_spec (0 + 2) k); [reflexivity|lia].
  - cbn [Limit.items_loop items_loop map snd].
    unfold within_limit in Hv. cbn [snd] in Hv. rewrite (Hv k (Some key)).
    set (ds := map (fun kv : list N * json => depth kv.2) items) in *.
    replace (list_max (depth v :: ds)) with (Nat.max (depth v) (list_max ds))
      by reflexivity.
    destruct (Nat.leb_spec (depth v + 2) k) as [Hd|Hd].
    + destruct (build_ok f ic v (Some key)) as (m & -> & _). cbn [bind].
      destruct (add_children node m Hc)
        as (lv & node1 & _ & Hadd & _ & _ & Hc1 & _).
      unfold Limit.add. rewrite call_enough by lia. rewrite Hadd. cbn [bind].
      rewrite (IH node1 Hc1).
      destruct (Nat.leb_spec (list_max ds + 2) k),
               (Nat.leb_spec (Nat.max (depth v) (list_max ds) + 2) k);
        try reflexivity; lia.
    + cbn [bind].
      now destruct (Nat.leb_spec (Nat.max (depth v) (list_max ds) + 2) k);
        [lia|].
Qed.

Lemma enum_loop_limit k key elems :
  (2 <= k)%nat ->
  Forall (within_limit f ic) elems ->
  forall i node, is_composite node = true ->
  Limit.enum_loop (Limit.build k f ic) k key elems i node
  = if (list_max (map depth elems) + 2 <=? k)%nat
    then enum_loop (build f ic) key elems i node
    else Raise RecursionError.
Proof.
  intros Hk. induction 1 as [|v elems Hv _ IH]; intros i node Hc.
  - cbn [Limit.enum_loop enum_loop map]. change (list_max []) with 0%nat.
    destruct (Nat.leb_spec (0 + 2) k); [reflexivity|lia].
  - cbn [Limit.enum_loop enum_loop map].
    unfold within_limit in Hv. rewrite (Hv k (Some (index_key key i))).
    set (ds := map depth elems) in *.
    replace (list_max (depth v :: ds)) with (Nat.max (depth v) (list_max ds))
      by reflexivity.
    destruct (Nat.leb_spec (depth v + 2) k) as [Hd|Hd].
    + destruct (build_ok f ic v (Some (index_key key i))) as (m & -> & _).
      cbn [bind].
      destruct (add_children node m Hc)
        as (lv & node1 & _ & Hadd & _ & _ & Hc1 & _).
      unfold Limit.add. rewrite call_enough by lia. rewrite Hadd. cbn [bind].
      rewrite (IH (i + 1) node1 Hc1).
      destruct (Nat.leb_spec (list_max ds + 2) k),
               (Nat.leb_spec (Nat.max (depth v) (list_max ds) + 2) k);
        try reflexivity; lia.
    + cbn [bind].
      now destruct (Nat.leb_spec (Nat.max (depth v) (list_max ds) + 2) k);
        [lia|].
Qed.

Lemma build_limit j : within_limit f ic j.
Proof.
  induction j as [items IH|elems IH|v] using json_nested_ind;
    intros frames key; (destruct frames as [|k]; [reflexivity|]);
    cbn [Limit.build Limit.call depth build].
  - rewrite create_composite_limit.
    set (ds := map (fun kv : list N * json => depth kv.2) items) in *.
    destruct (Nat.leb_spec 2 k) as [Hk|Hk]; cbn [bind].
    + rewrite (items_loop_limit k items Hk IH)
        by apply create_composite_facts.
      fold ds.
      destruct (Nat.leb_spec (list_max ds + 2) k),
               (Nat.leb_spec (S (list_max ds) + 2) (S k));
        try reflexivity; lia.
    + now destruct (Nat.leb_spec (S (list_max ds) + 2) (S k)); [lia|].
  - rewrite create_composite_limit.
    set (ds := map depth elems) in *.
    destruct (Nat.leb_spec 2 k) as [Hk|Hk]; cbn [bind].
    + rewrite (enum_loop_limit k key elems Hk IH)
        by apply create_composite_facts.
      fold ds.
      destruct (Nat.leb_spec (list_max ds + 2) k),
               (Nat.leb_spec (S (list_max ds) + 2) (S k));
        try reflexivity; lia.
    + now destruct (Nat.leb_spec (S (list_max ds) + 2) (S k)); [lia|].
  - rewrite create_leaf_limit.
    destruct (Nat.leb_spec 2 k), (Nat.leb_spec (1 + 2) (S k));
      try reflexivity; lia.
Qed.
End BuildLimit.

Lemma tree_children_loop_ext d1 d2 n cp cs :
  Forall (fun c => forall p b, d1 c p b = d2 c p b) cs ->
  forall i result,
  tree_children_loop d1 n cp cs i result
  = tree_children_loop d2 n cp cs i result.
Proof.
  induction 1 as [|c cs Hc _ IH]; intros i result; [reflexivity|].
  cbn [tree_children_loop]. rewrite Hc.
  destruct (d2 c cp (i =? n - 1)) as [x|e]; [|reflexivity]. cbn [bind].
  destruct (concat_opt x [NL]); [|reflexivity]. cbn [bind]. apply IH.
Qed.

Lemma rect_children_loop_ext d1 d2 n cp cs :
  Forall (fun c => forall p b, d1 c p b = d2 c p b) cs ->
  forall i result,
  rect_children_loop d1 n cp cs i result
  = rect_children_loop d2 n cp cs i result.
Proof.
  induction 1 as [|c cs Hc _ IH]; intros i result; [reflexivity|].
  cbn [rect_children_loop]. rewrite Hc.
  destruct (d2 c cp (i =? n - 1)) as [x|e]; [|reflexivity]. cbn [bind].
  apply IH.
Qed.

(** With a frame for each node on the longest way down, [display] does
    what it does without a limit. *)
Lemma display_limit n :
  forall frames p b,
  (height n <= frames)%nat -> Limit.display frames n p b = display n p b.
Proof.
  induction n as [n IH] using Node_children_ind; intros frames p b Hh.
  assert (Hcs : forall k, frames = S k ->
            Forall (fun c => forall p b,
                      Limit.display k c p b = display c p b) (children n)).
  { intros k ->. pose proof (children_height n) as Hch.
    rewrite Forall_forall in IH, Hch. apply Forall_forall.
    intros c Hc q d. apply IH; [exact Hc|]. specialize (Hch c Hc). lia. }
  destruct frames as [|k]; [destruct n; simpl in Hh; lia|].
  specialize (Hcs k eq_refl).
  destruct n as [|key ic cs l| |key ic cs l w];
    cbn [Limit.display Limit.call display children] in *; try reflexivity.
  - now rewrite (tree_children_loop_ext _ _ _ _ _ Hcs).
  - now rewrite (rect_children_loop_ext _ _ _ _ _ Hcs).
Qed.

Lemma render_limit f ic j frames :
  Limit.render frames f ic j
  = if (depth j + 2 <=? frames)%nat then render f ic j
    else Raise RecursionError.
Proof.
  unfold Limit.render, render. rewrite build_limit.
  destruct (Nat.leb_spec (depth j + 2) frames) as [H|H]; [|reflexivity].
  destruct (build_ok f ic j None) as (root & -> & [_ _ _ Hh]). cbn [bind].
  apply display_limit. lia.
Qed.

(** ** Claims on the builder *)

(** C9, as the code has it. [build] recurses on the values of an object and
    on the elements of an array, which are strictly smaller, with no bound
    of its own on the nesting: each level of nesting takes a frame, and the
    creation of the innermost node two more. Called with [frames] frames
    left, on a value whose depth plus two is at most [frames] it returns a
    node and raises nothing, with either factory and whatever key; on a
    value nested deeper it raises [RecursionError], and nothing else. *)
Theorem build_returns_within_limit (f : factory) (ic : icons) (j : json)
    (key : option str) (frames : nat) :
  ((depth j + 2 <= frames)%nat ->
   exists n,
     Limit.build frames f ic j key = Ret n
     /\ build f ic j key = Ret n
     /\ build_post f ic j n)
  /\ ((frames < depth j + 2)%nat ->
      Limit.build frames f ic j key = Raise RecursionError).
Proof.
  rewrite (build_limit f ic j frames key). split; intros H.
  - destruct (Nat.leb_spec (depth j + 2) frames); [|lia].
    destruct (build_ok f ic j key) as (n & Hn & Hpost). now exists n.
  - now destruct (Nat.leb_spec (depth j + 2) frames); [lia|].
Qed.

(** A run of this theorem with a thousand frames on {"a": 1, "b": [2, 3]},
    of depth 3, and on a list nested 900 deep. *)
Lemma build_returns_within_limit_witness :
  (exists n,
     Limit.build 1000 TreeNodeFactory default_icons
       (JDict [(lit "a", JAtom (PInt 1));
               (lit "b", JList [JAtom (PInt 2); JAtom (PInt 3)])]) None
     = Ret n
     /\ is_composite n = true)
  /\ exists n,
       Limit.build 1000 RectangleNodeFactory default_icons (nest 900) None
       = Ret n.
Proof.
  split.
  - destruct (build_returns_within_limit TreeNodeFactory default_icons
                (JDict [(lit "a", JAtom (PInt 1));
                        (lit "b", JList [JAtom (PInt 2); JAtom (PInt 3)])])
                None 1000) as [H _].
    destruct H as (n & Hn & _ & [_ Hc _ _]); [vm_compute; lia|].
    exists n. split; [exact Hn | exact Hc].
  - destruct (build_returns_within_limit RectangleNodeFactory default_icons
                (nest 900) None 1000) as [H _].
    destruct H as (n & Hn & _); [|now exists n].
    apply Nat.leb_le. vm_compute. reflexivity.
Defined.

(** C9 as stated fails: with a thousand frames left, as many as the default
    limit of the interpreter allows in all, [build] raises [RecursionError]
    on the finite value [[...[null]...]] nested a thousand deep, with
    either factory. *)
Lemma build_raises_on_deep_value :
  depth (nest 1000) = 1001%nat
  /\ Limit.build 1000 TreeNodeFactory default_icons (nest 1000) None
     = Raise RecursionError
  /\ Limit.build 1000 RectangleNodeFactory default_icons (nest 1000) None
     = Raise RecursionError.
Proof. repeat split; vm_compute; reflexivity. Qed.

(** ** What the renderers raise *)

(** X3: the tree style fails in one way only. Called with [frames] frames
    left, the rendering of a value whose depth plus two is at most [frames]
    returns a text, the one [render] gives; on a value nested deeper it
    raises [RecursionError]. On every node of the built tree [display]
    returns a text, whatever the prefix and the flag, when it has a frame
    for each node on the longest way down: no child returns an absent text,
    so the [+] of line 50 never raises [TypeError]. *)
Theorem tree_style_within_limit (ic : icons) (j : json) (frames : nat) :
  ((depth j + 2 <= frames)%nat ->
   exists root out,
     Limit.build frames TreeNodeFactory ic j None = Ret root
     /\ Limit.render frames TreeNodeFactory ic j = Ret (Some out)
     /\ render TreeNodeFactory ic j = Ret (Some out)
     /\ Forall (fun n => forall k p b, (height n <= k)%nat ->
                  exists t, Limit.display k n p b = Ret (Some t))
          (root :: descendants root))
  /\ ((frames < depth j + 2)%nat ->
      Limit.render frames TreeNodeFactory ic j = Raise RecursionError).
Proof.
  rewrite render_limit, (build_limit TreeNodeFactory ic j frames None).
  split; intros H;
    (destruct (Nat.leb_spec (depth j + 2) frames); [|try reflexivity; lia]);
    [|lia].
  destruct (build_ok TreeNodeFactory ic j None) as (root & Hroot & [Hb _ _ _]).
  destruct (tree_display_ok ic root Hb [] true) as (out & Hout & _).
  assert (Hr : render TreeNodeFactory ic j = Ret (Some out))
    by (unfold render; now rewrite Hroot).
  exists root, out. split; [exact Hroot|]. split; [exact Hr|].
  split; [exact Hr|]. constructor.
  - intros k p b Hk. rewrite display_limit by exact Hk.
    destruct (tree_display_ok ic root Hb p b) as (t & Ht & _). eauto.
  - eapply Forall_impl; [exact (built_descendants _ _ _ Hb)|].
    intros d [Hd _] k p b Hk. rewrite display_limit by exact Hk.
    destruct (tree_display_ok ic d Hd p b) as (t & Ht & _). eauto.
Qed.

(** A run of this theorem with a thousand frames: {"a": {"b": 1}} is
    rendered, a list nested a thousand deep is not. *)
Lemma tree_style_within_limit_witness :
  (exists out,
     Limit.render 1000 TreeNodeFactory default_icons
       (JDict [(lit "a", JDict [(lit "b", JAtom (PInt 1))])])
     = Ret (Some out))
  /\ Limit.render 1000 TreeNodeFactory default_icons (nest 1000)
     = Raise RecursionError.
Proof.
  split.
  - destruct (tree_style_within_limit default_icons
                (JDict [(lit "a", JDict [(lit "b", JAtom (PInt 1))])]) 1000)
      as [H _].
    destruct H as (root & out & _ & Hout & _); [vm_compute; lia|].
    now exists out.
  - destruct (tree_style_within_limit default_icons (nest 1000) 1000)
      as [_ H].
    apply H. apply Nat.ltb_lt. vm_compute. reflexivity.
Defined.

(** X4: what the rectangle style raises. Called with [frames] frames left,
    on a value nested deeper than [frames] less two the rendering raises
    [RecursionError]. Otherwise nothing is raised below the root: on every
    node under the root [display] returns when it has a frame for each node
    on the longest way down, a text or, for a leaf that does not fit, no
    text, which the [str] of line 135 absorbs; and the whole rendering
    returns or raises [IndexError], from the border pass of the root. *)
Theorem rectangle_style_within_limit (ic : icons) (j : json) (frames : nat) :
  ((depth j + 2 <= frames)%nat ->
   exists root,
     Limit.build frames RectangleNodeFactory ic j None = Ret root
     /\ Forall (fun n => forall k p b, (height n <= k)%nat ->
                  exists x, Limit.display k n p b = Ret x)
          (descendants root)
     /\ Limit.render frames RectangleNodeFactory ic j
        = render RectangleNodeFactory ic j
     /\ ((exists x, render RectangleNodeFactory ic j = Ret x)
         \/ render RectangleNodeFactory ic j = Raise IndexError))
  /\ ((frames < depth j + 2)%nat ->
      Limit.render frames RectangleNodeFactory ic j = Raise RecursionError).
Proof.
  rewrite render_limit, (build_limit RectangleNodeFactory ic j frames None).
  split; intros H;
    (destruct (Nat.leb_spec (depth j + 2) frames); [|try reflexivity; lia]);
    [|lia].
  destruct (build_ok RectangleNodeFactory ic j None)
    as (root & Hroot & [Hb _ _ _]).
  exists root. split; [exact Hroot|]. split; [|split; [reflexivity|]].
  { eapply Forall_impl; [exact (built_descendants _ _ _ Hb)|].
    intros d [Hbd Hld] k p b Hk. rewrite display_limit by exact Hk.
    destruct (rect_display_ok ic d Hbd) with (p := p) (b := b)
      as (x & Hx & _); [congruence|eauto]. }
  unfold render. rewrite Hroot. cbn [bind].
  destruct (built_rect_inv _ _ Hb)
    as [(k & v & l & ->)|(k & cs & l & -> & Hcs)].
  - left. cbn [display]. destruct (_ <? _); eauto.
  - rewrite rect_composite_unfold.
    assert (Hall : Forall (fun c => forall b', exists x,
              display c ([] ++ rect_child_prefix l) b' = Ret (id x) /\ True)
              cs).
    { eapply Forall_impl; [exact Hcs|]. intros c [Hbc Hlc] b'.
      destruct (rect_display_ok ic c Hbc)
        with (p := [] ++ rect_child_prefix l) (b := b') as (x & Hx & _);
        [congruence|eauto]. }
    destruct (results_exist id display (fun _ _ _ => True) (len cs) _ _
                Hall 0) as (xs & Hxs).
    erewrite rect_children_loop_texts.
    2:{ eapply Forall2_impl; [exact Hxs|]. now intros [c i] x [H' _]. }
    cbn [bind].
    destruct (l =? 0); [|left; eauto].
    destruct (stitch_raises ic 60 (rect_header l [] ic k 60 ++
                concat (map (fun x => str_opt x ++ [NL]) xs)))
      as [(s' & ->)| ->]; [left; eauto | now right].
Qed.

(** A run of this theorem with a thousand frames: {"a": 1} is rendered,
    the empty list raises [IndexError], and a list nested a thousand deep
    raises [RecursionError]. *)
Lemma rectangle_style_within_limit_witness :
  (exists out,
     Limit.render 1000 RectangleNodeFactory default_icons
       (JDict [(lit "a", JAtom (PInt 1))]) = Ret (Some out))
  /\ Limit.render 1000 RectangleNodeFactory default_icons (JList [])
     = Raise IndexError
  /\ Limit.render 1000 RectangleNodeFactory default_icons (nest 1000)
     = Raise RecursionError.
Proof.
  split; [|split].
  - destruct (rectangle_style_within_limit default_icons
                (JDict [(lit "a", JAtom (PInt 1))]) 1000) as [H _].
    destruct H as (root & _ & _ & -> & _); [vm_compute; lia|].
    eexists. vm_compute. reflexivity.
  - destruct (rectangle_style_within_limit default_icons (JList []) 1000)
      as [H _].
    destruct H as (root & _ & _ & -> & _); [vm_compute; lia|]. reflexivity.
  - destruct (rectangle_style_within_limit default_icons (nest 1000) 1000)
      as [_ H].
    apply H. apply Nat.ltb_lt. vm_compute. reflexivity.
Defined.

(** ** How [main] ends *)

(** X8: with the style tree, which is the default, and any of the six icon
    names, [main] ends in one of three ways, for every value: on a value
    nested deeper than the frames left less two, with [RecursionError];
    otherwise neither lookup fails and neither [build] nor [display]
    raises, [print] is given the text rendered with the icon pair of that
    name and a line break, and [main] ends as [print] does, having printed
    that text or with the exception [print] raised. *)
Theorem main_tree_prints {E} (frames : nat) (write : str -> option E)
    (icon : str) (json_data : json) :
  icon ∈ map fst icon_themes ->
  exists ic out,
    dict_get icon_themes icon = Some ic
    /\ render TreeNodeFactory ic json_data = Ret (Some out)
    /\ Limit.main frames write default_style icon json_data
       = if (depth json_data + 2 <=? frames)%nat
         then match write (out ++ [NL]) with
              | Some e => Limit.PrintRaises e
              | None => Limit.Prints (out ++ [NL])
              end
         else Limit.Raises RecursionError.
Proof.
  intros Hi. destruct (dict_get_Some _ _ Hi) as (ic & Hic & _).
  destruct (build_ok TreeNodeFactory ic json_data None)
    as (root & Hroot & [Hb _ _ Hh]).
  destruct (tree_display_ok ic root Hb [] true) as (out & Hdisp & _).
  exists ic, out. split; [exact Hic|]. split.
  { unfold render. now rewrite Hroot. }
  unfold Limit.main. rewrite Hic. cbn [dict_get styles default_style].
  rewrite bool_decide_eq_true_2 by reflexivity.
  rewrite build_limit.
  destruct (Nat.leb_spec (depth json_data + 2) frames) as [H|H];
    [|reflexivity].
  rewrite Hroot, display_limit by lia. now rewrite Hdisp.
Qed.

(** A run of this theorem with the defaults, a thousand frames and an
    output in UTF-8: {"x": null} is printed; on {"k": "\ud800"}, whose
    value is a lone surrogate, [print] raises [UnicodeEncodeError]; on a
    list nested a thousand deep [main] ends with [RecursionError]. *)
Lemma main_tree_prints_witness :
  Limit.main 1000 utf8_write default_style default_icon
    (JDict [(lit "x", JAtom PNone)])
  = Limit.Prints ([UP_RIGHT; HORIZ] ++ lit " x" ++ [NL])
  /\ Limit.main 1000 utf8_write default_style default_icon
       (JDict [(lit "k", JAtom (PStr [0xD800%N]))])
     = Limit.PrintRaises UnicodeEncodeError
  /\ Limit.main 1000 utf8_write default_style default_icon (nest 1000)
     = Limit.Raises RecursionError.
Proof.
  assert (Hi : default_icon ∈ map fst icon_themes)
    by (apply (bool_decide_unpack _); vm_compute; exact I).
  split; [|split].
  - destruct (main_tree_prints 1000 utf8_write default_icon
                (JDict [(lit "x", JAtom PNone)]) Hi)
      as (ic & out & Hic & Hout & ->).
    vm_compute in Hic. injection Hic as <-.
    vm_compute in Hout. injection Hout as <-. reflexivity.
  - destruct (main_tree_prints 1000 utf8_write default_icon
                (JDict [(lit "k", JAtom (PStr [0xD800%N]))]) Hi)
      as (ic & out & Hic & Hout & ->).
    vm_compute in Hic. injection Hic as <-.
    vm_compute in Hout. injection Hout as <-. reflexivity.
  - destruct (main_tree_prints 1000 utf8_write default_icon (nest 1000) Hi)
      as (ic & out & _ & _ & ->).
    replace (depth (nest 1000) + 2 <=? 1000)%nat with false
      by (vm_compute; reflexivity).
    reflexivity.
Defined.

(** X14: the ways [main] can end, for every style name, icon name and
    value, with [frames] frames left and whatever [print] does. It raises
    [KeyError] on the icon name or on the style name, and then the name is
    not in its table; or it raises [RecursionError], and then the value is
    nested deeper than [frames] less two; or it raises [IndexError], which
    happens only with the style rectangle on an object or an array; or it
    reaches [print] and ends as [print] does. Neither [build] nor [display]
    ends it with a [TypeError] or an [AttributeError]. *)
Theorem main_endings {E} (frames : nat) (write : str -> option E)
    (style icon : str) (json_data : json) :
  (Limit.main frames write style icon json_data = Limit.RaisesKeyError icon
   /\ icon ∉ map fst icon_themes)
  \/ (Limit.main frames write style icon json_data
      = Limit.RaisesKeyError style
      /\ style ∉ map fst styles)
  \/ (Limit.main frames write style icon json_data
      = Limit.Raises RecursionError
      /\ (frames < depth json_data + 2)%nat)
  \/ (Limit.main frames write style icon json_data = Limit.Raises IndexError
      /\ style = lit "rectangle" /\ is_container json_data = true)
  \/ (exists text,
        write (text ++ [NL]) = None
        /\ Limit.main frames write style icon json_data
           = Limit.Prints (text ++ [NL]))
  \/ (exists text e,
        write (text ++ [NL]) = Some e
        /\ Limit.main frames write style icon json_data
           = Limit.PrintRaises e).
Proof.
  remember (Limit.main frames write style icon json_data) as m eqn:Hm.
  unfold Limit.main in Hm.
  destruct (dict_get icon_themes icon) as [ic|] eqn:Hic.
  2:{ left. split; [exact Hm|]. intros Hin.
      destruct (dict_get_Some _ _ Hin) as (v & Hv & _). congruence. }
  destruct (dict_get styles style) as [f|] eqn:Hf.
  2:{ right. left. split; [exact Hm|]. intros Hin.
      destruct (dict_get_Some _ _ Hin) as (v & Hv & _). congruence. }
  right. right. rewrite build_limit in Hm.
  destruct (Nat.leb_spec (depth json_data + 2) frames) as [H|H];
    [|left; split; [exact Hm | exact H]].
  right.
  destruct (build_ok f ic json_data None) as (root & Hroot & [Hb Hcomp Hl Hh]).
  rewrite Hroot, display_limit in Hm by lia.
  assert (Hprint : forall x,
            m = match write (str_opt x ++ [NL]) with
                | Some e => Limit.PrintRaises e
                | None => Limit.Prints (str_opt x ++ [NL])
                end ->
            (exists text,
               write (text ++ [NL]) = None /\ m = Limit.Prints (text ++ [NL]))
            \/ (exists text e,
                  write (text ++ [NL]) = Some e /\ m = Limit.PrintRaises e)).
  { intros x Hx. destruct (write (str_opt x ++ [NL])) as [e|] eqn:Hw;
      [right | left]; eauto. }
  destruct (styles_lookup _ _ Hf) as [[-> ->]|[-> ->]].
  - destruct (tree_display_ok ic root Hb [] true) as (out & Hout & _).
    rewrite Hout in Hm. right. now apply (Hprint (Some out)).
  - destruct (built_rect_inv _ _ Hb)
      as [(k & v & l & ->)|(k & cs & l & -> & Hcs)].
    + right. cbn [display] in Hm.
      destruct (_ <? _); eapply Hprint; exact Hm.
    + destruct json_data as [items|elems|v]; [| |discriminate];
        cbn [is_container get_level] in Hl; injection Hl as ->;
        destruct (rect_root_display ic k cs Hcs) as (xs & _ & Hd);
        rewrite Hd in Hm;
        (destruct (stitch_raises ic 60 (joined xs)) as [(s & Hs)|Hs];
         rewrite Hs in Hm; cbn [bind] in Hm;
         [right; eapply Hprint; exact Hm | left; auto]).
Qed.
